(** * Smart-home energy dashboard: device-state server and sync client

    A shallow embedding of [server/server.js] (the Express device simulator)
    and of [src/App.jsx] (the polling React client with its derived metrics
    and pie chart), with the properties of the specification stated and
    settled against it.

    JavaScript numbers are IEEE 754 binary64 values: they are modelled by
    Rocq's primitive [float], whose operations are the same binary64
    operations (round to nearest, ties to even).  JavaScript strings are
    modelled by [string]; its 8-bit characters stand for the code units
    U+0000..U+00FF, which covers every key and literal of the program. *)

From Stdlib Require Import ZArith Reals Lra Lia List String Ascii Bool Floats DecimalString.
Import ListNotations.

#[local] Set Warnings "-inexact-float,-register-all,-abstract-large-number".
#[local] Open Scope list_scope.
#[local] Open Scope string_scope.

(** ** Completions

    A JavaScript operation either completes normally or throws. *)

Inductive Completion (A : Type) : Type :=
| Normal (a : A)
| Throw (err : string).

Arguments Normal {A} a.
Arguments Throw {A} err.

Definition bindC {A B : Type} (c : Completion A) (k : A -> Completion B) : Completion B :=
  match c with
  | Normal a => k a
  | Throw e => Throw e
  end.

Notation "x <- c ;; k" := (bindC c (fun x => k))
  (at level 61, c at next level, right associativity).

Fixpoint mapC {A B : Type} (f : A -> Completion B) (l : list A) : Completion (list B) :=
  match l with
  | [] => Normal []
  | a :: rest => b <- f a ;; bs <- mapC f rest ;; Normal (b :: bs)
  end.

Fixpoint foldC {A B : Type} (f : B -> A -> Completion B) (l : list A) (acc : B) : Completion B :=
  match l with
  | [] => Normal acc
  | a :: rest => acc' <- f acc a ;; foldC f rest acc'
  end.

Definition TypeError : string := "TypeError".

(** ** Numbers *)

Module Number.

(** The Number value of an integer, correctly rounded. *)
Definition of_Z (z : Z) : float :=
  SF2Prim (binary_normalize prec emax z 0 false).

(** The Number value nearest to [num / den] for positive integers. *)
Definition of_ratio (num den : positive) : float :=
  let '(q, e, l) := SFdiv_core_binary prec emax (Z.pos num) 0 (Z.pos den) 0 in
  SF2Prim (binary_round_aux prec emax false q e l).

(** The sign bit is set and the value is zero. *)
Definition is_neg_zero (x : float) : bool :=
  match PrimFloat.classify x with
  | NZero => true
  | _ => false
  end.

(** [Math.max(a, b)]: NaN if either is NaN, and [+0] is larger than [-0]. *)
Definition Math_max (a b : float) : float :=
  if (PrimFloat.is_nan a || PrimFloat.is_nan b)%bool then PrimFloat.nan
  else if PrimFloat.ltb a b then b
  else if PrimFloat.ltb b a then a
  else if is_neg_zero a then b else a.

(** [Math.floor(x)]. *)
Definition Math_floor (x : float) : float :=
  match Prim2SF x with
  | S754_finite s m e =>
      if (0 <=? e)%Z then x
      else
        let d := (2 ^ (- e))%Z in
        if s then of_Z (- ((Z.pos m + d - 1) / d))%Z
        else of_Z (Z.pos m / d)%Z
  | _ => x
  end.

(** [Math.PI]. *)
Definition Math_PI : float := 0x1.921fb54442d18p+1%float.

(** *** Number::toString (radix 10)

    The shortest decimal digit string that reads back as the same
    Number, the closest such one when there are several. *)

Definition digits (z : Z) : string :=
  NilEmpty.string_of_uint (N.to_uint (Z.to_N z)).

Fixpoint zeros (n : nat) : string :=
  match n with
  | O => ""
  | S n' => String "0" (zeros n')
  end.

(** Compare [a * 2^s] with [d * 10^p]. *)
Definition cmp_scaled (a s d p : Z) : comparison :=
  (a * 2 ^ Z.max s 0 * 10 ^ Z.max (- p) 0 ?= d * 10 ^ Z.max p 0 * 2 ^ Z.max (- s) 0)%Z.

(** The decimal exponent [n] of [a * 2^s > 0]: [10^(n-1) <= a * 2^s < 10^n]. *)
Fixpoint adjust_up (fuel : nat) (a s n : Z) : Z :=
  match fuel with
  | O => n
  | S fuel' =>
      match cmp_scaled a s 1 n with
      | Lt => n
      | _ => adjust_up fuel' a s (n + 1)%Z
      end
  end.

Fixpoint adjust_down (fuel : nat) (a s n : Z) : Z :=
  match fuel with
  | O => n
  | S fuel' =>
      match cmp_scaled a s 1 (n - 1) with
      | Lt => adjust_down fuel' a s (n - 1)%Z
      | _ => n
      end
  end.

Definition decimal_exponent (a s : Z) : Z :=
  let est := ((Z.log2 a + s) * 30103 / 100000)%Z in
  adjust_up 4 a s (adjust_down 4 a s est).

(** [floor (a * 2^s / 10^p)]. *)
Definition floor_scaled (a s p : Z) : Z :=
  ((a * 2 ^ Z.max s 0 * 10 ^ Z.max (- p) 0) / (10 ^ Z.max p 0 * 2 ^ Z.max (- s) 0))%Z.

Section Shortest.
(** The value is [x4 * 2^s]; every real strictly between [lo * 2^s] and
    [hi * 2^s] rounds to it, and the two ends do when [closed]. *)
Variables (x4 lo hi s : Z) (closed : bool).

Definition in_interval (d p : Z) : bool :=
  match cmp_scaled lo s d p, cmp_scaled hi s d p with
  | Lt, Gt => true
  | Eq, Gt | Lt, Eq => closed
  | _, _ => false
  end.

(** [d1 < d2] are the candidates around the value: the closer one, the
    even one on a tie. *)
Definition closest (d1 d2 p : Z) : Z :=
  (* (x - d1) ? (d2 - x), i.e. 2x ? d1 + d2 *)
  match cmp_scaled (2 * x4) s (d1 + d2) p with
  | Lt => d1
  | Gt => d2
  | Eq => if Z.even d1 then d1 else d2
  end.

Definition candidate (n k : Z) : option Z :=
  let p := (n - k)%Z in
  let d1 := floor_scaled x4 s p in
  let d2 := (d1 + 1)%Z in
  match in_interval d1 p, in_interval d2 p with
  | true, true => Some (closest d1 d2 p)
  | true, false => Some d1
  | false, true => Some d2
  | false, false => None
  end.

Fixpoint shortest (fuel : nat) (n k : Z) : Z * Z :=
  match fuel with
  | O => (floor_scaled x4 s (n - k), k)
  | S fuel' =>
      match candidate n k with
      | Some d => (d, k)
      | None => shortest fuel' n (k + 1)%Z
      end
  end.
End Shortest.

Fixpoint strip_zeros (fuel : nat) (d : Z) : Z :=
  match fuel with
  | O => d
  | S fuel' => if ((d mod 10 =? 0) && (0 <? d))%Z%bool then strip_zeros fuel' (d / 10)%Z else d
  end.

Definition string_take (n : nat) (s : string) : string := substring 0 n s.
Definition string_drop (n : nat) (s : string) : string := substring n (String.length s - n) s.

Definition format (ds : string) (n : Z) : string :=
  let k := Z.of_nat (String.length ds) in
  if ((k <=? n) && (n <=? 21))%Z%bool then ds ++ zeros (Z.to_nat (n - k))
  else if ((0 <? n) && (n <=? 21))%Z%bool then
    string_take (Z.to_nat n) ds ++ "." ++ string_drop (Z.to_nat n) ds
  else if ((-6 <? n) && (n <=? 0))%Z%bool then "0." ++ zeros (Z.to_nat (- n)) ++ ds
  else
    let e := (n - 1)%Z in
    let es := (if (e <? 0)%Z then "-" else "+") ++ digits (Z.abs e) in
    if (k =? 1)%Z then ds ++ "e" ++ es
    else string_take 1 ds ++ "." ++ string_drop 1 ds ++ "e" ++ es.

Definition toString_pos (m : positive) (e : Z) : string :=
  let x4 := (4 * Z.pos m)%Z in
  let s := (e - 2)%Z in
  let lo := if ((Z.pos m =? 2 ^ 52) && (-1074 <? e))%Z%bool then (x4 - 1)%Z else (x4 - 2)%Z in
  let hi := (x4 + 2)%Z in
  let n0 := decimal_exponent x4 s in
  let '(d, k) := shortest x4 lo hi s (Z.even (Z.pos m)) 17 n0 1 in
  let d' := strip_zeros 400 d in
  let ds := digits d' in
  (* the value is d * 10^(n0 - k): its decimal point sits after
     n0 - k + (number of digits of d) digits *)
  let n := (n0 - k + Z.of_nat (String.length (digits d)))%Z in
  format ds n.

Definition toString (x : float) : string :=
  match Prim2SF x with
  | S754_nan => "NaN"
  | S754_zero _ => "0"
  | S754_infinity s => if s then "-Infinity" else "Infinity"
  | S754_finite s m e => (if s then "-" else "") ++ toString_pos m e
  end.

End Number.

(** *** StringToNumber

    The Number value of a string, as [ToNumber] applies it to strings:
    white space is trimmed, the empty string is [+0], and anything that is
    not a numeric literal is [NaN]. *)

Module StringToNumber.

Definition code (c : ascii) : nat := nat_of_ascii c.

Definition is_space (c : ascii) : bool :=
  let n := code c in
  ((9 <=? n) && (n <=? 13) || (n =? 32) || (n =? 160))%nat%bool.

Fixpoint trim_left (s : string) : string :=
  match s with
  | String c rest => if is_space c then trim_left rest else s
  | EmptyString => s
  end.

Fixpoint rev_string (s acc : string) : string :=
  match s with
  | EmptyString => acc
  | String c rest => rev_string rest (String c acc)
  end.

Definition trim (s : string) : string :=
  rev_string (trim_left (rev_string (trim_left s) "")) "".

(** The value of a digit in the given radix, if it is one. *)
Definition digit_of (radix : Z) (c : ascii) : option Z :=
  let n := Z.of_nat (code c) in
  let v :=
    if ((48 <=? n) && (n <=? 57))%Z%bool then Some (n - 48)%Z
    else if ((97 <=? n) && (n <=? 102))%Z%bool then Some (n - 87)%Z
    else if ((65 <=? n) && (n <=? 70))%Z%bool then Some (n - 55)%Z
    else None in
  match v with
  | Some d => if (d <? radix)%Z then Some d else None
  | None => None
  end.

(** The longest prefix of digits: its value after [acc], how many there
    are, and what follows. *)
Fixpoint span_digits (radix : Z) (s : string) (acc : Z) (count : nat) : Z * nat * string :=
  match s with
  | String c rest =>
      match digit_of radix c with
      | Some d => span_digits radix rest (acc * radix + d)%Z (S count)
      | None => (acc, count, s)
      end
  | EmptyString => (acc, count, s)
  end.

Definition radix_literal (radix : Z) (s : string) : float :=
  match span_digits radix s 0 0 with
  | (v, S _, EmptyString) => Number.of_Z v
  | _ => PrimFloat.nan
  end.

Definition sign_of (s : string) : bool * string :=
  match s with
  | String "-" rest => (true, rest)
  | String "+" rest => (false, rest)
  | _ => (false, s)
  end.

(** The optional exponent part: [None] if it is malformed. *)
Definition exponent_part (s : string) : option (Z * string) :=
  match s with
  | String c rest =>
      if ((code c =? 101) || (code c =? 69))%nat%bool then
        let '(neg, rest') := sign_of rest in
        match span_digits 10 rest' 0 0 with
        | (v, S _, rest'') => Some ((if neg then - v else v)%Z, rest'')
        | _ => None
        end
      else Some (0%Z, s)
  | EmptyString => Some (0%Z, s)
  end.

(** The Number value of [d * 10^p], [d >= 0]. *)
Definition of_decimal (d p : Z) : float :=
  match d with
  | Z.pos d' =>
      if (0 <=? p)%Z then Number.of_Z (d * 10 ^ p)%Z
      else Number.of_ratio d' (Z.to_pos (10 ^ (- p)))
  | _ => PrimFloat.zero
  end.

Definition unsigned_decimal (s : string) : float :=
  if String.eqb s "Infinity" then PrimFloat.infinity
  else
    let '(ip, icount, rest) := span_digits 10 s 0 0 in
    let '(dp, fcount, has_dot, rest') :=
      match rest with
      | String "." after =>
          let '(v, c, r) := span_digits 10 after ip 0 in (v, c, true, r)
      | _ => (ip, O, false, rest)
      end in
    match (icount + fcount)%nat, exponent_part rest' with
    | S _, Some (ex, EmptyString) => of_decimal dp (ex - Z.of_nat fcount)
    | _, _ => PrimFloat.nan
    end.

Definition StringToNumber (str : string) : float :=
  let s := trim str in
  match s with
  | EmptyString => PrimFloat.zero
  | String "0" (String c rest) =>
      if ((code c =? 120) || (code c =? 88))%nat%bool then radix_literal 16 rest
      else if ((code c =? 111) || (code c =? 79))%nat%bool then radix_literal 8 rest
      else if ((code c =? 98) || (code c =? 66))%nat%bool then radix_literal 2 rest
      else unsigned_decimal s
  | _ =>
      let '(neg, rest) := sign_of s in
      let v := unsigned_decimal rest in
      if neg then PrimFloat.opp v else v
  end.

End StringToNumber.

(** ** Values

    The values that JSON text parses to, and [undefined] for a property
    that is absent.  An object is the list of its own properties in the
    order [Object.entries] enumerates them. *)

Inductive JsValue : Type :=
| JUndefined
| JNull
| JBool (b : bool)
| JNum (n : float)
| JStr (s : string)
| JArr (elems : list JsValue)
| JObj (props : list (string * JsValue)).

Fixpoint assoc {A : Type} (key : string) (l : list (string * A)) : option A :=
  match l with
  | [] => None
  | (k, v) :: rest => if String.eqb key k then Some v else assoc key rest
  end.

Definition has_key {A : Type} (key : string) (l : list (string * A)) : bool :=
  match assoc key l with
  | Some _ => true
  | None => false
  end.

(** [ToBoolean]. *)
Definition ToBoolean (v : JsValue) : bool :=
  match v with
  | JUndefined | JNull => false
  | JBool b => b
  | JNum n => negb (PrimFloat.is_zero n || PrimFloat.is_nan n)
  | JStr s => negb (String.eqb s "")
  | JArr _ | JObj _ => true
  end.

(** [ToString].  An array joins its elements with commas, [null] and
    [undefined] elements as the empty string.  A plain object is
    ["[object Object]"] through [Object.prototype.toString], unless an own
    property shadows that method: a JSON value is never callable, so the
    conversion then fails. *)
Fixpoint ToString (v : JsValue) : Completion string :=
  match v with
  | JUndefined => Normal "undefined"
  | JNull => Normal "null"
  | JBool b => Normal (if b then "true" else "false")
  | JNum n => Normal (Number.toString n)
  | JStr s => Normal s
  | JArr elems =>
      (fix join (l : list JsValue) : Completion string :=
         match l with
         | [] => Normal ""
         | x :: rest =>
             sx <- match x with
                   | JUndefined | JNull => Normal ""
                   | _ => ToString x
                   end ;;
             match rest with
             | [] => Normal sx
             | _ => sr <- join rest ;; Normal (sx ++ "," ++ sr)
             end
         end) elems
  | JObj props =>
      if has_key "toString" props then Throw TypeError else Normal "[object Object]"
  end.

(** [ToPrimitive]: objects and arrays convert to their string. *)
Definition ToPrimitive (v : JsValue) : Completion JsValue :=
  match v with
  | JArr _ | JObj _ => s <- ToString v ;; Normal (JStr s)
  | _ => Normal v
  end.

(** [ToNumber]. *)
Definition ToNumber (v : JsValue) : Completion float :=
  p <- ToPrimitive v ;;
  Normal match p with
         | JUndefined => PrimFloat.nan
         | JNull => PrimFloat.zero
         | JBool b => if b then PrimFloat.one else PrimFloat.zero
         | JNum n => n
         | JStr s => StringToNumber.StringToNumber s
         | JArr _ | JObj _ => PrimFloat.nan
         end.

(** [a + b]. *)
Definition js_add (a b : JsValue) : Completion JsValue :=
  pa <- ToPrimitive a ;;
  pb <- ToPrimitive b ;;
  match pa, pb with
  | JStr _, _ | _, JStr _ =>
      sa <- ToString pa ;; sb <- ToString pb ;; Normal (JStr (sa ++ sb))
  | _, _ =>
      na <- ToNumber pa ;; nb <- ToNumber pb ;; Normal (JNum (PrimFloat.add na nb))
  end.

(** [a || b]. *)
Definition js_or (a b : JsValue) : JsValue :=
  if ToBoolean a then a else b.

(** [a ?? b]. *)
Definition js_nullish (a b : JsValue) : JsValue :=
  match a with
  | JUndefined | JNull => b
  | _ => a
  end.

(** [typeof v === "number"]. *)
Definition is_number (v : JsValue) : bool :=
  match v with
  | JNum _ => true
  | _ => false
  end.

Fixpoint indexed {A : Type} (f : A -> JsValue) (i : nat) (l : list A) : list (string * JsValue) :=
  match l with
  | [] => []
  | a :: rest => (Number.digits (Z.of_nat i), f a) :: indexed f (S i) rest
  end.

(** The own enumerable string-keyed properties, in enumeration order: the
    properties of an object, the elements of an array, the characters of
    a string; a number or a boolean has none. *)
Definition own_props (v : JsValue) : list (string * JsValue) :=
  match v with
  | JObj props => props
  | JArr elems => indexed (fun x => x) 0 elems
  | JStr s => indexed (fun c => JStr (String c "")) 0 (list_ascii_of_string s)
  | _ => []
  end.

(** [Object.entries(v)]. *)
Definition Object_entries (v : JsValue) : Completion (list (string * JsValue)) :=
  match v with
  | JUndefined | JNull => Throw TypeError
  | _ => Normal (own_props v)
  end.

(** [v.key] for a key that no prototype of a JSON value defines ([loads],
    [power_W], [on], ...): the own property, [undefined] when there is
    none, and a [TypeError] on [null] and [undefined]. *)
Definition Get (v : JsValue) (key : string) : Completion JsValue :=
  match v with
  | JUndefined | JNull => Throw TypeError
  | _ => Normal match assoc key (own_props v) with
                | Some x => x
                | None => JUndefined
                end
  end.

(** [v?.key]. *)
Definition GetOpt (v : JsValue) (key : string) : JsValue :=
  match v with
  | JUndefined | JNull => JUndefined
  | _ => match assoc key (own_props v) with
         | Some x => x
         | None => JUndefined
         end
  end.

(** [ToPropertyKey], for the values JSON text parses to. *)
Definition ToPropertyKey (v : JsValue) : Completion string := ToString v.

(** ** The device state store ([server/server.js]) *)

Record Load : Type := {
  name : string;
  on : bool;
  voltage_V : float;
  current_A : float;
  power_W : float;
  energy_Wh : float
}.

Record Thresholds : Type := { highUsage_W : float }.

Module Alert.
Record t : Type := {
  type : string;
  loadId : string;
  message : string;
  timestamp : float
}.
End Alert.

(** [loads] lists the own properties of [state.loads] in the order
    [Object.entries] visits them. *)
Record DeviceState : Type := {
  timestamp : float;
  loads : list (string * Load);
  thresholds : Thresholds;
  alerts : list Alert.t
}.

(** [Math.floor(Date.now() / 1000)], [now] being the value of [Date.now()]. *)
Definition unix_seconds (now : float) : float :=
  Number.Math_floor (PrimFloat.div now 1000).

(** The state the server starts with. *)
Definition initial_state (now : float) : DeviceState := {|
  timestamp := unix_seconds now;
  loads := [
    ("lamp", {| name := "Desk Lamp"; on := true; voltage_V := 120.0;
                current_A := 0.25; power_W := 30.0; energy_Wh := 12.5 |});
    ("charger", {| name := "Phone Charger"; on := true; voltage_V := 5.0;
                   current_A := 1.2; power_W := 6.0; energy_Wh := 3.4 |});
    ("fan", {| name := "Desk Fan"; on := false; voltage_V := 120.0;
               current_A := 0.0; power_W := 0.0; energy_Wh := 20.1 |})
  ];
  thresholds := {| highUsage_W := 50 |};
  alerts := []
|}.

Definition set_on (b : bool) (l : Load) : Load :=
  {| name := name l; on := b; voltage_V := voltage_V l;
     current_A := current_A l; power_W := power_W l; energy_Wh := energy_Wh l |}.

(** ** The reading simulator *)

(** One pass of the loop body over a load that is off. *)
Definition reading_off (l : Load) : Load :=
  {| name := name l; on := on l; voltage_V := voltage_V l;
     current_A := 0; power_W := 0; energy_Wh := energy_Wh l |}.

(** One pass of the loop body over a load that is on, [r] being the value
    [Math.random()] returned. *)
Definition reading_on (r : float) (l : Load) : Load :=
  let noise := ((r - 0.5) * 0.05)%float in
  let current := Number.Math_max 0 (current_A l * (1 + noise))%float in
  let power := (voltage_V l * current)%float in
  {| name := name l; on := on l; voltage_V := voltage_V l;
     current_A := current; power_W := power;
     energy_Wh := (energy_Wh l + power / 3600)%float |}.

(** The [for] loop of [updateFakeReadings]: [random k] is the value of the
    [k]-th call of [Math.random()] in this cycle; a load that is off
    draws none. *)
Fixpoint readings_loop (random : nat -> float) (k : nat)
    (entries : list (string * Load)) : list (string * Load) :=
  match entries with
  | [] => []
  | (id, load) :: rest =>
      if negb (on load) then (id, reading_off load) :: readings_loop random k rest
      else (id, reading_on (random k) load) :: readings_loop random (S k) rest
  end.

Definition high_usage_alert (st : DeviceState) : Alert.t := {|
  Alert.type := "HIGH_USAGE";
  Alert.loadId := "fan";
  Alert.message := "Fan above " ++ Number.toString (highUsage_W (thresholds st)) ++ " W";
  Alert.timestamp := timestamp st
|}.

(** [updateFakeReadings()].  The state is mutated in place: when the
    function throws (there is no [fan] to read), what it wrote before
    stays written. *)
Definition updateFakeReadings (now : float) (random : nat -> float)
    (st : DeviceState) : Completion unit * DeviceState :=
  let st1 := {| timestamp := unix_seconds now;
                loads := readings_loop random 0 (loads st);
                thresholds := thresholds st;
                alerts := [] |} in
  match assoc "fan" (loads st1) with
  | None => (Throw TypeError, st1)
  | Some fan =>
      if (on fan && PrimFloat.ltb (highUsage_W (thresholds st1)) (power_W fan))%bool
      then (Normal tt,
            {| timestamp := timestamp st1; loads := loads st1;
               thresholds := thresholds st1;
               alerts := [high_usage_alert st1] |})
      else (Normal tt, st1)
  end.

(** ** The control handler *)

(** What the server process holds: the device state, and the one property
    the program can add to [Object.prototype] (see [write_on]). *)
Record Server : Type := {
  state : DeviceState;
  ObjectPrototype_on : option bool
}.

(** The properties every object inherits from [Object.prototype]; each is
    a function, or for [__proto__] the prototype object itself. *)
Definition ObjectPrototype_names : list string := [
  "constructor"; "__defineGetter__"; "__defineSetter__"; "hasOwnProperty";
  "__lookupGetter__"; "__lookupSetter__"; "isPrototypeOf";
  "propertyIsEnumerable"; "toString"; "valueOf"; "__proto__"; "toLocaleString"
].

Definition is_inherited (key : string) : bool :=
  existsb (String.eqb key) ObjectPrototype_names.

(** What [state.loads[key]] evaluates to. *)
Inductive Resolved : Type :=
| OwnLoad (l : Load)          (* an own property: a load object *)
| BuiltIn (key : string)      (* an object inherited from [Object.prototype] *)
| Inherited_on (b : bool)     (* the boolean stored at [Object.prototype.on] *)
| Unresolved.                 (* [undefined] *)

Definition resolve (srv : Server) (key : string) : Resolved :=
  match assoc key (loads (state srv)) with
  | Some l => OwnLoad l
  | None =>
      if is_inherited key then BuiltIn key
      else if String.eqb key "on" then
        match ObjectPrototype_on srv with
        | Some b => Inherited_on b
        | None => Unresolved
        end
      else Unresolved
  end.

Definition truthy (r : Resolved) : bool :=
  match r with
  | OwnLoad _ | BuiltIn _ => true
  | Inherited_on b => b
  | Unresolved => false
  end.

Fixpoint update_load (key : string) (f : Load -> Load)
    (entries : list (string * Load)) : list (string * Load) :=
  match entries with
  | [] => []
  | (k, l) :: rest =>
      if String.eqb key k then (k, f l) :: rest
      else (k, l) :: update_load key f rest
  end.

Definition with_loads (st : DeviceState) (ls : list (string * Load)) : DeviceState :=
  {| timestamp := timestamp st; loads := ls;
     thresholds := thresholds st; alerts := alerts st |}.

(** [state.loads[key].on = b], where [state.loads[key]] is [r].  On a load
    it sets the flag.  On [Object.prototype] (key [__proto__]) it creates
    [Object.prototype.on]; on an inherited function it sets a property of
    that function, which nothing reads; on a boolean it does nothing (the
    module is not in strict mode). *)
Definition write_on (srv : Server) (key : string) (r : Resolved) (b : bool) : Server :=
  match r with
  | OwnLoad _ =>
      {| state := with_loads (state srv) (update_load key (set_on b) (loads (state srv)));
         ObjectPrototype_on := ObjectPrototype_on srv |}
  | BuiltIn k =>
      if String.eqb k "__proto__"
      then {| state := state srv; ObjectPrototype_on := Some b |}
      else srv
  | Inherited_on _ | Unresolved => srv
  end.

(** A property of the parsed request body as the destructuring reads it:
    the own property, else what [Object.prototype] provides. *)
Definition body_get (srv : Server) (body : list (string * JsValue)) (key : string) : JsValue :=
  match assoc key body with
  | Some v => v
  | None =>
      if String.eqb key "on" then
        match ObjectPrototype_on srv with
        | Some b => JBool b
        | None => JUndefined
        end
      else JUndefined
  end.

Inductive Response : Type :=
| StatusOk (st : DeviceState)        (* 200, the state *)
| ControlOk (st : DeviceState)       (* 200, [{ ok: true, state }] *)
| BadRequest (error : string)        (* 400, [{ error }] *)
| InternalError (err : string).      (* 500: the handler threw *)

(** [GET /api/status]. *)
Definition get_status (now : float) (random : nat -> float) (srv : Server)
    : Response * Server :=
  let '(c, st') := updateFakeReadings now random (state srv) in
  let srv' := {| state := st'; ObjectPrototype_on := ObjectPrototype_on srv |} in
  match c with
  | Normal _ => (StatusOk st', srv')
  | Throw e => (InternalError e, srv')
  end.

(** [POST /api/control], [body] being the own properties of [req.body]. *)
Definition post_control (now : float) (random : nat -> float)
    (body : list (string * JsValue)) (srv : Server) : Response * Server :=
  let loadId := body_get srv body "loadId" in
  let on := body_get srv body "on" in
  match ToPropertyKey loadId with
  | Throw e => (InternalError e, srv)
  | Normal key =>
      let r := resolve srv key in
      if negb (truthy r) then (BadRequest "Unknown loadId", srv)
      else
        let srv1 := write_on srv key r (ToBoolean on) in
        let '(c, st') := updateFakeReadings now random (state srv1) in
        let srv' := {| state := st'; ObjectPrototype_on := ObjectPrototype_on srv1 |} in
        match c with
        | Normal _ => (ControlOk st', srv')
        | Throw e => (InternalError e, srv')
        end
  end.

Definition boot (now : float) : Server :=
  {| state := initial_state now; ObjectPrototype_on := None |}.

(** ** The wire format

    What the client's [res.json()] yields for a state the server passed to
    [res.json(state)]: the text [JSON.stringify] writes, parsed again.  A
    number that is not finite is written as [null], and [-0] as [0]. *)

Definition json_number (x : float) : JsValue :=
  if PrimFloat.is_finite x
  then JNum (if PrimFloat.is_zero x then PrimFloat.zero else x)
  else JNull.

Definition json_of_load (l : Load) : JsValue :=
  JObj [("name", JStr (name l)); ("on", JBool (on l));
        ("voltage_V", json_number (voltage_V l));
        ("current_A", json_number (current_A l));
        ("power_W", json_number (power_W l));
        ("energy_Wh", json_number (energy_Wh l))].

Definition json_of_alert (a : Alert.t) : JsValue :=
  JObj [("type", JStr (Alert.type a)); ("loadId", JStr (Alert.loadId a));
        ("message", JStr (Alert.message a));
        ("timestamp", json_number (Alert.timestamp a))].

Definition json_of_loads (ls : list (string * Load)) : JsValue :=
  JObj (map (fun '(id, l) => (id, json_of_load l)) ls).

Definition json_of_state (st : DeviceState) : JsValue :=
  JObj [("timestamp", json_number (timestamp st));
        ("loads", json_of_loads (loads st));
        ("thresholds", JObj [("highUsage_W", json_number (highUsage_W (thresholds st)))]);
        ("alerts", JArr (map json_of_alert (alerts st)))].

(** ** The derived metrics ([src/App.jsx], the summary [useMemo]) *)

Record Summary : Type := {
  totalPower : JsValue;
  devicesOn : nat;
  totalDevices : nat;
  thresholdW : JsValue
}.

Definition not_fan (entry : string * JsValue) : bool :=
  negb (String.eqb (fst entry) "fan").

(** [entries.filter(([, l]) => l.on)]. *)
Fixpoint filter_on (entries : list (string * JsValue)) : Completion (list (string * JsValue)) :=
  match entries with
  | [] => Normal []
  | (id, l) :: rest =>
      flag <- Get l "on" ;;
      kept <- filter_on rest ;;
      Normal (if ToBoolean flag then (id, l) :: kept else kept)
  end.

Definition summary (status : JsValue) : Completion Summary :=
  let threshold := js_nullish (GetOpt (GetOpt status "thresholds") "highUsage_W") JNull in
  if negb (ToBoolean (GetOpt status "loads")) then
    Normal {| totalPower := js_nullish (GetOpt status "totalPower_W") (JNum 0);
              devicesOn := 0; totalDevices := 0; thresholdW := threshold |}
  else
    loads <- Get status "loads" ;;
    entries <- Object_entries loads ;;
    let monitoredEntries := filter not_fan entries in
    totalP <- (if is_number (GetOpt status "totalPower_W")
               then Get status "totalPower_W"
               else foldC (fun sum entry =>
                             p <- Get (snd entry) "power_W" ;;
                             js_add sum (js_or p (JNum 0)))
                          monitoredEntries (JNum 0)) ;;
    lit <- filter_on entries ;;
    Normal {| totalPower := totalP; devicesOn := List.length lit;
              totalDevices := List.length entries; thresholdW := threshold |}.

(** ** The pie chart ([PowerPieChart]) *)

Module Entry.
Record t : Type := {
  id : string;
  name : JsValue;
  power : float
}.
End Entry.

(** What [colors[e.id] || "#e5e7eb"] evaluates to: a colour string, or for
    an id that names a property of [Object.prototype] the inherited
    object. *)
Inductive Fill : Type :=
| Colour (hex : string)
| InheritedObject (key : string).

Definition colors : list (string * string) :=
  [("lamp", "#f97316"); ("charger", "#22c55e")].

Definition fill_of (id : string) : Fill :=
  match assoc id colors with
  | Some c => Colour c
  | None => if is_inherited id then InheritedObject id else Colour "#e5e7eb"
  end.

(** A slice.  The source keeps [startAngle], [endAngle] and [largeArc] only
    inside [pathData], the SVG path drawn from them with [Math.cos] and
    [Math.sin] (whose results the language leaves to the implementation);
    the model keeps the three values themselves. *)
Module Slice.
Record t : Type := {
  startAngle : float;
  endAngle : float;
  largeArc : bool;
  color : Fill;
  label : JsValue;
  value : float;
  fraction : float;
  key : string
}.
End Slice.

Inductive PieView : Type :=
| Waiting                                        (* "Waiting for data..." *)
| Placeholder                                    (* "Monitored loads at 0 W" *)
| Chart (total : float) (slices : list Slice.t).

Definition pie_entry (entry : string * JsValue) : Completion Entry.t :=
  let '(id, l) := entry in
  nm <- Get l "name" ;;
  p <- Get l "power_W" ;;
  n <- ToNumber (js_or p (JNum 0)) ;;
  Normal {| Entry.id := id; Entry.name := js_or nm (JStr id);
            Entry.power := Number.Math_max 0 n |}.

(** [entries.map(...)] of the slices, [startAngle] being the variable the
    callback reads and updates. *)
Fixpoint slices_from (total startAngle : float) (entries : list Entry.t) : list Slice.t :=
  match entries with
  | [] => []
  | e :: rest =>
      let fraction := (Entry.power e / total)%float in
      let angle := (fraction * Number.Math_PI * 2)%float in
      let endAngle := (startAngle + angle)%float in
      {| Slice.startAngle := startAngle; Slice.endAngle := endAngle;
         Slice.largeArc := PrimFloat.ltb Number.Math_PI angle;
         Slice.color := fill_of (Entry.id e); Slice.label := Entry.name e;
         Slice.value := Entry.power e; Slice.fraction := fraction;
         Slice.key := Entry.id e |} :: slices_from total endAngle rest
  end.

Definition pie_total (entries : list Entry.t) : float :=
  fold_left (fun s e => (s + Entry.power e)%float) entries 0%float.

Definition top_angle : float := (- Number.Math_PI / 2)%float.

Definition PowerPieChart (loads : JsValue) : Completion PieView :=
  if negb (ToBoolean loads) then Normal Waiting
  else
    all <- Object_entries loads ;;
    entries <- mapC pie_entry (filter not_fan all) ;;
    let total := pie_total entries in
    if PrimFloat.leb total 0.0001 then Normal Placeholder
    else Normal (Chart total (slices_from total top_angle entries)).

(** ** The sync client ([App]) *)

(** The four pieces of React state. *)
Record View : Type := {
  status : JsValue;              (* [null] until the first snapshot *)
  loading : bool;
  error : option string;         (* [None] is [null] *)
  lastUpdated : option float     (* the time value of the [Date] *)
}.

Definition initial_view : View :=
  {| status := JNull; loading := true; error := None; lastUpdated := None |}.

(** *** Polling

    One run of the polling effect.  [fetchStatus] suspends twice, at
    [await fetch(...)] and at [await res.json()]; a call in flight is
    [Fetching] or [Parsing] accordingly. *)

Inductive Stage : Type := Fetching | Parsing.

Record Poller : Type := {
  view : View;
  cancelled : bool;                    (* the effect's [cancelled] variable *)
  interval : bool;                     (* the timer of [setInterval] is armed *)
  in_flight : list (nat * Stage);      (* the calls of [fetchStatus] not yet finished *)
  issued : nat                         (* how many status requests were sent *)
}.

Inductive PollEvent : Type :=
| Tick                                             (* the timer fires *)
| Teardown                                         (* the effect's cleanup runs *)
| FetchResolved (call : nat) (ok : bool)           (* [fetch] resolved, with [res.ok] *)
| FetchRejected (call : nat)                       (* [fetch] rejected *)
| JsonResolved (call : nat) (data : JsValue) (clock : float)
                                                   (* [res.json()] resolved; [clock] is [new Date()] *)
| JsonRejected (call : nat).                       (* [res.json()] rejected *)

(** The body of [fetchStatus] up to its first [await]. *)
Definition fetchStatus (p : Poller) : Poller :=
  {| view := view p; cancelled := cancelled p; interval := interval p;
     in_flight := (in_flight p ++ [(issued p, Fetching)])%list;
     issued := S (issued p) |}.

(** The effect body: [cancelled = false], a first [fetchStatus()], then
    [setInterval(fetchStatus, 1000)]. *)
Definition mount (v : View) : Poller :=
  let p := fetchStatus {| view := v; cancelled := false; interval := false;
                          in_flight := []; issued := 0 |} in
  {| view := view p; cancelled := cancelled p; interval := true;
     in_flight := in_flight p; issued := issued p |}.

Fixpoint stage_of (call : nat) (l : list (nat * Stage)) : option Stage :=
  match l with
  | [] => None
  | (c, s) :: rest => if Nat.eqb call c then Some s else stage_of call rest
  end.

Fixpoint drop_call (call : nat) (l : list (nat * Stage)) : list (nat * Stage) :=
  match l with
  | [] => []
  | (c, s) :: rest => if Nat.eqb call c then rest else (c, s) :: drop_call call rest
  end.

Fixpoint set_stage (call : nat) (s' : Stage) (l : list (nat * Stage)) : list (nat * Stage) :=
  match l with
  | [] => []
  | (c, s) :: rest => if Nat.eqb call c then (c, s') :: rest else (c, s) :: set_stage call s' rest
  end.

Definition finish (call : nat) (v : View) (p : Poller) : Poller :=
  {| view := v; cancelled := cancelled p; interval := interval p;
     in_flight := drop_call call (in_flight p); issued := issued p |}.

(** The [catch] block of [fetchStatus]. *)
Definition fetch_failed (call : nat) (p : Poller) : Poller :=
  if negb (cancelled p)
  then finish call {| status := status (view p); loading := false;
                      error := Some "Lost connection to device";
                      lastUpdated := lastUpdated (view p) |} p
  else finish call (view p) p.

(** What follows [await res.json()] in the [try] block. *)
Definition fetch_succeeded (call : nat) (data : JsValue) (clock : float) (p : Poller) : Poller :=
  if cancelled p then finish call (view p) p
  else finish call {| status := data; loading := false; error := None;
                      lastUpdated := Some clock |} p.

Definition poll_step (p : Poller) (ev : PollEvent) : Poller :=
  match ev with
  | Tick => if interval p then fetchStatus p else p
  | Teardown =>
      {| view := view p; cancelled := true; interval := false;
         in_flight := in_flight p; issued := issued p |}
  | FetchResolved call ok =>
      match stage_of call (in_flight p) with
      | Some Fetching =>
          if ok
          then {| view := view p; cancelled := cancelled p; interval := interval p;
                  in_flight := set_stage call Parsing (in_flight p); issued := issued p |}
          else fetch_failed call p
      | _ => p
      end
  | FetchRejected call =>
      match stage_of call (in_flight p) with
      | Some Fetching => fetch_failed call p
      | _ => p
      end
  | JsonResolved call data clock =>
      match stage_of call (in_flight p) with
      | Some Parsing => fetch_succeeded call data clock p
      | _ => p
      end
  | JsonRejected call =>
      match stage_of call (in_flight p) with
      | Some Parsing => fetch_failed call p
      | _ => p
      end
  end.

Definition poll_run (p : Poller) (evs : list PollEvent) : Poller :=
  fold_left poll_step evs p.

(** *** Control commands ([toggleLoad]) *)

(** Whether a property key is an array index: the decimal form of an
    integer below [2^32 - 1].  Such keys come first when an object's
    properties are enumerated, in ascending order. *)
Definition array_index (key : string) : option Z :=
  match StringToNumber.span_digits 10 key 0 0 with
  | (v, S _, EmptyString) =>
      if (String.eqb (Number.digits v) key && (v <? 2 ^ 32 - 1)%Z)%bool then Some v else None
  | _ => None
  end.

Fixpoint insert_index (i : Z) (key : string) (v : JsValue)
    (props : list (string * JsValue)) : list (string * JsValue) :=
  match props with
  | [] => [(key, v)]
  | (k, x) :: rest =>
      match array_index k with
      | Some j => if (j <? i)%Z then (k, x) :: insert_index i key v rest
                  else (key, v) :: props
      | None => (key, v) :: props
      end
  end.

Fixpoint replace_prop (key : string) (v : JsValue)
    (props : list (string * JsValue)) : list (string * JsValue) :=
  match props with
  | [] => []
  | (k, x) :: rest =>
      if String.eqb key k then (k, v) :: rest else (k, x) :: replace_prop key v rest
  end.

(** Defining property [key] in an object literal that already holds
    [props]: an existing property keeps its place, a new one goes among
    the array indices or after everything else. *)
Definition define_prop (key : string) (v : JsValue)
    (props : list (string * JsValue)) : list (string * JsValue) :=
  if has_key key props then replace_prop key v props
  else match array_index key with
       | Some i => insert_index i key v props
       | None => (props ++ [(key, v)])%list
       end.

(** [...v] in an object literal: the own enumerable properties, none for
    [null] and [undefined]. *)
Definition spread (v : JsValue) : list (string * JsValue) := own_props v.

(** [...container[key]] for a container that is neither [null] nor
    [undefined].  Only an own enumerable property can contribute: when the
    key resolves to nothing, to [length], or to a built-in inherited from
    a prototype, the spread copies no property. *)
Definition spread_at (container : JsValue) (key : string) : list (string * JsValue) :=
  match assoc key (own_props container) with
  | Some v => spread v
  | None => []
  end.

(** The updater [toggleLoad] passes to [setStatus], [flag] being
    [!currentOn]. *)
Definition toggle_updater (loadId : string) (flag : bool) (prev : JsValue) : Completion JsValue :=
  if negb (ToBoolean prev) then Normal prev
  else
    prev_loads <- Get prev "loads" ;;
    match prev_loads with
    | JUndefined | JNull => Throw TypeError
    | _ =>
        let load := JObj (define_prop "on" (JBool flag) (spread_at prev_loads loadId)) in
        let loads := JObj (define_prop loadId load (spread prev_loads)) in
        Normal (JObj (define_prop "loads" loads (spread prev)))
    end.

(** The request [toggleLoad] sends: none for the fan. *)
Record ControlRequest : Type := {
  request_loadId : string;
  request_on : bool
}.

Definition toggleLoad_request (loadId : string) (currentOn : JsValue) : option ControlRequest :=
  if String.eqb loadId "fan" then None
  else Some {| request_loadId := loadId; request_on := negb (ToBoolean currentOn) |}.

(** How the request ended: [fetch] resolved with [res.ok], or rejected. *)
Inductive ControlOutcome : Type :=
| ControlResolved (ok : bool)
| ControlRejected.

(** The view after [toggleLoad(loadId, currentOn)] has run to its end;
    [Throw] when the updater throws while React applies it. *)
Definition toggleLoad (loadId : string) (currentOn : JsValue)
    (outcome : ControlOutcome) (v : View) : Completion View :=
  match toggleLoad_request loadId currentOn with
  | None => Normal v
  | Some req =>
      match outcome with
      | ControlResolved true =>
          st <- toggle_updater loadId (request_on req) (status v) ;;
          Normal {| status := st; loading := loading v; error := None;
                    lastUpdated := lastUpdated v |}
      | _ =>
          Normal {| status := status v; loading := loading v;
                    error := Some "Failed to send command";
                    lastUpdated := lastUpdated v |}
      end
  end.

(** * Vocabulary of the properties *)

(** ** Binary64 numbers as reals

    The properties about magnitudes are stated over the real numbers: a
    finite double has a real value, and an operation returns the double
    nearest its exact result. *)

Module F64.

#[local] Open Scope R_scope.

Definition pow2 (e : Z) : R := powerRZ 2 e.

Definition F2R (m e : Z) : R := IZR m * pow2 e.

Definition middle (m e : Z) : R := (IZR m + / 2) * pow2 e.

(** Where [x] lies among the multiples of [2^e]: on [m * 2^e], or strictly
    between it and the next one, below, at or above the middle. *)
Definition located (x : R) (m e : Z) (l : location) : Prop :=
  match l with
  | loc_Exact => x = F2R m e
  | loc_Inexact c =>
      F2R m e < x < F2R (m + 1) e /\
      match c with
      | Lt => x < middle m e
      | Eq => x = middle m e
      | Gt => middle m e < x
      end
  end.

Definition located_rec (x : R) (e : Z) (mrs : shr_record) : Prop :=
  (0 <= shr_m mrs)%Z /\ located x (shr_m mrs) e (loc_of_shr_record mrs).

Definition SFR (f : spec_float) : R :=
  match f with
  | S754_finite s m e => if s then - F2R (Z.pos m) e else F2R (Z.pos m) e
  | _ => 0
  end.

Definition FinSF (f : spec_float) : Prop :=
  match f with
  | S754_zero _ | S754_finite _ _ _ => True
  | _ => False
  end.

(** [r] is a rounding of the real [x]: it is not NaN, no double lies
    strictly between [x] and [r], and when [r] is finite its error is at
    most [|x| * 2^-53], or [2^-1075] among the subnormals. *)
Definition rounds_to (x : R) (r : spec_float) : Prop :=
  r <> S754_nan /\
  (forall B, SpecFloat.valid_binary prec emax B = true -> FinSF B ->
             x <= SFR B -> SFleb r B = true) /\
  (forall B, SpecFloat.valid_binary prec emax B = true -> FinSF B ->
             SFR B <= x -> SFleb B r = true) /\
  (FinSF r -> Rabs (SFR r - x) <= Rmax (Rabs x * pow2 (-53)) (pow2 (-1075))).

(** The real value of a finite float ([0] for the others). *)
Definition val (x : float) : R := SFR (Prim2SF x).

Definition finite (x : float) : Prop := FinSF (Prim2SF x).

(** [0 <= x] as floats: [x] is a zero, a positive finite number or
    [+Infinity]. *)
Definition NonNegSF (f : spec_float) : Prop :=
  match f with
  | S754_zero _ | S754_finite false _ _ | S754_infinity false => True
  | _ => False
  end.

Definition nonneg (x : float) : Prop := PrimFloat.leb 0 x = true.

(** A draw of [Math.random()] lies in [[0, 1)]. *)
Definition unit_interval (r : float) : Prop :=
  PrimFloat.leb 0 r = true /\ PrimFloat.ltb r 1 = true.


End F64.

(** ** The simulation cycle *)

(** What a cycle does to one load: an off load is zeroed; an on load is
    advanced with one of the cycle's random draws. *)
Definition cycled (random : nat -> float) (l l' : Load) : Prop :=
  if on l then exists j, l' = reading_on (random j) l else l' = reading_off l.

(** The states a cycle has just produced: after a status poll, and after a
    control request that was applied. *)
Definition after_cycle (srv' : Server) : Prop :=
  exists now random srv,
    srv' = snd (get_status now random srv) \/
    exists body st, post_control now random body srv = (ControlOk st, srv').

(** The readings the simulator works with: a positive finite voltage, and
    a current and an energy that are zero, positive or [+Infinity]. *)
Definition plausible (l : Load) : Prop :=
  PrimFloat.is_finite (voltage_V l) = true /\
  PrimFloat.ltb 0 (voltage_V l) = true /\
  PrimFloat.leb 0 (current_A l) = true /\
  PrimFloat.leb 0 (energy_Wh l) = true.

(** The servers that can arise: started, then polled and commanded any
    number of times, every noise draw coming from [[0, 1)]. *)
Inductive reachable : Server -> Prop :=
| reach_boot (now : float) : reachable (boot now)
| reach_status (now : float) (random : nat -> float) (srv : Server) :
    reachable srv ->
    (forall k, F64.unit_interval (random k)) ->
    reachable (snd (get_status now random srv))
| reach_control (now : float) (random : nat -> float)
    (body : list (string * JsValue)) (srv : Server) :
    reachable srv ->
    (forall k, F64.unit_interval (random k)) ->
    reachable (snd (post_control now random body srv)).

Definition lamp_energy (st : DeviceState) : option spec_float :=
  option_map (fun l => Prim2SF (energy_Wh l)) (assoc "lamp" (loads st)).

(** ** The snapshot and its summary *)

(** The number a snapshot carries for a reading: the reading itself when
    it is finite ([-0] as [0]); a reading that is not finite travels as
    [null], which the sum counts as [0]. *)
Definition wire_number (x : float) : float :=
  match json_number x with
  | JNum y => y
  | _ => 0%float
  end.

Definition monitored (ls : list (string * Load)) : list (string * Load) :=
  filter (fun entry => negb (String.eqb (fst entry) "fan")) ls.

(** The sum of [power_W] over the given loads, in their order. *)
Definition sum_power (ls : list (string * Load)) : float :=
  fold_left (fun s entry => (s + wire_number (power_W (snd entry)))%float) ls 0%float.

Definition count_on (ls : list (string * Load)) : nat :=
  List.length (filter (fun entry => on (snd entry)) ls).


(** ** The client *)

(** Once the cleanup has run, the poller is quiescent: the flag is set and
    the timer is cleared. *)
Definition torn_down (p : Poller) : Prop :=
  cancelled p = true /\ interval p = false.

(** The [on] flag the view shows for a load. *)
Definition shown_flag (v : View) (loadId : string) : JsValue :=
  GetOpt (GetOpt (GetOpt (status v) "loads") loadId) "on".

(** ** The pie chart *)

(** A [power_W] as the server sends it: absent, [null], or a finite
    number. *)
Definition plain_power (p : JsValue) : Prop :=
  match p with
  | JUndefined | JNull => True
  | JNum n => PrimFloat.is_finite n = true
  | _ => False
  end.

(** What such a [power_W] contributes: the number itself when it is
    positive, and 0 otherwise. *)
Definition clamped (p : JsValue) : float :=
  match p with
  | JNum n => if PrimFloat.ltb 0 n then n else 0%float
  | _ => 0%float
  end.

(** The entries of a chart: every power is a finite number, not negative. *)
Definition clean (es : list Entry.t) : Prop :=
  forall e, In e es -> F64.finite (Entry.power e) /\ F64.nonneg (Entry.power e).

Definition sum_from (acc : float) (es : list Entry.t) : float :=
  fold_left (fun s e => (s + Entry.power e)%float) es acc.




(** ** Sample states and inputs *)

(** A state whose fan is running at 0.5 A: the cycle raises the alert. *)
Definition fan_running : DeviceState := {|
  timestamp := 1700000000;
  loads := [
    ("lamp", {| name := "Desk Lamp"; on := true; voltage_V := 120.0;
                current_A := 0.25; power_W := 30.0; energy_Wh := 12.5 |});
    ("fan", {| name := "Desk Fan"; on := true; voltage_V := 120.0;
               current_A := 0.5; power_W := 60.0; energy_Wh := 20.1 |})
  ];
  thresholds := {| highUsage_W := 50 |};
  alerts := [ {| Alert.type := "HIGH_USAGE"; Alert.loadId := "fan";
                 Alert.message := "Fan above 50 W"; Alert.timestamp := 1699999999 |} ]
|}.

(** A [Math.random()] that returns 0.5 at every call: no noise. *)
Definition steady (k : nat) : float := 0.5%float.

(** The largest value [Math.random()] can return, at every call. *)
Definition highest (k : nat) : float := 0x1.fffffffffffffp-1%float.

(** The server after its first status poll. *)
Definition first_poll : Server :=
  snd (get_status 1700000001000 steady (boot 1700000000000)).

Definition lamp_at_boot : Load :=
  {| name := "Desk Lamp"; on := true; voltage_V := 120.0;
     current_A := 0.25; power_W := 30.0; energy_Wh := 12.5 |}.

Definition lamp_after_first_poll : Load :=
  {| name := "Desk Lamp"; on := true; voltage_V := 120.0;
     current_A := 0.25; power_W := 30.0; energy_Wh := 12.508333333333333 |}.

(** The server after [n] status polls that all drew [highest]. *)
Definition polled (n : nat) : Server :=
  Nat.iter n (fun srv => snd (get_status 1700000000000 highest srv)) (boot 1700000000000).

(** The view of a client that has received the server's first snapshot. *)
Definition synced_view : View :=
  {| status := json_of_state (initial_state 1700000000000); loading := false;
     error := None; lastUpdated := Some 1700000000500%float |}.

Definition synced_loads : list (string * JsValue) :=
  map (fun '(id, l) => (id, json_of_load l)) (loads (initial_state 1700000000000)).


(** A lamp whose [power_W] is the string "abc". *)
Definition garbled_loads : list (string * JsValue) :=
  [("lamp", JObj [("name", JStr "Desk Lamp"); ("on", JBool true); ("power_W", JStr "abc")])].

(** ** Sample requests and states of the further properties *)

(** The body [{"loadId": "__proto__", "on": true}]. *)
Definition proto_request : list (string * JsValue) :=
  [("loadId", JStr "__proto__"); ("on", JBool true)].

(** The body [{"loadId": "fan", "on": true}]. *)
Definition fan_on_request : list (string * JsValue) :=
  [("loadId", JStr "fan"); ("on", JBool true)].

(** The server once the fan has been switched on and a poll has followed. *)
Definition fan_switched_on : Server :=
  snd (get_status 1700000002000 steady
         (snd (post_control 1700000001000 steady fan_on_request (boot 1700000000000)))).

(** A mounted client with two polls in flight, both waiting for their
    body: the one sent at mount, and the one sent at the first tick. *)
Definition two_polls_parsing : Poller :=
  poll_run (mount synced_view) [Tick; FetchResolved 0 true; FetchResolved 1 true].

(** ** The control exchange between client and server

    The body the server's [express.json()] parses from the text the client
    sends, [JSON.stringify({ loadId, on: !currentOn })]. *)
Definition request_body (req : ControlRequest) : list (string * JsValue) :=
  [("loadId", JStr (request_loadId req)); ("on", JBool (request_on req))].

(** [res.ok] of a response: the status is in the range 200-299. *)
Definition response_ok (r : Response) : bool :=
  match r with
  | StatusOk _ | ControlOk _ => true
  | BadRequest _ | InternalError _ => false
  end.

(** The charger as the server starts it. *)
Definition charger_at_boot : Load :=
  {| name := "Phone Charger"; on := true; voltage_V := 5.0;
     current_A := 1.2; power_W := 6.0; energy_Wh := 3.4 |}.

(** The chart's entries for the snapshot of the seed state. *)
Definition seed_entries : list Entry.t :=
  [{| Entry.id := "lamp"; Entry.name := JStr "Desk Lamp"; Entry.power := 30 |};
   {| Entry.id := "charger"; Entry.name := JStr "Phone Charger"; Entry.power := 6 |}].

(** ** What a load card shows ([renderLoadCard])

    The markup and the styles that do not depend on the data are constant;
    the model keeps what depends on the data: the texts, which elements
    are present, the conditions that choose a colour, and what a click
    calls.  The two characters of the markup outside U+0000..U+00FF are
    written as their UTF-8 bytes. *)

(** U+2022, the bullet of "AUTO (bullet) ON". *)
Definition bullet : string :=
  String (ascii_of_nat 226) (String (ascii_of_nat 128) (String (ascii_of_nat 162) "")).

(** U+26A0 U+FE0F, the warning sign. *)
Definition warning_sign : string :=
  String (ascii_of_nat 226) (String (ascii_of_nat 154) (String (ascii_of_nat 160)
    (String (ascii_of_nat 239) (String (ascii_of_nat 184) (String (ascii_of_nat 143) ""))))).

(** *** Number.prototype.toFixed

    [n] is the integer for which [n / 10^f] is nearest the value
    [m * 2^e], the larger one when two are as near. *)
Definition nearest_scaled (m : positive) (e f : Z) : Z :=
  if (0 <=? e)%Z then Z.pos m * 2 ^ e * 10 ^ f
  else (2 * Z.pos m * 10 ^ f + 2 ^ (- e)) / 2 ^ (1 - e).

(** The digits of [n] with a decimal point before the last [f]. *)
Definition fixed_point (n f : Z) : string :=
  let m := Number.digits n in
  if (f =? 0)%Z then m
  else
    let k := Z.of_nat (String.length m) in
    let m := if (k <=? f)%Z then Number.zeros (Z.to_nat (f + 1 - k)) ++ m else m in
    let k := if (k <=? f)%Z then (f + 1)%Z else k in
    Number.string_take (Z.to_nat (k - f)) m ++ "." ++ Number.string_drop (Z.to_nat (k - f)) m.

(** [x.toFixed(f)] for a Number [x] and [0 <= f <= 100]. *)
Definition toFixed (f : Z) (x : float) : string :=
  match Prim2SF x with
  | S754_finite s m e =>
      match Number.cmp_scaled (Z.pos m) e 1 21 with
      | Lt => (if s then "-" else "") ++ fixed_point (nearest_scaled m e f) f
      | _ => Number.toString x
      end
  | S754_zero _ => fixed_point 0 f
  | _ => Number.toString x
  end.

(** [v.toFixed(f)]: only a Number has the method. *)
Definition call_toFixed (v : JsValue) (f : Z) : Completion string :=
  match v with
  | JNum n => Normal (toFixed f n)
  | _ => Throw TypeError
  end.

(** [v?.toFixed(f)]. *)
Definition opt_toFixed (v : JsValue) (f : Z) : Completion JsValue :=
  match v with
  | JUndefined | JNull => Normal JUndefined
  | _ => s <- call_toFixed v f ;; Normal (JStr s)
  end.

(** The text React renders for a child that is a string or [undefined]. *)
Definition child_text (v : JsValue) : string :=
  match v with
  | JStr s => s
  | _ => ""
  end.

(** [p >= t] for a Number [p]: [t] is converted to a Number, and the
    comparison is false when either is [NaN]. *)
Definition number_ge (p : float) (t : JsValue) : Completion bool :=
  n <- ToNumber t ;; Normal (PrimFloat.leb n p).

(** *** The card *)

Record Button : Type := {
  button_label : string;
  click_loadId : string;        (* the call [toggleLoad(loadId, load.on)] *)
  click_currentOn : JsValue
}.

Inductive CardBody : Type :=
| FanDescription
| Readings (voltage current power energy : string) (highlighted : bool).

Record Card : Type := {
  card_key : string;
  card_title : JsValue;         (* [load.name], the child of the heading *)
  card_lit : bool;              (* [load.on] is truthy: green badge, red button *)
  card_badge : string;
  card_body : CardBody;
  card_note : option string;    (* "Above ... W threshold" *)
  card_button : option Button
}.

(** [renderLoadCard(loadId, load)], [thresholdW] being the value the
    summary computed. *)
Definition renderLoadCard (thresholdW : JsValue) (loadId : string) (load : JsValue)
    : Completion Card :=
  let isFan := String.eqb loadId "fan" in
  isHigh <- (if isFan then Normal false
             else match thresholdW with
                  | JUndefined | JNull => Normal false
                  | _ =>
                      p <- Get load "power_W" ;;
                      match p with
                      | JNum n => number_ge n thresholdW
                      | _ => Normal false
                      end
                  end) ;;
  nm <- Get load "name" ;;
  flag <- Get load "on" ;;
  let lit := ToBoolean flag in
  let badge :=
    if isFan then (if lit then "AUTO " ++ bullet ++ " ON" else "AUTO " ++ bullet ++ " OFF")
    else if lit then "ON" else "OFF" in
  body <- (if isFan then Normal FanDescription
           else
             v <- Get load "voltage_V" ;; vs <- opt_toFixed v 2 ;;
             c <- Get load "current_A" ;; cs <- opt_toFixed c 3 ;;
             p <- Get load "power_W" ;; ps <- opt_toFixed p 1 ;;
             e <- Get load "energy_Wh" ;; es <- opt_toFixed e 2 ;;
             Normal (Readings ("Voltage: " ++ child_text vs ++ " V")
                              ("Current: " ++ child_text cs ++ " A")
                              ("Power: " ++ child_text ps ++ " W "
                                 ++ (if isHigh then warning_sign else ""))
                              ("Energy: " ++ child_text es ++ " Wh")
                              isHigh)) ;;
  note <- (if (negb isFan && isHigh)%bool
           then t <- call_toFixed thresholdW 1 ;;
                Normal (Some ("Above " ++ t ++ " W threshold"))
           else Normal None) ;;
  Normal {| card_key := loadId; card_title := nm; card_lit := lit; card_badge := badge;
            card_body := body; card_note := note;
            card_button :=
              if isFan then None
              else Some {| button_label := if lit then "Turn OFF" else "Turn ON";
                           click_loadId := loadId; click_currentOn := flag |} |}.

(** The load cards: [status && status.loads &&
    Object.entries(status.loads).map(...)]; nothing is rendered when the
    condition is falsy. *)
Definition load_cards (thresholdW : JsValue) (status : JsValue) : Completion (list Card) :=
  if negb (ToBoolean status) then Normal []
  else
    loads <- Get status "loads" ;;
    if negb (ToBoolean loads) then Normal []
    else
      entries <- Object_entries loads ;;
      mapC (fun entry => renderLoadCard thresholdW (fst entry) (snd entry)) entries.

(** The three values of the summary row. *)
Definition summary_items (s : Summary) : Completion (string * string * string) :=
  total <- call_toFixed (totalPower s) 1 ;;
  threshold <- match thresholdW s with
               | JUndefined | JNull => Normal "Not set"
               | t => x <- call_toFixed t 1 ;; Normal (x ++ " W")
               end ;;
  Normal (total ++ " W",
          Number.digits (Z.of_nat (devicesOn s)) ++ " / "
            ++ Number.digits (Z.of_nat (totalDevices s)),
          threshold).

(** The card of the lamp as the server starts it. *)
Definition lamp_card : Card :=
  {| card_key := "lamp"; card_title := JStr "Desk Lamp"; card_lit := true;
     card_badge := "ON";
     card_body := Readings "Voltage: 120.00 V" "Current: 0.250 A" "Power: 30.0 W "
                           "Energy: 12.50 Wh" false;
     card_note := None;
     card_button := Some {| button_label := "Turn OFF"; click_loadId := "lamp";
                            click_currentOn := JBool true |} |}.

(** *** The alerts panel

    [truthy_length v] is the truthiness of [v?.length]: an array or a
    string has a non-zero length when it is not empty, an object has the
    length its own property gives, and other values have none. *)
Definition truthy_length (v : JsValue) : bool :=
  match v with
  | JUndefined | JNull => false
  | JArr elems => negb (Nat.eqb (List.length elems) 0)
  | JStr s => negb (String.eqb s "")
  | _ => ToBoolean (GetOpt v "length")
  end.

Record AlertItem : Type := {
  item_key : nat;               (* the index, the item's React key *)
  item_loadId : JsValue;        (* [a.loadId] *)
  item_message : JsValue;       (* [a.message] *)
  item_time : float             (* [a.timestamp * 1000], the time value of the [Date] shown *)
}.

Inductive AlertsPanel : Type :=
| NoActiveAlerts                (* "No active alerts. Your electrons are behaving." *)
| AlertList (items : list AlertItem).

(** [status.alerts.map((a, idx) => ...)]. *)
Fixpoint alert_items (idx : nat) (alerts : list JsValue) : Completion (list AlertItem) :=
  match alerts with
  | [] => Normal []
  | a :: rest =>
      id <- Get a "loadId" ;;
      msg <- Get a "message" ;;
      ts <- Get a "timestamp" ;;
      n <- ToNumber ts ;;
      items <- alert_items (S idx) rest ;;
      Normal ({| item_key := idx; item_loadId := id; item_message := msg;
                 item_time := (n * 1000)%float |} :: items)
  end.

(** [status?.alerts?.length ? <ul>...</ul> : <div>No active alerts...</div>]:
    only an array has [map]. *)
Definition alerts_panel (status : JsValue) : Completion AlertsPanel :=
  let alerts := GetOpt status "alerts" in
  if truthy_length alerts then
    match alerts with
    | JArr elems => items <- alert_items 0 elems ;; Normal (AlertList items)
    | _ => Throw TypeError
    end
  else Normal NoActiveAlerts.

(** * Properties *)

(** ** Binary64 facts

    The primitive operations are related to their specification
    ([SpecFloat]) by the equations of [FloatAxioms]; the facts below are
    proved on the specification. *)

Module F64Facts.
Import F64.

#[local] Open Scope R_scope.

Lemma SF_zero : Prim2SF 0%float = S754_zero false.
Proof. reflexivity. Qed.

Lemma SF_nan : Prim2SF PrimFloat.nan = S754_nan.
Proof. reflexivity. Qed.

Lemma SF_infinity : Prim2SF PrimFloat.infinity = S754_infinity false.
Proof. reflexivity. Qed.

Lemma is_nan_spec (x : float) :
  PrimFloat.is_nan x = match Prim2SF x with S754_nan => true | _ => false end.
Proof.
  unfold PrimFloat.is_nan. rewrite eqb_spec. unfold SFeqb.
  destruct (Prim2SF x) as [s|s| |s m e]; simpl.
  - reflexivity.
  - now destruct s.
  - reflexivity.
  - destruct s; rewrite Z.compare_refl, Pos.compare_cont_refl; reflexivity.
Qed.

Lemma is_infinity_spec (x : float) :
  PrimFloat.is_infinity x = match Prim2SF x with S754_infinity _ => true | _ => false end.
Proof.
  unfold PrimFloat.is_infinity. rewrite eqb_spec, abs_spec, SF_infinity.
  now destruct (Prim2SF x) as [s|s| |s m e].
Qed.

Lemma is_zero_spec (x : float) :
  PrimFloat.is_zero x = match Prim2SF x with S754_zero _ => true | _ => false end.
Proof.
  unfold PrimFloat.is_zero. rewrite eqb_spec. change (Prim2SF zero) with (S754_zero false).
  destruct (Prim2SF x) as [s|s| |s m e]; try reflexivity; now destruct s.
Qed.

Lemma is_finite_spec (x : float) :
  PrimFloat.is_finite x =
  match Prim2SF x with S754_zero _ | S754_finite _ _ _ => true | _ => false end.
Proof.
  unfold PrimFloat.is_finite. rewrite is_nan_spec, is_infinity_spec.
  now destruct (Prim2SF x).
Qed.

(** A float is determined by its specification value. *)
Lemma SF_inj (x y : float) : Prim2SF x = Prim2SF y -> x = y.
Proof.
  intros H. rewrite <- (SF2Prim_Prim2SF x), <- (SF2Prim_Prim2SF y). now rewrite H.
Qed.

(** [x - x] is [+0] for a finite [x]. *)
Lemma sub_diag (x : float) :
  PrimFloat.is_finite x = true -> (x - x)%float = 0%float.
Proof.
  rewrite is_finite_spec. intros Hfin. apply SF_inj.
  rewrite sub_spec, SF_zero. unfold SF64sub.
  destruct (Prim2SF x) as [s|s| |s m e]; try discriminate.
  - now destruct s.
  - unfold SFsub. now rewrite Z.sub_diag.
Qed.

Lemma ltb_nan_l (y : float) : PrimFloat.ltb PrimFloat.nan y = false.
Proof. rewrite ltb_spec, SF_nan. reflexivity. Qed.

Lemma pow2_pos (e : Z) : 0 < pow2 e.
Proof. apply powerRZ_lt. lra. Qed.

Lemma pow2_add (a b : Z) : pow2 (a + b) = pow2 a * pow2 b.
Proof. apply powerRZ_add. lra. Qed.

Lemma pow2_0 : pow2 0 = 1.
Proof. reflexivity. Qed.

Lemma pow2_1 : pow2 1 = 2.
Proof. unfold pow2. simpl. lra. Qed.

Lemma pow2_succ (e : Z) : pow2 (e + 1) = 2 * pow2 e.
Proof. rewrite pow2_add, pow2_1. lra. Qed.

Lemma pow2_pred (e : Z) : pow2 e = 2 * pow2 (e - 1).
Proof. rewrite <- pow2_succ. f_equal. lia. Qed.

Lemma pow2_IZR (n : Z) : (0 <= n)%Z -> pow2 n = IZR (2 ^ n).
Proof.
  intros Hn. rewrite <- (Z2Nat.id n Hn) at 2. rewrite <- pow_IZR.
  unfold pow2. rewrite <- (Z2Nat.id n Hn) at 1. now rewrite <- pow_powerRZ.
Qed.

Lemma pow2_ge_1 (n : Z) : (0 <= n)%Z -> 1 <= pow2 n.
Proof.
  intros Hn. rewrite (pow2_IZR n Hn). apply IZR_le.
  pose proof (Z.pow_pos_nonneg 2 n). lia.
Qed.

Lemma pow2_le (a b : Z) : (a <= b)%Z -> pow2 a <= pow2 b.
Proof.
  intros H. assert (H1 : 1 <= pow2 (b - a)) by (apply pow2_ge_1; lia).
  replace b with (a + (b - a))%Z by lia. rewrite pow2_add.
  pose proof (pow2_pos a). nra.
Qed.

Lemma pow2_lt (a b : Z) : (a < b)%Z -> pow2 a < pow2 b.
Proof.
  intros H. assert (H1 : 1 <= pow2 (b - a - 1)) by (apply pow2_ge_1; lia).
  replace b with ((a + 1) + (b - a - 1))%Z by lia.
  rewrite pow2_add, pow2_succ.
  pose proof (pow2_pos a). nra.
Qed.

Lemma pow2_lt_inv (a b : Z) : pow2 a < pow2 b -> (a < b)%Z.
Proof.
  intros H. destruct (Z_lt_le_dec a b) as [Hlt|Hle]; [exact Hlt|].
  pose proof (pow2_le _ _ Hle). lra.
Qed.

Lemma F2R_le (m1 m2 e : Z) : (m1 <= m2)%Z -> F2R m1 e <= F2R m2 e.
Proof.
  intros H. unfold F2R. apply IZR_le in H. pose proof (pow2_pos e). nra.
Qed.

Lemma F2R_lt (m1 m2 e : Z) : (m1 < m2)%Z -> F2R m1 e < F2R m2 e.
Proof.
  intros H. unfold F2R. apply IZR_lt in H. pose proof (pow2_pos e). nra.
Qed.

Lemma F2R_le_inv (m1 m2 e : Z) : F2R m1 e <= F2R m2 e -> (m1 <= m2)%Z.
Proof.
  intros H. destruct (Z_lt_le_dec m2 m1) as [Hlt|Hle]; [|exact Hle].
  pose proof (F2R_lt _ _ e Hlt). lra.
Qed.

Lemma F2R_lt_inv (m1 m2 e : Z) : F2R m1 e < F2R m2 e -> (m1 < m2)%Z.
Proof.
  intros H. destruct (Z_lt_le_dec m1 m2) as [Hlt|Hle]; [exact Hlt|].
  pose proof (F2R_le _ _ e Hle). lra.
Qed.

(** Moving the exponent: [m * 2^k] at exponent [e] is [m] at [e + k]. *)
Lemma F2R_shift (m e k : Z) : (0 <= k)%Z -> F2R (m * 2 ^ k) e = F2R m (e + k).
Proof.
  intros Hk. unfold F2R. rewrite mult_IZR, <- (pow2_IZR k Hk), pow2_add. ring.
Qed.

(** *** The number of binary digits *)

Lemma digits2_size (p : positive) : digits2_pos p = Pos.size p.
Proof. induction p; simpl; now rewrite ?IHp. Qed.

Lemma digits2_bounds (p : positive) :
  (2 ^ (Z.pos (digits2_pos p) - 1) <= Z.pos p < 2 ^ Z.pos (digits2_pos p))%Z.
Proof.
  rewrite digits2_size. split.
  - pose proof (Pos.size_le p) as H.
    assert (H' : (2 ^ Z.pos (Pos.size p) <= 2 * Z.pos p)%Z).
    { rewrite <- Pos2Z.inj_pow. change (2 * Z.pos p)%Z with (Z.pos p~0). now apply Pos2Z.pos_le_pos. }
    replace (Z.pos (Pos.size p)) with (Z.pos (Pos.size p) - 1 + 1)%Z in H' by lia.
    rewrite Z.pow_add_r in H' by lia. lia.
  - pose proof (Pos.size_gt p) as H. rewrite <- Pos2Z.inj_pow. now apply Pos2Z.pos_lt_pos.
Qed.

Lemma digits2_bounds_R (p : positive) (e : Z) :
  pow2 (Z.pos (digits2_pos p) + e - 1) <= F2R (Z.pos p) e < pow2 (Z.pos (digits2_pos p) + e).
Proof.
  destruct (digits2_bounds p) as [Hlo Hhi].
  apply IZR_le in Hlo. apply IZR_lt in Hhi.
  rewrite <- pow2_IZR in Hlo, Hhi by lia.
  unfold F2R. replace (Z.pos (digits2_pos p) + e - 1)%Z with ((Z.pos (digits2_pos p) - 1) + e)%Z by lia.
  rewrite !pow2_add. pose proof (pow2_pos e). split; nra.
Qed.

(** *** Locations

    [located x m e l]: the real [x] lies in [[m * 2^e, (m+1) * 2^e)] at
    the place [l] says: on the lower end, or strictly inside and below,
    at, or above the middle. *)

Lemma located_rec_of_loc (x : R) (m e : Z) (l : location) :
  (0 <= m)%Z -> located x m e l -> located_rec x e (shr_record_of_loc m l).
Proof.
  intros Hm Hl. unfold located_rec. destruct l as [|[| |]]; simpl; auto.
Qed.

Lemma IZR_xO (p : positive) : IZR (Z.pos p~0) = 2 * IZR (Z.pos p).
Proof. now rewrite Pos2Z.inj_xO, mult_IZR. Qed.

Lemma IZR_xI (p : positive) : IZR (Z.pos p~1) = 2 * IZR (Z.pos p) + 1.
Proof. now rewrite Pos2Z.inj_xI, plus_IZR, mult_IZR. Qed.

Lemma shr_1_located (x : R) (e : Z) (mrs : shr_record) :
  located_rec x e mrs -> located_rec x (e + 1) (shr_1 mrs).
Proof.
  destruct mrs as [m r s]. unfold located_rec. cbn [shr_m].
  intros [Hm Hl]. pose proof (pow2_pos e) as HP.
  destruct m as [|[p|p|]|p]; try lia;
    destruct r, s; cbn [shr_1 orb shr_m loc_of_shr_record located] in *;
    (split; [lia|]);
    unfold F2R, middle in *; rewrite ?pow2_succ;
    rewrite ?plus_IZR in *;
    try rewrite (IZR_xO p) in *; try rewrite (IZR_xI p) in *;
    repeat split; try lra; try nra.
Qed.

Lemma iter_shr_located (x : R) (p : positive) :
  forall (e : Z) (mrs : shr_record),
    located_rec x e mrs -> located_rec x (e + Z.pos p) (iter_pos shr_1 p mrs).
Proof.
  induction p as [p IH|p IH|]; intros e mrs H; cbn [iter_pos].
  - apply shr_1_located in H. apply IH in H. apply IH in H.
    replace (e + Z.pos p~1)%Z with (e + 1 + Z.pos p + Z.pos p)%Z by lia. exact H.
  - apply IH in H. apply IH in H.
    replace (e + Z.pos p~0)%Z with (e + Z.pos p + Z.pos p)%Z by lia. exact H.
  - now apply shr_1_located.
Qed.

Lemma shr_located (x : R) (e n : Z) (mrs : shr_record) :
  (0 <= n)%Z ->
  located_rec x e mrs ->
  located_rec x (e + n) (fst (shr mrs e n)) /\ snd (shr mrs e n) = (e + n)%Z.
Proof.
  intros Hn H. destruct n as [|p|p]; try lia; cbn [shr fst snd].
  - rewrite Z.add_0_r. auto.
  - split; [now apply iter_shr_located|reflexivity].
Qed.

#[local] Notation "'fexp64'" := (fexp prec emax).

Lemma fexp64_eq (e : Z) : fexp64 e = Z.max (e - 53) (-1074).
Proof. reflexivity. Qed.

Lemma fexp64_mono (a b : Z) : (a <= b)%Z -> (fexp64 a <= fexp64 b)%Z.
Proof. rewrite !fexp64_eq. lia. Qed.

Lemma F2R_pow2 (n e : Z) : (0 <= n)%Z -> F2R (2 ^ n) e = pow2 (e + n).
Proof.
  intros Hn. replace (2 ^ n)%Z with (1 * 2 ^ n)%Z by lia.
  rewrite F2R_shift by lia. unfold F2R. ring.
Qed.

(** *** Rounding to nearest, ties to even *)

Lemma round_nearest_even_spec (x : R) (m e : Z) (l : location) :
  located x m e l ->
  let m1 := round_nearest_even m l in
  (m <= m1 <= m + 1)%Z /\
  Rabs (F2R m1 e - x) <= pow2 e / 2 /\
  (forall k : Z, x <= F2R k e -> (m1 <= k)%Z) /\
  (forall k : Z, F2R k e <= x -> (k <= m1)%Z).
Proof.
  intros Hl. cbv zeta. pose proof (pow2_pos e) as HP.
  assert (Hup : forall k, F2R m e < x -> x <= F2R k e -> (m + 1 <= k)%Z).
  { intros k H1 H2. assert (F2R m e < F2R k e) by lra.
    apply F2R_lt_inv in H. lia. }
  assert (Hlo : forall k, x < F2R (m + 1) e -> F2R k e <= x -> (k <= m)%Z).
  { intros k H1 H2. assert (F2R k e < F2R (m + 1) e) by lra.
    apply F2R_lt_inv in H. lia. }
  assert (Hnext : F2R (m + 1) e = F2R m e + pow2 e).
  { unfold F2R. rewrite plus_IZR. ring. }
  assert (Hmid : middle m e = F2R m e + pow2 e / 2).
  { unfold middle, F2R. field. }
  destruct l as [|c]; cbn [located round_nearest_even] in *.
  - subst x. split; [lia|]. split; [|split].
    + replace (F2R m e - F2R m e) with 0 by ring. rewrite Rabs_R0. lra.
    + intros k Hk. now apply F2R_le_inv in Hk.
    + intros k Hk. now apply F2R_le_inv in Hk.
  - destruct Hl as [[H1 H2] Hc].
    destruct c.
    + (* tie *)
      destruct (Z.even m); (split; [lia|]); (split; [|split]).
      * rewrite Hc, Hmid. replace (F2R m e - (F2R m e + pow2 e / 2)) with (- (pow2 e / 2)) by ring.
        rewrite Rabs_Ropp, Rabs_pos_eq; lra.
      * intros k Hk. specialize (Hup k H1 Hk). lia.
      * intros k Hk. specialize (Hlo k H2 Hk). lia.
      * rewrite Hc, Hmid, Hnext.
        replace (F2R m e + pow2 e - (F2R m e + pow2 e / 2)) with (pow2 e / 2) by field.
        rewrite Rabs_pos_eq; lra.
      * intros k Hk. specialize (Hup k H1 Hk). lia.
      * intros k Hk. specialize (Hlo k H2 Hk). lia.
    + split; [lia|]. split; [|split].
      * rewrite Hmid in Hc. rewrite Rabs_left1; lra.
      * intros k Hk. specialize (Hup k H1 Hk). lia.
      * intros k Hk. specialize (Hlo k H2 Hk). lia.
    + split; [lia|]. split; [|split].
      * rewrite Hmid in Hc. rewrite Hnext. rewrite Rabs_pos_eq; lra.
      * intros k Hk. specialize (Hup k H1 Hk). lia.
      * intros k Hk. specialize (Hlo k H2 Hk). lia.
Qed.

Lemma Zdigits2_pos_le (m : positive) (n : Z) :
  (Z.pos m < 2 ^ n)%Z -> (0 <= n)%Z -> (Z.pos (digits2_pos m) <= n)%Z.
Proof.
  intros Hm Hn. destruct (digits2_bounds m) as [Hlo _].
  destruct (Z_le_gt_dec (Z.pos (digits2_pos m)) n) as [H|H]; [exact H|].
  assert (2 ^ n <= 2 ^ (Z.pos (digits2_pos m) - 1))%Z by (apply Z.pow_le_mono_r; lia).
  lia.
Qed.

(** The second shift of [binary_round_aux]: it acts only when rounding
    has carried into a 54th digit, and then it loses nothing. *)
Lemma renormalize (m1 e' : Z) :
  (0 <= m1 <= 2 ^ 53)%Z -> (-1074 <= e')%Z ->
  exists m'' e'',
    shr_fexp prec emax m1 e' loc_Exact = ({| shr_m := m''; shr_r := false; shr_s := false |}, e'') /\
    F2R m'' e'' = F2R m1 e' /\
    (0 <= m'')%Z /\ (m1 = 0%Z <-> m'' = 0%Z) /\
    (e' <= e'' <= e' + 1)%Z /\
    (e'' = (e' + 1)%Z -> m'' = (2 ^ 52)%Z).
Proof.
  intros [Hm0 Hm1] He. unfold shr_fexp. cbn [shr_record_of_loc].
  destruct (Z.eq_dec m1 (2 ^ 53)) as [->|Hne].
  - exists (2 ^ 52)%Z, (e' + 1)%Z.
    replace (fexp64 (Zdigits2 (2 ^ 53) + e') - e')%Z with 1%Z
      by (change (Zdigits2 (2 ^ 53)) with 54%Z; rewrite fexp64_eq; lia).
    split; [reflexivity|]. split.
    + rewrite <- F2R_shift by lia. f_equal.
    + repeat split; try lia.
  - exists m1, e'. 
    assert (Hn : (fexp64 (Zdigits2 m1 + e') - e' <= 0)%Z).
    { rewrite fexp64_eq. destruct m1 as [|p|p]; try lia.
      - cbn [Zdigits2]. lia.
      - cbn [Zdigits2]. assert (Z.pos (digits2_pos p) <= 53)%Z by (apply Zdigits2_pos_le; lia). lia. }
    split.
    + unfold shr. destruct (fexp64 (Zdigits2 m1 + e') - e')%Z; try reflexivity. lia.
    + repeat split; try lia.
Qed.

Lemma canonical_bounds (m : positive) (e : Z) :
  fexp64 (Z.pos (digits2_pos m) + e) = e ->
  F2R (Z.pos m) e < pow2 (e + 53) /\
  ((-1074 < e)%Z -> pow2 (e + 52) <= F2R (Z.pos m) e).
Proof.
  rewrite fexp64_eq. intros Hc.
  destruct (digits2_bounds_R m e) as [Hlo Hhi]. split.
  - eapply Rlt_le_trans; [exact Hhi|]. apply pow2_le. lia.
  - intros He. eapply Rle_trans; [|exact Hlo]. apply pow2_le. lia.
Qed.

(** What [binary_round_aux] returns, when its input locates a positive
    real [x] and carries at least the digits the format keeps: the
    multiple [m1 * 2^e'] of the unit in the last place that is nearest to
    [x].  No multiple of that unit lies strictly between [x] and the
    result. *)
Lemma binary_round_aux_spec (x : R) (sx : bool) (mx : Z) (ex : Z) (lx : location) :
  (0 <= mx)%Z ->
  located x mx ex lx ->
  (ex <= fexp64 (Zdigits2 mx + ex))%Z ->
  let e' := fexp64 (Zdigits2 mx + ex) in
  let r := binary_round_aux prec emax sx mx ex lx in
  exists m1 : Z,
    (0 <= m1 <= 2 ^ 53)%Z /\
    Rabs (F2R m1 e' - x) <= pow2 e' / 2 /\
    Rabs (F2R m1 e' - x) <= Rmax (x * pow2 (-53)) (pow2 (-1075)) /\
    (forall k : Z, x <= F2R k e' -> (m1 <= k)%Z) /\
    (forall k : Z, F2R k e' <= x -> (k <= m1)%Z) /\
    (forall (mb : positive) (eb : Z),
        fexp64 (Z.pos (digits2_pos mb) + eb) = eb ->
        x <= F2R (Z.pos mb) eb -> F2R m1 e' <= F2R (Z.pos mb) eb) /\
    (forall (mb : positive) (eb : Z),
        fexp64 (Z.pos (digits2_pos mb) + eb) = eb ->
        F2R (Z.pos mb) eb <= x -> F2R (Z.pos mb) eb <= F2R m1 e') /\
    ((m1 = 0%Z /\ r = S754_zero sx) \/
     ((0 < m1)%Z /\ r = S754_infinity sx /\ pow2 1024 <= F2R m1 e') \/
     (exists m e, r = S754_finite sx m e /\ F2R (Z.pos m) e = F2R m1 e' /\ (e <= 971)%Z)).
Proof.
  intros Hmx Hl Hn. cbv zeta.
  set (e' := fexp64 (Zdigits2 mx + ex)).
  assert (He' : (-1074 <= e')%Z) by (subst e'; rewrite fexp64_eq; lia).
  assert (Hx : F2R mx ex <= x < F2R (mx + 1) ex).
  { destruct lx as [|c]; cbn [located] in Hl.
    - subst x. split; [lra|]. apply F2R_lt. lia.
    - destruct Hl as [[H1 H2] _]. lra. }
  assert (Hx0 : 0 <= x).
  { eapply Rle_trans; [|exact (proj1 Hx)]. unfold F2R.
    apply Rmult_le_pos; [apply IZR_le; lia|]. pose proof (pow2_pos ex). lra. }
  assert (Hxhi : x < pow2 (Zdigits2 mx + ex)).
  { destruct Hx as [_ Hx]. eapply Rlt_le_trans; [exact Hx|].
    destruct mx as [|p|p]; try lia.
    - cbn [Zdigits2]. unfold F2R. replace (0 + 1)%Z with 1%Z by lia.
      replace (0 + ex)%Z with ex by lia. lra.
    - cbn [Zdigits2]. destruct (digits2_bounds p) as [_ Hb].
      replace (Z.pos (digits2_pos p) + ex)%Z with (ex + Z.pos (digits2_pos p))%Z by lia.
      rewrite <- F2R_pow2 by lia. apply F2R_le. lia. }
  assert (Hnormal : (-1074 < e')%Z -> pow2 (e' + 52) <= x).
  { intros Hgt. destruct mx as [|p|p]; try lia.
    - exfalso. subst e'. cbn [Zdigits2] in *. rewrite fexp64_eq in *. lia.
    - destruct (digits2_bounds_R p ex) as [Hdlo _].
      eapply Rle_trans; [|exact (proj1 Hx)].
      eapply Rle_trans; [|exact Hdlo]. apply pow2_le.
      subst e'. cbn [Zdigits2] in *. rewrite fexp64_eq in *. lia. }
  pose proof (shr_located x ex (e' - ex) (shr_record_of_loc mx lx)) as Hs.
  assert (Hrec : located_rec x ex (shr_record_of_loc mx lx))
    by (apply located_rec_of_loc; [lia|exact Hl]).
  specialize (Hs ltac:(lia) Hrec).
  destruct (shr (shr_record_of_loc mx lx) ex (e' - ex)) as [mrs' e1] eqn:Eshr.
  cbn [fst snd] in Hs. destruct Hs as [[Hm' Hloc] He1].
  replace (ex + (e' - ex))%Z with e' in * by lia. subst e1.
  pose proof (round_nearest_even_spec x (shr_m mrs') e' (loc_of_shr_record mrs') Hloc) as Hr.
  cbv zeta in Hr. set (m1 := round_nearest_even (shr_m mrs') (loc_of_shr_record mrs')) in *.
  destruct Hr as (Hm1 & Herr & Hup & Hlo).
  assert (Hm'hi : (shr_m mrs' < 2 ^ 53)%Z).
  { assert (Hle : F2R (shr_m mrs') e' <= x).
    { destruct (loc_of_shr_record mrs') as [|c]; cbn [located] in Hloc; [lra|].
      destruct Hloc as [[H1 _] _]. lra. }
    assert (Hp : pow2 (Zdigits2 mx + ex) <= pow2 (e' + 53)).
    { apply pow2_le. subst e'. rewrite fexp64_eq. lia. }
    assert (Hlt : F2R (shr_m mrs') e' < F2R (2 ^ 53) e').
    { rewrite F2R_pow2 by lia. lra. }
    now apply F2R_lt_inv in Hlt. }
  destruct (renormalize m1 e' ltac:(lia) He') as (m'' & e'' & Hre & Hval & Hm''0 & Hzero & He'' & Hcarry).
  assert (Heq : binary_round_aux prec emax sx mx ex lx =
                match m'' with
                | 0%Z => S754_zero sx
                | Z.pos m => if (e'' <=? 971)%Z then S754_finite sx m e'' else S754_infinity sx
                | Z.neg _ => S754_nan
                end).
  { unfold binary_round_aux, shr_fexp at 1. fold e'. rewrite Eshr.
    fold m1. rewrite Hre. reflexivity. }
  rewrite Heq. clear Heq.
  exists m1. split; [lia|]. split; [exact Herr|].
  split.
  { eapply Rle_trans; [exact Herr|].
    destruct (Z.eq_dec e' (-1074)) as [E|E].
    - rewrite E. eapply Rle_trans; [|apply Rmax_r].
      rewrite (pow2_pred (-1074)). simpl (-1074 - 1)%Z. lra.
    - eapply Rle_trans; [|apply Rmax_l].
      specialize (Hnormal ltac:(lia)).
      replace (e' + 52)%Z with (e' + 53 - 1)%Z in Hnormal by lia.
      assert (Hp : pow2 e' = pow2 (e' + 53 - 1) * (2 * pow2 (-53))).
      { rewrite <- pow2_succ, <- pow2_add. f_equal. lia. }
      rewrite Hp. pose proof (pow2_pos (-53)). pose proof (pow2_pos (e' + 53 - 1)). nra. }
  split; [exact Hup|]. split; [exact Hlo|].
  split.
  { intros mb eb Hcan Hle. destruct (Z_le_gt_dec e' eb) as [Hee|Hee].
    - replace eb with (e' + (eb - e'))%Z by lia. rewrite <- F2R_shift by lia.
      apply F2R_le. apply Hup.
      rewrite F2R_shift by lia. replace (e' + (eb - e'))%Z with eb by lia. exact Hle.
    - exfalso. destruct (canonical_bounds mb eb Hcan) as [Hbhi _].
      assert (Heb : (-1074 <= eb)%Z) by (rewrite fexp64_eq in Hcan; lia).
      specialize (Hnormal ltac:(lia)).
      assert (pow2 (eb + 53) <= pow2 (e' + 52)) by (apply pow2_le; lia). lra. }
  split.
  { intros mb eb Hcan Hle. destruct (Z_le_gt_dec e' eb) as [Hee|Hee].
    - replace eb with (e' + (eb - e'))%Z by lia. rewrite <- F2R_shift by lia.
      apply F2R_le. apply Hlo.
      rewrite F2R_shift by lia. replace (e' + (eb - e'))%Z with eb by lia. exact Hle.
    - destruct (canonical_bounds mb eb Hcan) as [Hbhi _].
      assert (Heb : (-1074 <= eb)%Z) by (rewrite fexp64_eq in Hcan; lia).
      specialize (Hnormal ltac:(lia)).
      assert (Hbig : (2 ^ 52 <= m1)%Z) by (apply Hlo; rewrite F2R_pow2 by lia; exact Hnormal).
      apply (F2R_le _ _ e') in Hbig. rewrite F2R_pow2 in Hbig by lia.
      assert (pow2 (eb + 53) <= pow2 (e' + 52)) by (apply pow2_le; lia). lra. }
  destruct m'' as [|p|p]; try lia.
  - left. split; [now apply Hzero|reflexivity].
  - right. assert (Hm1pos : (0 < m1)%Z).
    { destruct (Z.eq_dec m1 0) as [E|E]; [|lia]. apply Hzero in E. discriminate. }
    destruct (Z.leb_spec e'' 971) as [Hfin|Hover].
    + right. exists p, e''. auto.
    + left. split; [exact Hm1pos|]. split; [reflexivity|].
      rewrite <- Hval.
      (* the mantissa has 53 digits: the exponent is above the minimum *)
      assert (Hbig : (2 ^ 52 <= m1)%Z).
      { apply Hlo. rewrite F2R_pow2 by lia. apply Hnormal. lia. }
      assert (Hp52 : (2 ^ 52 <= Z.pos p)%Z).
      { destruct (Z.eq_dec e'' (e' + 1)) as [E|E].
        - rewrite (Hcarry E). lia.
        - assert (e'' = e') by lia. subst e''. apply F2R_le_inv with (e := e').
          rewrite Hval. now apply F2R_le. }
      eapply Rle_trans; [|apply (F2R_le (2 ^ 52) (Z.pos p) e'' Hp52)].
      rewrite F2R_pow2 by lia. apply pow2_le. lia.
Qed.

(** *** Valid floats and their order *)

#[local] Notation "'valid64'" := (SpecFloat.valid_binary prec emax).

Lemma valid_finite (s : bool) (m : positive) (e : Z) :
  valid64 (S754_finite s m e) = true ->
  fexp64 (Z.pos (digits2_pos m) + e) = e /\ (e <= 971)%Z.
Proof.
  cbn [valid_binary]. unfold bounded, canonical_mantissa.
  intros H. apply andb_prop in H. destruct H as [H1 H2].
  apply Z.eqb_eq in H1. apply Z.leb_le in H2. split; [exact H1|exact H2].
Qed.

Lemma canonical_lt (m1 m2 : positive) (e1 e2 : Z) :
  fexp64 (Z.pos (digits2_pos m1) + e1) = e1 ->
  fexp64 (Z.pos (digits2_pos m2) + e2) = e2 ->
  (e1 < e2)%Z -> F2R (Z.pos m1) e1 < F2R (Z.pos m2) e2.
Proof.
  intros H1 H2 Hlt.
  destruct (canonical_bounds m1 e1 H1) as [Hhi _].
  destruct (canonical_bounds m2 e2 H2) as [_ Hlo].
  assert (He1 : (-1074 <= e1)%Z) by (rewrite fexp64_eq in H1; lia).
  specialize (Hlo ltac:(lia)).
  assert (pow2 (e1 + 53) <= pow2 (e2 + 52)) by (apply pow2_le; lia). lra.
Qed.

Lemma F2R_pos_pos (m : positive) (e : Z) : 0 < F2R (Z.pos m) e.
Proof.
  unfold F2R. apply Rmult_lt_0_compat; [apply IZR_lt; lia|apply pow2_pos].
Qed.

Lemma compare_canonical (m1 m2 : positive) (e1 e2 : Z) :
  fexp64 (Z.pos (digits2_pos m1) + e1) = e1 ->
  fexp64 (Z.pos (digits2_pos m2) + e2) = e2 ->
  match (match (e1 ?= e2)%Z with
         | Lt => Lt
         | Gt => Gt
         | Eq => Pos.compare_cont Eq m1 m2
         end) with
  | Lt => F2R (Z.pos m1) e1 < F2R (Z.pos m2) e2
  | Eq => F2R (Z.pos m1) e1 = F2R (Z.pos m2) e2
  | Gt => F2R (Z.pos m2) e2 < F2R (Z.pos m1) e1
  end.
Proof.
  intros H1 H2. destruct (Z.compare_spec e1 e2) as [->|Hlt|Hgt].
  - change (Pos.compare_cont Eq m1 m2) with (Pos.compare m1 m2).
    destruct (Pos.compare_spec m1 m2) as [->|Hm|Hm].
    + reflexivity.
    + apply F2R_lt. lia.
    + apply F2R_lt. lia.
  - now apply canonical_lt.
  - now apply canonical_lt.
Qed.

Lemma SFcompare_spec (a b : spec_float) :
  valid64 a = true -> valid64 b = true -> FinSF a -> FinSF b ->
  match SFcompare a b with
  | Some Lt => SFR a < SFR b
  | Some Eq => SFR a = SFR b
  | Some Gt => SFR b < SFR a
  | None => False
  end.
Proof.
  intros Va Vb Fa Fb.
  destruct a as [sa|sa| |sa ma ea]; try contradiction;
  destruct b as [sb|sb| |sb mb eb]; try contradiction; cbn [SFcompare SFR].
  - reflexivity.
  - pose proof (F2R_pos_pos mb eb). destruct sb; lra.
  - pose proof (F2R_pos_pos ma ea). destruct sa; lra.
  - destruct (valid_finite _ _ _ Va) as [Ca _]. destruct (valid_finite _ _ _ Vb) as [Cb _].
    pose proof (F2R_pos_pos ma ea). pose proof (F2R_pos_pos mb eb).
    pose proof (compare_canonical ma mb ea eb Ca Cb) as Hc.
    destruct sa, sb; try lra.
    + destruct (match (ea ?= eb)%Z with Lt => Lt | Gt => Gt | Eq => Pos.compare_cont Eq ma mb end)
        eqn:E; rewrite ?E.
      * destruct (ea ?= eb)%Z; try discriminate. rewrite E. cbn. lra.
      * destruct (ea ?= eb)%Z; [rewrite E; cbn; lra| lra | discriminate].
      * destruct (ea ?= eb)%Z; [rewrite E; cbn; lra| discriminate | lra].
    + exact Hc.
Qed.

Lemma SFleb_iff (a b : spec_float) :
  valid64 a = true -> valid64 b = true -> FinSF a -> FinSF b ->
  (SFleb a b = true <-> SFR a <= SFR b).
Proof.
  intros Va Vb Fa Fb. pose proof (SFcompare_spec a b Va Vb Fa Fb) as H.
  unfold SFleb. destruct (SFcompare a b) as [[| |]|]; try contradiction;
    split; intros; try reflexivity; try lra; try discriminate.
Qed.

Lemma SFltb_iff (a b : spec_float) :
  valid64 a = true -> valid64 b = true -> FinSF a -> FinSF b ->
  (SFltb a b = true <-> SFR a < SFR b).
Proof.
  intros Va Vb Fa Fb. pose proof (SFcompare_spec a b Va Vb Fa Fb) as H.
  unfold SFltb. destruct (SFcompare a b) as [[| |]|]; try contradiction;
    split; intros; try reflexivity; try lra; try discriminate.
Qed.

(** Between two finite floats there are only finite floats. *)
Lemma SFleb_between (a r b : spec_float) :
  FinSF a -> FinSF b -> SFleb a r = true -> SFleb r b = true -> FinSF r.
Proof.
  intros Fa Fb. unfold SFleb.
  destruct r as [sr|sr| |sr mr er]; cbn [FinSF]; trivial.
  - destruct a as [sa|sa| |sa ma ea]; try contradiction;
    destruct b as [sb|sb| |sb mb eb]; try contradiction;
    destruct sr; cbn; try discriminate;
    try (destruct sa; discriminate); try (destruct sb; discriminate).
  - destruct a as [sa|sa| |sa ma ea]; try contradiction; cbn; discriminate.
Qed.

(** *** Correct rounding

    [rounds_to x r]: the float [r] is the real [x] rounded to nearest.
    It is stated by what it gives: no float lies strictly between [x]
    and [r], and a finite [r] is within half a unit in the last place of
    [x]. *)

Lemma Fin_cases (B : spec_float) :
  valid64 B = true -> FinSF B ->
  (exists s, B = S754_zero s) \/
  (exists s m e, B = S754_finite s m e /\ fexp64 (Z.pos (digits2_pos m) + e) = e /\ (e <= 971)%Z).
Proof.
  intros V F. destruct B as [s|s| |s m e]; try contradiction.
  - left. now exists s.
  - right. exists s, m, e. split; [reflexivity|]. exact (valid_finite s m e V).
Qed.

Lemma rounds_to_exact (r : spec_float) :
  valid64 r = true -> FinSF r -> rounds_to (SFR r) r.
Proof.
  intros V F. split; [|split; [|split]].
  - destruct r; try contradiction; discriminate.
  - intros B VB FB H. now apply SFleb_iff.
  - intros B VB FB H. now apply SFleb_iff.
  - intros _. replace (SFR r - SFR r) with 0 by ring. rewrite Rabs_R0.
    eapply Rle_trans; [|apply Rmax_r]. pose proof (pow2_pos (-1075)). lra.
Qed.

(** The rounding of a located positive real, with the sign put back. *)
Lemma binary_round_aux_rounds_to
    (x : R) (sx : bool) (mx : Z) (ex : Z) (lx : location) :
  (0 <= mx)%Z ->
  located x mx ex lx ->
  (ex <= fexp64 (Zdigits2 mx + ex))%Z ->
  valid64 (binary_round_aux prec emax sx mx ex lx) = true ->
  rounds_to (if sx then - x else x) (binary_round_aux prec emax sx mx ex lx).
Proof.
  intros Hmx Hl Hn Hv.
  assert (Hx0 : 0 <= x).
  { assert (0 <= F2R mx ex).
    { unfold F2R. apply Rmult_le_pos; [apply IZR_le; lia|]. pose proof (pow2_pos ex). lra. }
    destruct lx as [|c]; cbn [located] in Hl.
    - lra.
    - destruct Hl as [[? ?] _]. lra. }
  destruct (binary_round_aux_spec x sx mx ex lx Hmx Hl Hn)
    as (m1 & Hm1 & _ & Herr & Hup & _ & Hu & Hlw & Hcases).
  set (e' := fexp64 (Zdigits2 mx + ex)) in *.
  set (r := binary_round_aux prec emax sx mx ex lx) in *.
  assert (Hm1R : 0 <= F2R m1 e').
  { unfold F2R. apply Rmult_le_pos; [apply IZR_le; lia|]. pose proof (pow2_pos e'). lra. }
  destruct (Req_dec x 0) as [Hzero|Hnz].
  { (* the real is zero: so is the result *)
    assert (Hm10 : m1 = 0%Z).
    { assert (m1 <= 0)%Z by (apply Hup; unfold F2R; lra). lia. }
    assert (Hr : r = S754_zero sx).
    { destruct Hcases as [[_ Hr]|[(Hpos & _)|(m & e & _ & Hm & _)]]; [exact Hr|lia|].
      pose proof (F2R_pos_pos m e). rewrite Hm10 in Hm. unfold F2R at 2 in Hm. lra. }
    rewrite Hr. replace (if sx then - x else x) with (SFR (S754_zero sx)).
    - now apply rounds_to_exact.
    - cbn. destruct sx; lra. }
  assert (Hxpos : 0 < x) by lra.
  (* the value of the result, and that the magnitude did not overflow *)
  assert (Hval : r = S754_infinity sx /\ pow2 1024 <= F2R m1 e' \/
                 FinSF r /\ SFR r = (if sx then - F2R m1 e' else F2R m1 e')).
  { destruct Hcases as [[Hz ->]|[(_ & -> & Hov)|(m & e & -> & Hm & _)]].
    - right. split; [exact I|]. subst m1. unfold F2R. cbn. destruct sx; ring.
    - left. split; [reflexivity|exact Hov].
    - right. split; [exact I|]. cbn [SFR]. now rewrite Hm. }
  assert (Hnn : r <> S754_nan).
  { destruct Hval as [[-> _]|[F _]]; [discriminate|]. intros E. rewrite E in F. exact F. }
  (* bounds of the magnitude against the magnitude of a float *)
  assert (HU : forall mb eb, fexp64 (Z.pos (digits2_pos mb) + eb) = eb -> (eb <= 971)%Z ->
                 x <= F2R (Z.pos mb) eb ->
                 FinSF r /\ F2R m1 e' <= F2R (Z.pos mb) eb).
  { intros mb eb Hc He Hle. specialize (Hu mb eb Hc Hle). split; [|exact Hu].
    destruct Hval as [[_ Hov]|[F _]]; [|exact F]. exfalso.
    destruct (canonical_bounds mb eb Hc) as [Hhi _].
    assert (pow2 (eb + 53) <= pow2 1024) by (apply pow2_le; lia). lra. }
  split; [exact Hnn|]. split; [|split].
  - (* x below B *)
    intros B VB FB Hle.
    destruct (Fin_cases B VB FB) as [[s ->]|(s & mb & eb & -> & Hc & He)]; cbn [SFR] in Hle.
    + destruct sx; [|lra].
      destruct Hval as [[-> _]|[F Hr]]; [reflexivity|].
      apply SFleb_iff; auto. rewrite Hr. cbn [SFR]. lra.
    + pose proof (F2R_pos_pos mb eb) as HB.
      destruct sx, s; try lra.
      * (* both negative: the magnitude of x is above that of B *)
        destruct Hval as [[-> _]|[F Hr]]; [reflexivity|].
        apply SFleb_iff; auto. rewrite Hr. cbn [SFR].
        specialize (Hlw mb eb Hc ltac:(lra)). lra.
      * destruct Hval as [[-> _]|[F Hr]]; [reflexivity|].
        apply SFleb_iff; auto. rewrite Hr. cbn [SFR]. lra.
      * destruct (HU mb eb Hc He Hle) as [F Hb].
        destruct Hval as [[_ Hov]|[_ Hr]].
        -- exfalso. destruct (canonical_bounds mb eb Hc) as [Hhi _].
           assert (pow2 (eb + 53) <= pow2 1024) by (apply pow2_le; lia). lra.
        -- apply SFleb_iff; auto. rewrite Hr. cbn [SFR]. exact Hb.
  - (* x above B *)
    intros B VB FB Hle.
    destruct (Fin_cases B VB FB) as [[s ->]|(s & mb & eb & -> & Hc & He)]; cbn [SFR] in Hle.
    + destruct sx; [lra|].
      destruct Hval as [[-> _]|[F Hr]]; [now destruct s|].
      apply SFleb_iff; auto. rewrite Hr. cbn [SFR]. lra.
    + pose proof (F2R_pos_pos mb eb) as HB.
      destruct sx, s; try lra.
      * destruct (HU mb eb Hc He ltac:(lra)) as [F Hb].
        destruct Hval as [[_ Hov]|[_ Hr]].
        -- exfalso. destruct (canonical_bounds mb eb Hc) as [Hhi _].
           assert (pow2 (eb + 53) <= pow2 1024) by (apply pow2_le; lia). lra.
        -- apply SFleb_iff; auto. rewrite Hr. cbn [SFR]. lra.
      * destruct Hval as [[-> _]|[F Hr]]; [reflexivity|].
        apply SFleb_iff; auto. rewrite Hr. cbn [SFR]. lra.
      * destruct Hval as [[-> _]|[F Hr]]; [reflexivity|].
        apply SFleb_iff; auto. rewrite Hr. cbn [SFR].
        specialize (Hlw mb eb Hc Hle). lra.
  - intros F. destruct Hval as [[E _]|[_ Hr]]; [rewrite E in F; contradiction|].
    rewrite Hr. destruct sx.
    + replace (- F2R m1 e' - - x) with (- (F2R m1 e' - x)) by ring.
      rewrite Rabs_Ropp, (Rabs_Ropp x). rewrite (Rabs_pos_eq x) by lra. exact Herr.
    + rewrite (Rabs_pos_eq x) by lra. exact Herr.
Qed.

(** *** [binary_round]: alignment, then rounding *)

Lemma iter_xO_value (d : positive) (m : positive) :
  Z.pos (Pos.iter xO m d) = (Z.pos m * 2 ^ Z.pos d)%Z /\
  Z.pos (digits2_pos (Pos.iter xO m d)) = (Z.pos (digits2_pos m) + Z.pos d)%Z.
Proof.
  induction d as [|d IH] using Pos.peano_ind.
  - cbn [Pos.iter]. split; [lia|]. cbn [digits2_pos]. lia.
  - rewrite Pos.iter_succ. destruct IH as [IH1 IH2]. split.
    + rewrite Pos2Z.inj_xO, IH1, Pos2Z.inj_succ, Z.pow_succ_r by lia. ring.
    + cbn [digits2_pos]. rewrite Pos2Z.inj_succ, IH2, Pos2Z.inj_succ. lia.
Qed.

Lemma binary_round_rounds_to (sx : bool) (mx : positive) (ex : Z) :
  valid64 (binary_round prec emax sx mx ex) = true ->
  rounds_to (if sx then - F2R (Z.pos mx) ex else F2R (Z.pos mx) ex)
            (binary_round prec emax sx mx ex).
Proof.
  unfold binary_round, shl_align.
  set (fe := fexp64 (Z.pos (digits2_pos mx) + ex)).
  destruct (fe - ex)%Z as [|d|d] eqn:Ed.
  - intros Hv. apply binary_round_aux_rounds_to; [lia|reflexivity| cbn [Zdigits2]; fold fe; lia | exact Hv].
  - intros Hv. apply binary_round_aux_rounds_to; [lia|reflexivity| cbn [Zdigits2]; fold fe; lia | exact Hv].
  - intros Hv. destruct (iter_xO_value d mx) as [Hval Hdig].
    replace (F2R (Z.pos mx) ex) with (F2R (Z.pos (Pos.iter xO mx d)) fe).
    + apply binary_round_aux_rounds_to; [lia|reflexivity| |exact Hv].
      cbn [Zdigits2]. rewrite Hdig. replace (Z.pos (digits2_pos mx) + Z.pos d + fe)%Z
        with (Z.pos (digits2_pos mx) + ex)%Z by lia. fold fe. lia.
    + rewrite Hval, F2R_shift by lia. f_equal. lia.
Qed.

(** *** The primitive operations round correctly *)

Lemma finite_is_finite (x : float) : finite x <-> PrimFloat.is_finite x = true.
Proof.
  unfold finite. rewrite is_finite_spec.
  destruct (Prim2SF x); cbn; split; intros; try easy.
Qed.

Lemma shl_align_value (m : positive) (e ez : Z) :
  (ez <= e)%Z -> F2R (Z.pos (fst (shl_align m e ez))) ez = F2R (Z.pos m) e.
Proof.
  intros Hle. unfold shl_align. destruct (ez - e)%Z as [|d|d] eqn:Ed; cbn [fst]; try lia.
  - f_equal. lia.
  - destruct (iter_xO_value d m) as [Hv _]. rewrite Hv, F2R_shift by lia. f_equal. lia.
Qed.

Lemma F2R_cond_Zopp (s : bool) (m : positive) (e : Z) :
  F2R (cond_Zopp s (Z.pos m)) e = if s then - F2R (Z.pos m) e else F2R (Z.pos m) e.
Proof.
  destruct s; cbn [cond_Zopp]; [|reflexivity].
  unfold F2R. change (- Z.pos m)%Z with (Z.neg m).
  replace (IZR (Z.neg m)) with (- IZR (Z.pos m)) by (rewrite <- opp_IZR; reflexivity). ring.
Qed.

Lemma F2R_plus (a b e : Z) : F2R (a + b) e = F2R a e + F2R b e.
Proof. unfold F2R. rewrite plus_IZR. ring. Qed.

Lemma F2R_minus (a b e : Z) : F2R (a - b) e = F2R a e - F2R b e.
Proof. unfold F2R. rewrite minus_IZR. ring. Qed.

Lemma binary_normalize_rounds_to (M ez : Z) :
  valid64 (binary_normalize prec emax M ez false) = true ->
  rounds_to (F2R M ez) (binary_normalize prec emax M ez false).
Proof.
  destruct M as [|p|p]; cbn [binary_normalize]; intros Hv.
  - replace (F2R 0 ez) with (SFR (S754_zero false)) by (unfold F2R; cbn; ring).
    now apply rounds_to_exact.
  - now apply (binary_round_rounds_to false).
  - replace (F2R (Z.neg p) ez) with (- F2R (Z.pos p) ez).
    + now apply (binary_round_rounds_to true).
    + unfold F2R. replace (IZR (Z.neg p)) with (- IZR (Z.pos p)) by (rewrite <- opp_IZR; reflexivity).
      ring.
Qed.

Lemma SFR_finite (s : bool) (m : positive) (e : Z) :
  SFR (S754_finite s m e) = F2R (cond_Zopp s (Z.pos m)) e.
Proof. now rewrite F2R_cond_Zopp. Qed.

Lemma aligned_value (s : bool) (m : positive) (e ez : Z) :
  (ez <= e)%Z ->
  F2R (cond_Zopp s (Z.pos (fst (shl_align m e ez)))) ez = SFR (S754_finite s m e).
Proof.
  intros H. rewrite F2R_cond_Zopp, shl_align_value by exact H. reflexivity.
Qed.

Lemma SFR_zero (s : bool) : SFR (S754_zero s) = 0.
Proof. reflexivity. Qed.

Theorem add_rounds (a b : float) :
  finite a -> finite b -> rounds_to (val a + val b) (Prim2SF (a + b)).
Proof.
  unfold finite, val. intros Fa Fb.
  pose proof (Prim2SF_valid (a + b)) as Hv. pose proof (Prim2SF_valid a) as Va.
  pose proof (Prim2SF_valid b) as Vb.
  rewrite add_spec in *. unfold SF64add in *.
  destruct (Prim2SF a) as [sa|sa| |sa ma ea]; try contradiction;
  destruct (Prim2SF b) as [sb|sb| |sb mb eb]; try contradiction.
  - rewrite !SFR_zero, Rplus_0_r.
    replace 0 with (SFR (SFadd prec emax (S754_zero sa) (S754_zero sb)))
      by (destruct sa, sb; reflexivity).
    apply rounds_to_exact; [exact Hv|]. destruct sa, sb; exact I.
  - cbn [SFadd]. rewrite SFR_zero, Rplus_0_l. now apply rounds_to_exact.
  - cbn [SFadd]. rewrite SFR_zero, Rplus_0_r. now apply rounds_to_exact.
  - cbn [SFadd] in *. cbv zeta in *.
    rewrite <- (aligned_value sa ma ea (Z.min ea eb)) by lia.
    rewrite <- (aligned_value sb mb eb (Z.min ea eb)) by lia.
    rewrite <- F2R_plus. now apply binary_normalize_rounds_to.
Qed.

Theorem sub_rounds (a b : float) :
  finite a -> finite b -> rounds_to (val a - val b) (Prim2SF (a - b)).
Proof.
  unfold finite, val. intros Fa Fb.
  pose proof (Prim2SF_valid (a - b)) as Hv. pose proof (Prim2SF_valid a) as Va.
  pose proof (Prim2SF_valid b) as Vb.
  rewrite sub_spec in *. unfold SF64sub in *.
  destruct (Prim2SF a) as [sa|sa| |sa ma ea]; try contradiction;
  destruct (Prim2SF b) as [sb|sb| |sb mb eb]; try contradiction.
  - rewrite !SFR_zero, Rminus_0_r.
    replace 0 with (SFR (SFsub prec emax (S754_zero sa) (S754_zero sb)))
      by (destruct sa, sb; reflexivity).
    apply rounds_to_exact; [exact Hv|]. destruct sa, sb; exact I.
  - cbn [SFsub] in *. rewrite SFR_zero, Rminus_0_l.
    replace (- SFR (S754_finite sb mb eb)) with (SFR (S754_finite (negb sb) mb eb))
      by (cbn; destruct sb; cbn; ring).
    now apply rounds_to_exact.
  - cbn [SFsub]. rewrite SFR_zero, Rminus_0_r. now apply rounds_to_exact.
  - cbn [SFsub] in *. cbv zeta in *.
    rewrite <- (aligned_value sa ma ea (Z.min ea eb)) by lia.
    rewrite <- (aligned_value sb mb eb (Z.min ea eb)) by lia.
    rewrite <- F2R_minus. now apply binary_normalize_rounds_to.
Qed.

Lemma digits2_mul (a b : positive) :
  (Z.pos (digits2_pos a) + Z.pos (digits2_pos b) - 1 <= Z.pos (digits2_pos (a * b)))%Z.
Proof.
  destruct (digits2_bounds a) as [Ha _]. destruct (digits2_bounds b) as [Hb _].
  destruct (digits2_bounds (a * b)) as [_ Hab].
  rewrite Pos2Z.inj_mul in Hab.
  set (da := Z.pos (digits2_pos a)) in *. set (db := Z.pos (digits2_pos b)) in *.
  set (d := Z.pos (digits2_pos (a * b))) in *.
  assert (Hprod : (2 ^ (da - 1) * 2 ^ (db - 1) <= Z.pos a * Z.pos b)%Z).
  { apply Z.mul_le_mono_nonneg; try lia; apply Z.pow_nonneg; lia. }
  rewrite <- Z.pow_add_r in Hprod by lia.
  destruct (Z_le_gt_dec (da + db - 1) d) as [H|H]; [exact H|].
  assert (2 ^ d <= 2 ^ (da - 1 + (db - 1)))%Z by (apply Z.pow_le_mono_r; lia).
  lia.
Qed.

Theorem mul_rounds (a b : float) :
  finite a -> finite b -> rounds_to (val a * val b) (Prim2SF (a * b)).
Proof.
  unfold finite, val. intros Fa Fb.
  pose proof (Prim2SF_valid (a * b)) as Hv. pose proof (Prim2SF_valid a) as Va.
  pose proof (Prim2SF_valid b) as Vb.
  rewrite mul_spec in *. unfold SF64mul in *.
  destruct (Prim2SF a) as [sa|sa| |sa ma ea]; try contradiction;
  destruct (Prim2SF b) as [sb|sb| |sb mb eb]; try contradiction;
  cbn [SFmul] in *.
  - rewrite !SFR_zero, Rmult_0_l. rewrite <- (SFR_zero (xorb sa sb)). now apply rounds_to_exact.
  - rewrite !SFR_zero, Rmult_0_l. rewrite <- (SFR_zero (xorb sa sb)). now apply rounds_to_exact.
  - rewrite !SFR_zero, Rmult_0_r. rewrite <- (SFR_zero (xorb sa sb)). now apply rounds_to_exact.
  - destruct (valid_finite _ _ _ Va) as [Ca _]. destruct (valid_finite _ _ _ Vb) as [Cb _].
    replace (SFR (S754_finite sa ma ea) * SFR (S754_finite sb mb eb))
      with (if xorb sa sb then - F2R (Z.pos (ma * mb)) (ea + eb) else F2R (Z.pos (ma * mb)) (ea + eb)).
    + apply binary_round_aux_rounds_to; [lia|reflexivity| |exact Hv].
      cbn [Zdigits2]. pose proof (digits2_mul ma mb) as Hd.
      rewrite fexp64_eq in *. lia.
    + cbn [SFR]. unfold F2R. rewrite Pos2Z.inj_mul, mult_IZR, pow2_add.
      destruct sa, sb; cbn [xorb]; ring.
Qed.

(** *** Division *)

Lemma new_location_spec (m2 r q e : Z) (x : R) :
  (0 < m2)%Z -> (0 <= r < m2)%Z ->
  x = (IZR q + IZR r / IZR m2) * pow2 e ->
  located x q e (new_location m2 r).
Proof.
  intros Hm2 Hr Hx. pose proof (pow2_pos e) as HP.
  assert (Hm2R : 0 < IZR m2) by (apply IZR_lt; lia).
  assert (Hr0 : 0 <= IZR r) by (apply IZR_le; lia).
  assert (Hr1 : IZR r < IZR m2) by (apply IZR_lt; lia).
  unfold new_location, new_location_even, new_location_odd.
  destruct (Z.eqb_spec r 0) as [->|Hnz].
  - assert (located x q e loc_Exact).
    { cbn. rewrite Hx. unfold F2R, Rdiv. rewrite Rmult_0_l. ring. }
    now destruct (Z.even m2).
  - assert (Hrpos : 0 < IZR r) by (apply IZR_lt; lia).
    assert (Hfrac : 0 < IZR r / IZR m2 < 1).
    { split.
      - apply Rdiv_lt_0_compat; lra.
      - apply (Rmult_lt_reg_r (IZR m2)); [lra|]. unfold Rdiv.
        rewrite Rmult_assoc, Rinv_l by lra. lra. }
    assert (Hbounds : F2R q e < x < F2R (q + 1) e).
    { rewrite Hx. unfold F2R. rewrite plus_IZR. split; nra. }
    assert (Hhalf : forall c, (2 * r ?= m2)%Z = c ->
              match c with
              | Lt => x < middle q e
              | Eq => x = middle q e
              | Gt => middle q e < x
              end).
    { intros c Hc. unfold middle. rewrite Hx.
      destruct (Z.compare_spec (2 * r) m2) as [E|E|E]; subst c.
      - assert (IZR r / IZR m2 = / 2).
        { rewrite <- E, mult_IZR. field. lra. }
        nra.
      - apply IZR_lt in E. rewrite mult_IZR in E.
        assert (IZR r / IZR m2 < / 2).
        { apply (Rmult_lt_reg_r (IZR m2)); [lra|]. unfold Rdiv.
          rewrite Rmult_assoc, Rinv_l by lra. lra. }
        nra.
      - apply IZR_lt in E. rewrite mult_IZR in E.
        assert (/ 2 < IZR r / IZR m2).
        { apply (Rmult_lt_reg_r (IZR m2)); [lra|]. unfold Rdiv.
          rewrite Rmult_assoc, Rinv_l by lra. lra. }
        nra. }
    destruct (Z.even m2) eqn:Ev.
    + destruct (Z.eqb_spec r 0) as [?|_]; [contradiction|].
      cbn [located]. split; [exact Hbounds|]. now apply Hhalf.
    + destruct (Z.eqb_spec r 0) as [?|_]; [contradiction|].
      cbn [located]. split; [exact Hbounds|].
      assert (Hodd : Z.odd m2 = true) by (rewrite <- Z.negb_even, Ev; reflexivity).
      apply Z.odd_spec in Hodd. destruct Hodd as [k Hk].
      destruct (Z.compare_spec (2 * r + 1) m2) as [E|E|E].
      * apply (Hhalf Lt). apply Z.compare_lt_iff. lia.
      * apply (Hhalf Lt). apply Z.compare_lt_iff. lia.
      * apply (Hhalf Gt). apply Z.compare_gt_iff. lia.
Qed.

Lemma div_core_spec (m1 m2 : positive) (e1 e2 : Z) :
  let '(q, e', l) := SFdiv_core_binary prec emax (Z.pos m1) e1 (Z.pos m2) e2 in
  (0 <= q)%Z /\
  located (F2R (Z.pos m1) e1 / F2R (Z.pos m2) e2) q e' l /\
  (e' <= fexp64 (Zdigits2 q + e'))%Z.
Proof.
  unfold SFdiv_core_binary. cbn [Zdigits2].
  set (d1 := Z.pos (digits2_pos m1)). set (d2 := Z.pos (digits2_pos m2)).
  set (e' := Z.min (fexp64 (d1 + e1 - (d2 + e2))) (e1 - e2)).
  set (s := (e1 - e2 - e')%Z).
  assert (Hs : (0 <= s)%Z) by (subst s e'; lia).
  set (m' := match s with Z.pos _ => Z.shiftl (Z.pos m1) s | 0%Z => Z.pos m1 | Z.neg _ => 0%Z end).
  assert (Hm' : m' = (Z.pos m1 * 2 ^ s)%Z).
  { subst m'. destruct s as [|p|p] eqn:Es; try lia.
    now rewrite Z.shiftl_mul_pow2 by lia. }
  pose proof (Z_div_mod m' (Z.pos m2) ltac:(lia)) as Hdiv.
  destruct (Z.div_eucl m' (Z.pos m2)) as [q r]. destruct Hdiv as [Hqr Hr].
  assert (Hq : (0 <= q)%Z).
  { assert (0 <= m')%Z by (rewrite Hm'; apply Z.mul_nonneg_nonneg; [lia|apply Z.pow_nonneg; lia]).
    nia. }
  split; [exact Hq|]. split.
  - apply new_location_spec; [lia|exact Hr|].
    assert (Hm2R : 0 < IZR (Z.pos m2)) by (apply IZR_lt; lia).
    pose proof (pow2_pos e2). pose proof (pow2_pos e').
    assert (HmR : IZR m' = IZR (Z.pos m1) * pow2 s).
    { rewrite Hm', mult_IZR, <- pow2_IZR by lia. reflexivity. }
    assert (HqrR : IZR m' = IZR (Z.pos m2) * IZR q + IZR r).
    { rewrite Hqr, plus_IZR, mult_IZR. reflexivity. }
    unfold F2R. replace e1 with (e' + s + e2)%Z by (subst s; lia).
    rewrite !pow2_add. pose proof (pow2_pos s).
    transitivity (IZR m' / IZR (Z.pos m2) * pow2 e').
    + rewrite HmR. field. lra.
    + rewrite HqrR. field. lra.
  - destruct (Z_le_gt_dec e' (-1074)) as [Hlow|Hhigh].
    + rewrite fexp64_eq. lia.
    + (* the quotient has at least 53 digits *)
      assert (HD : (e' + 53 <= d1 + e1 - (d2 + e2))%Z).
      { subst e'. rewrite fexp64_eq in *. lia. }
      set (K := (d1 - 1 + s - d2)%Z).
      assert (HK : (52 <= K)%Z) by (subst K s; lia).
      destruct (digits2_bounds m1) as [H1lo _]. destruct (digits2_bounds m2) as [_ H2hi].
      fold d1 in H1lo. fold d2 in H2hi.
      assert (Hbig : (2 ^ K * 2 ^ d2 <= m')%Z).
      { rewrite Hm', <- Z.pow_add_r by lia.
        replace (K + d2)%Z with ((d1 - 1) + s)%Z by (subst K; lia).
        rewrite Z.pow_add_r by lia.
        apply Z.mul_le_mono_nonneg_r; [apply Z.pow_nonneg; lia|exact H1lo]. }
      assert (HKpos : (0 < 2 ^ K)%Z) by (apply Z.pow_pos_nonneg; lia).
      assert (Hqbig : (2 ^ K <= q)%Z) by nia.
      destruct q as [|p|p]; try lia. cbn [Zdigits2].
      destruct (digits2_bounds p) as [_ Hphi].
      assert (Hdig : (K < Z.pos (digits2_pos p))%Z).
      { apply (Z.pow_lt_mono_r_iff 2); lia. }
      apply Z.le_trans with (fexp64 (d1 + e1 - (d2 + e2))).
      * subst e'. lia.
      * apply fexp64_mono. subst K s. lia.
Qed.

Theorem div_rounds (a b : float) :
  finite a -> finite b -> val b <> 0 -> rounds_to (val a / val b) (Prim2SF (a / b)).
Proof.
  unfold finite, val. intros Fa Fb Hb.
  pose proof (Prim2SF_valid (a / b)) as Hv. pose proof (Prim2SF_valid a) as Va.
  pose proof (Prim2SF_valid b) as Vb.
  rewrite div_spec in *. unfold SF64div in *.
  destruct (Prim2SF a) as [sa|sa| |sa ma ea]; try contradiction;
  destruct (Prim2SF b) as [sb|sb| |sb mb eb]; try contradiction;
  cbn [SFdiv] in *; try (cbn in Hb; lra).
  - rewrite SFR_zero. unfold Rdiv. rewrite Rmult_0_l.
    rewrite <- (SFR_zero (xorb sa sb)). now apply rounds_to_exact.
  - pose proof (div_core_spec ma mb ea eb) as Hcore.
    destruct (SFdiv_core_binary prec emax (Z.pos ma) ea (Z.pos mb) eb) as [[q e'] l].
    destruct Hcore as (Hq & Hloc & Hside).
    pose proof (F2R_pos_pos mb eb) as HB.
    replace (SFR (S754_finite sa ma ea) / SFR (S754_finite sb mb eb))
      with (if xorb sa sb then - (F2R (Z.pos ma) ea / F2R (Z.pos mb) eb)
            else F2R (Z.pos ma) ea / F2R (Z.pos mb) eb).
    + now apply binary_round_aux_rounds_to.
    + cbn [SFR]. destruct sa, sb; cbn [xorb]; field; lra.
Qed.

(** *** Comparisons and intervals on primitive floats *)

Lemma val_zero : val 0%float = 0.
Proof. reflexivity. Qed.

Lemma finite_zero : finite 0%float.
Proof. exact I. Qed.

Lemma leb_val (a b : float) :
  finite a -> finite b -> (PrimFloat.leb a b = true <-> val a <= val b).
Proof.
  intros Fa Fb. rewrite leb_spec. apply SFleb_iff; auto; apply Prim2SF_valid.
Qed.

Lemma ltb_val (a b : float) :
  finite a -> finite b -> (PrimFloat.ltb a b = true <-> val a < val b).
Proof.
  intros Fa Fb. rewrite ltb_spec. apply SFltb_iff; auto; apply Prim2SF_valid.
Qed.

Lemma nonneg_SF (x : float) : nonneg x <-> NonNegSF (Prim2SF x).
Proof.
  unfold nonneg. rewrite leb_spec. change (Prim2SF 0) with (S754_zero false).
  destruct (Prim2SF x) as [s|s| |s m e]; cbn; try destruct s; split; intros; try easy.
Qed.

Lemma nonneg_finite_val (x : float) : finite x -> (nonneg x <-> 0 <= val x).
Proof.
  intros F. unfold nonneg. rewrite (leb_val 0 x finite_zero F), val_zero. reflexivity.
Qed.

Lemma nonneg_cases (x : float) :
  nonneg x -> (finite x /\ 0 <= val x) \/ Prim2SF x = S754_infinity false.
Proof.
  intros H. pose proof H as H'. apply nonneg_SF in H'. unfold finite.
  destruct (Prim2SF x) as [s|s| |s m e] eqn:E; try contradiction.
  - left. split; [exact I|]. unfold val. rewrite E. cbn. lra.
  - destruct s; [contradiction|]. now right.
  - destruct s; [contradiction|]. left. split; [exact I|].
    unfold val. rewrite E. cbn. pose proof (F2R_pos_pos m e). lra.
Qed.

(** What [rounds_to] gives on primitive floats. *)
Lemma rounds_le (x : R) (r B : float) :
  rounds_to x (Prim2SF r) -> finite B -> x <= val B -> PrimFloat.leb r B = true.
Proof.
  intros (_ & Hu & _) FB Hx. rewrite leb_spec. apply Hu; auto. apply Prim2SF_valid.
Qed.

Lemma rounds_ge (x : R) (r B : float) :
  rounds_to x (Prim2SF r) -> finite B -> val B <= x -> PrimFloat.leb B r = true.
Proof.
  intros (_ & _ & Hl & _) FB Hx. rewrite leb_spec. apply Hl; auto. apply Prim2SF_valid.
Qed.

Lemma rounds_between (x : R) (r A B : float) :
  rounds_to x (Prim2SF r) -> finite A -> finite B ->
  val A <= x <= val B ->
  finite r /\ val A <= val r <= val B.
Proof.
  intros Hr FA FB [H1 H2].
  pose proof (rounds_ge x r A Hr FA H1) as Hge.
  pose proof (rounds_le x r B Hr FB H2) as Hle.
  assert (Fr : finite r).
  { rewrite leb_spec in Hge, Hle.
    exact (SFleb_between (Prim2SF A) (Prim2SF r) (Prim2SF B) FA FB Hge Hle). }
  split; [exact Fr|]. split.
  - now apply leb_val.
  - now apply leb_val.
Qed.

Lemma rounds_error (x : R) (r : float) :
  rounds_to x (Prim2SF r) -> finite r ->
  Rabs (val r - x) <= Rmax (Rabs x * pow2 (-53)) (pow2 (-1075)).
Proof. intros (_ & _ & _ & He) F. now apply He. Qed.

Lemma rounds_nonneg (x : R) (r : float) :
  rounds_to x (Prim2SF r) -> 0 <= x -> nonneg r.
Proof.
  intros Hr Hx. unfold nonneg. apply (rounds_ge x r 0 Hr finite_zero). now rewrite val_zero.
Qed.

(** *** Non-negative arithmetic, infinities included *)

Lemma positive_SF (b : float) :
  finite b -> 0 < val b -> exists m e, Prim2SF b = S754_finite false m e.
Proof.
  unfold finite, val. intros F H.
  destruct (Prim2SF b) as [s|s| |s m e]; try contradiction; cbn in H; try lra.
  destruct s; [|now exists m, e]. pose proof (F2R_pos_pos m e). lra.
Qed.

Lemma mul_nonneg (a b : float) :
  nonneg a -> finite b -> 0 < val b -> nonneg (a * b) /\ nonneg (b * a).
Proof.
  intros Ha Fb Hb. destruct (nonneg_cases a Ha) as [[Fa Hva]|Hinf].
  - split.
    + apply (rounds_nonneg (val a * val b)); [now apply mul_rounds|nra].
    + apply (rounds_nonneg (val b * val a)); [now apply mul_rounds|nra].
  - destruct (positive_SF b Fb Hb) as (m & e & Eb).
    split; apply nonneg_SF; rewrite mul_spec, Hinf, Eb; exact I.
Qed.

Lemma div_nonneg (a b : float) :
  nonneg a -> finite b -> 0 < val b -> nonneg (a / b).
Proof.
  intros Ha Fb Hb. destruct (nonneg_cases a Ha) as [[Fa Hva]|Hinf].
  - apply (rounds_nonneg (val a / val b)); [apply div_rounds; auto; lra|].
    apply Rmult_le_pos; [exact Hva|]. apply Rlt_le, Rinv_0_lt_compat, Hb.
  - destruct (positive_SF b Fb Hb) as (m & e & Eb).
    apply nonneg_SF. rewrite div_spec, Hinf, Eb. exact I.
Qed.

Lemma add_nonneg (a b : float) :
  nonneg a -> nonneg b ->
  nonneg (a + b) /\ PrimFloat.leb a (a + b) = true /\ PrimFloat.leb b (a + b) = true.
Proof.
  intros Ha Hb.
  destruct (nonneg_cases a Ha) as [[Fa Hva]|Hia];
  destruct (nonneg_cases b Hb) as [[Fb Hvb]|Hib].
  - pose proof (add_rounds a b Fa Fb) as Hr. split; [|split].
    + apply (rounds_nonneg _ _ Hr). lra.
    + apply (rounds_ge _ _ a Hr Fa). lra.
    + apply (rounds_ge _ _ b Hr Fb). lra.
  - unfold finite in Fa. unfold nonneg. rewrite !leb_spec, add_spec, Hib. unfold SF64add.
    change (Prim2SF 0) with (S754_zero false).
    destruct (Prim2SF a) as [s|s| |s m e]; try contradiction; cbn; destruct s; auto.
  - unfold finite in Fb. unfold nonneg. rewrite !leb_spec, add_spec, Hia. unfold SF64add.
    change (Prim2SF 0) with (S754_zero false).
    destruct (Prim2SF b) as [s|s| |s m e]; try contradiction; cbn; destruct s; auto.
  - unfold nonneg. rewrite !leb_spec, add_spec, Hia, Hib. cbn. auto.
Qed.

(** [Math.max(0, x)] of a number that is not NaN. *)
Lemma finite_not_nan (x : float) : finite x -> PrimFloat.is_nan x = false.
Proof.
  unfold finite. rewrite is_nan_spec. now destruct (Prim2SF x).
Qed.

Lemma nonneg_not_nan (x : float) : nonneg x -> PrimFloat.is_nan x = false.
Proof.
  intros H. apply nonneg_SF in H. rewrite is_nan_spec. now destruct (Prim2SF x).
Qed.

End F64Facts.

(** *** The constants of the program, and of the proofs *)

Module F64Lit.
Import F64 F64Facts.
#[local] Open Scope R_scope.

Lemma val_literal (c : float) (s : bool) (m : positive) (k : Z) :
  Prim2SF c = S754_finite s m (- k) -> (0 <= k)%Z ->
  val c = IZR (cond_Zopp s (Z.pos m)) / IZR (2 ^ k).
Proof.
  intros E Hk. unfold val. rewrite E, SFR_finite. unfold F2R, Rdiv. f_equal.
  unfold pow2. rewrite powerRZ_neg'. fold (pow2 k). now rewrite pow2_IZR.
Qed.

Lemma val_one : val 1%float = 1.
Proof.
  rewrite (val_literal 1 false 4503599627370496 52) by (reflexivity || lia).
  cbn [cond_Zopp Z.opp]. change (2 ^ 52)%Z with 4503599627370496%Z. field.
Qed.

Lemma val_two : val 2%float = 2.
Proof.
  rewrite (val_literal 2 false 4503599627370496 51) by (reflexivity || lia).
  cbn [cond_Zopp Z.opp]. change (2 ^ 51)%Z with 2251799813685248%Z. lra.
Qed.

Lemma val_half : val 0.5%float = / 2.
Proof.
  rewrite (val_literal 0.5 false 4503599627370496 53) by (reflexivity || lia).
  cbn [cond_Zopp Z.opp]. change (2 ^ 53)%Z with 9007199254740992%Z. lra.
Qed.

Lemma val_minus_half : val (-0.5)%float = - / 2.
Proof.
  rewrite (val_literal (-0.5) true 4503599627370496 53) by (reflexivity || lia).
  cbn [cond_Zopp Z.opp]. change (2 ^ 53)%Z with 9007199254740992%Z. lra.
Qed.

Lemma val_32nd : val 0.03125%float = / 32.
Proof.
  rewrite (val_literal 0.03125 false 4503599627370496 57) by (reflexivity || lia).
  cbn [cond_Zopp Z.opp]. change (2 ^ 57)%Z with 144115188075855872%Z. lra.
Qed.

Lemma val_minus_32nd : val (-0.03125)%float = - / 32.
Proof.
  rewrite (val_literal (-0.03125) true 4503599627370496 57) by (reflexivity || lia).
  cbn [cond_Zopp Z.opp]. change (2 ^ 57)%Z with 144115188075855872%Z. lra.
Qed.

(** [0.05] is only some float between 0 and 1/16. *)
Lemma val_0_05 : 0 < val 0.05%float <= / 16.
Proof.
  rewrite (val_literal 0.05 false 7205759403792794 57) by (reflexivity || lia).
  cbn [cond_Zopp Z.opp]. change (2 ^ 57)%Z with 144115188075855872%Z. lra.
Qed.

Lemma finite_literal (c : float) : PrimFloat.is_finite c = true -> finite c.
Proof. apply finite_is_finite. Qed.

Lemma positive_finite (c : float) :
  PrimFloat.is_finite c = true -> PrimFloat.ltb 0 c = true -> finite c /\ 0 < val c.
Proof.
  intros Hf Hp. apply finite_is_finite in Hf. split; [exact Hf|].
  rewrite <- val_zero. apply ltb_val; [exact finite_zero|exact Hf|exact Hp].
Qed.

Lemma unit_interval_val (r : float) :
  unit_interval r -> finite r /\ 0 <= val r < 1.
Proof.
  intros [H0 H1]. destruct (nonneg_cases r H0) as [[F Hv]|Hinf].
  - split; [exact F|]. split; [exact Hv|].
    rewrite <- val_one. apply ltb_val; auto. now apply finite_literal.
  - rewrite ltb_spec, Hinf in H1. discriminate.
Qed.

(** The factor [1 + noise] of the simulator is a finite number not
    below 1/2, whatever the draw. *)
Lemma noise_factor (r : float) :
  unit_interval r ->
  let factor := (1 + (r - 0.5) * 0.05)%float in
  finite factor /\ / 2 <= val factor.
Proof.
  intros Hr. cbv zeta. destruct (unit_interval_val r Hr) as [Fr Hv].
  assert (Fh : finite 0.5%float) by now apply finite_literal.
  destruct (rounds_between _ (r - 0.5)%float (-0.5)%float 0.5%float
              (sub_rounds r 0.5 Fr Fh))
    as [Fz Hz]; try now apply finite_literal.
  { rewrite val_minus_half, val_half. lra. }
  rewrite val_minus_half, val_half in Hz.
  assert (F5 : finite 0.05%float) by now apply finite_literal.
  pose proof val_0_05 as H5.
  destruct (rounds_between _ ((r - 0.5) * 0.05)%float (-0.03125)%float 0.03125%float
              (mul_rounds _ 0.05 Fz F5))
    as [Fw Hw]; try now apply finite_literal.
  { rewrite val_minus_32nd, val_32nd. split; nra. }
  rewrite val_minus_32nd, val_32nd in Hw.
  assert (F1 : finite 1%float) by now apply finite_literal.
  destruct (rounds_between _ (1 + (r - 0.5) * 0.05)%float 0.5%float 2%float
              (add_rounds 1 _ F1 Fw))
    as [Ft Ht]; try now apply finite_literal.
  { rewrite val_one, val_half, val_two. lra. }
  rewrite val_half in Ht. split; [exact Ft|lra].
Qed.

Lemma Math_max_0_nonneg (y : float) :
  nonneg y -> nonneg (Number.Math_max 0 y).
Proof.
  intros Hy. unfold Number.Math_max.
  rewrite (nonneg_not_nan y Hy). cbn [PrimFloat.is_nan orb].
  change (PrimFloat.is_nan 0) with false. cbn [orb].
  destruct (PrimFloat.ltb 0 y); [exact Hy|].
  destruct (PrimFloat.ltb y 0); reflexivity.
Qed.

Lemma leb_refl (x : float) : nonneg x -> PrimFloat.leb x x = true.
Proof.
  intros H. apply nonneg_SF in H. rewrite leb_spec. unfold SFleb.
  destruct (Prim2SF x) as [s|s| |s m e]; try contradiction; cbn.
  - reflexivity.
  - now destruct s.
  - destruct s; [contradiction|]. now rewrite Z.compare_refl, Pos.compare_cont_refl.
Qed.

End F64Lit.
(** ** Association lists *)

Lemma assoc_update_load_same (key : string) (f : Load -> Load) (ls : list (string * Load)) (l : Load) :
  assoc key ls = Some l -> assoc key (update_load key f ls) = Some (f l).
Proof.
  induction ls as [|[k x] rest IH]; simpl; [discriminate|].
  destruct (String.eqb key k) eqn:E; simpl; rewrite E.
  - now intros [= ->].
  - exact IH.
Qed.

Lemma assoc_update_load_other (key key' : string) (f : Load -> Load) (ls : list (string * Load)) :
  key' <> key -> assoc key' (update_load key f ls) = assoc key' ls.
Proof.
  intros Hne. induction ls as [|[k x] rest IH]; simpl; [reflexivity|].
  destruct (String.eqb key k) eqn:E; simpl.
  - apply String.eqb_eq in E. subst k.
    destruct (String.eqb key' key) eqn:E'; [|reflexivity].
    apply String.eqb_eq in E'. contradiction.
  - now rewrite IH.
Qed.

(** ** One simulation cycle, load by load *)

Lemma cycled_on (random : nat -> float) (l l' : Load) :
  cycled random l l' -> on l' = on l.
Proof.
  unfold cycled. destruct (on l) eqn:E.
  - intros [j ->]. exact E.
  - intros ->. exact E.
Qed.

Lemma readings_loop_assoc (random : nat -> float) (key : string) (ls : list (string * Load)) :
  forall k,
    match assoc key ls with
    | Some l => exists l', assoc key (readings_loop random k ls) = Some l' /\ cycled random l l'
    | None => assoc key (readings_loop random k ls) = None
    end.
Proof.
  induction ls as [|[id load] rest IH]; intros k; simpl; [reflexivity|].
  destruct (on load) eqn:Eon; simpl; destruct (String.eqb key id) eqn:E.
  - exists (reading_on (random k) load). split; [reflexivity|].
    unfold cycled. rewrite Eon. now exists k.
  - apply IH.
  - exists (reading_off load). split; [reflexivity|].
    unfold cycled. now rewrite Eon.
  - apply IH.
Qed.

Lemma readings_loop_In (random : nat -> float) (ls : list (string * Load)) :
  forall k id l',
    In (id, l') (readings_loop random k ls) ->
    exists l, In (id, l) ls /\ cycled random l l'.
Proof.
  induction ls as [|[id0 load] rest IH]; intros k id l'; simpl; [tauto|].
  destruct (on load) eqn:Eon; simpl; intros [H|H].
  - inversion H; subst. exists load. split; [now left|].
    unfold cycled. rewrite Eon. now exists k.
  - destruct (IH _ _ _ H) as (l & Hin & Hc). exists l. split; [now right|exact Hc].
  - inversion H; subst. exists load. split; [now left|].
    unfold cycled. now rewrite Eon.
  - destruct (IH _ _ _ H) as (l & Hin & Hc). exists l. split; [now right|exact Hc].
Qed.

Lemma updateFakeReadings_loads (now : float) (random : nat -> float) (st : DeviceState) :
  loads (snd (updateFakeReadings now random st)) = readings_loop random 0 (loads st).
Proof.
  unfold updateFakeReadings. cbn [loads].
  destruct (assoc "fan" (readings_loop random 0 (loads st))) as [fan|]; [|reflexivity].
  now destruct (on fan && _)%bool.
Qed.

Lemma updateFakeReadings_normal (now : float) (random : nat -> float) (st : DeviceState) :
  has_key "fan" (loads st) = true ->
  fst (updateFakeReadings now random st) = Normal tt.
Proof.
  unfold has_key, updateFakeReadings. cbn [loads].
  pose proof (readings_loop_assoc random "fan" (loads st) 0) as H.
  destruct (assoc "fan" (loads st)) as [fan|]; [|discriminate].
  destruct H as (fan' & -> & _). intros _.
  now destruct (on fan' && _)%bool.
Qed.

(** ** C3: the alert engine *)

(** C3.  After a simulation cycle over a state that has a fan, the alert
    list is exactly the one HIGH_USAGE alert for the fan when the fan is on
    and its fresh power reading is strictly above the threshold, and is
    empty otherwise.  The list is a function of the fresh readings alone:
    the alerts of the state before the cycle do not enter it. *)
Theorem alerts_rebuilt_each_cycle
    (now : float) (random : nat -> float) (st : DeviceState) (fan : Load) :
  assoc "fan" (loads st) = Some fan ->
  exists st' fan',
    updateFakeReadings now random st = (Normal tt, st') /\
    assoc "fan" (loads st') = Some fan' /\
    cycled random fan fan' /\
    alerts st' =
      if (on fan' && PrimFloat.ltb (highUsage_W (thresholds st')) (power_W fan'))%bool
      then [ {| Alert.type := "HIGH_USAGE"; Alert.loadId := "fan";
                Alert.message := "Fan above " ++ Number.toString (highUsage_W (thresholds st')) ++ " W";
                Alert.timestamp := timestamp st' |} ]
      else [].
Proof.
  intros Hfan. unfold updateFakeReadings. cbn [loads thresholds].
  pose proof (readings_loop_assoc random "fan" (loads st) 0) as H.
  rewrite Hfan in H. destruct H as (fan' & Hf' & Hc). rewrite Hf'.
  destruct (on fan' && _)%bool eqn:E.
  - eexists; exists fan'. split; [reflexivity|]. cbn. rewrite Hf', E. auto.
  - eexists; exists fan'. split; [reflexivity|]. cbn. rewrite Hf', E. auto.
Qed.

Lemma alerts_rebuilt_each_cycle_witness :
  exists st' fan',
    updateFakeReadings 1700000001000 steady fan_running = (Normal tt, st') /\
    assoc "fan" (loads st') = Some fan' /\
    cycled steady {| name := "Desk Fan"; on := true; voltage_V := 120.0;
                     current_A := 0.5; power_W := 60.0; energy_Wh := 20.1 |} fan' /\
    alerts st' =
      if (on fan' && PrimFloat.ltb (highUsage_W (thresholds st')) (power_W fan'))%bool
      then [ {| Alert.type := "HIGH_USAGE"; Alert.loadId := "fan";
                Alert.message := "Fan above " ++ Number.toString (highUsage_W (thresholds st')) ++ " W";
                Alert.timestamp := timestamp st' |} ]
      else [].
Proof.
  apply (alerts_rebuilt_each_cycle 1700000001000 steady fan_running). reflexivity.
Defined.

(** The cycle of the witness does raise exactly one alert, with the
    message and the time of that cycle. *)
Example fan_running_alert :
  alerts (snd (updateFakeReadings 1700000001000 steady fan_running)) =
  [ {| Alert.type := "HIGH_USAGE"; Alert.loadId := "fan";
       Alert.message := "Fan above 50 W"; Alert.timestamp := 1700000001 |} ].
Proof. vm_compute. reflexivity. Qed.

(** ** C9: the control handler coerces [on] *)

Lemma has_key_update_load (key key' : string) (f : Load -> Load) (ls : list (string * Load)) :
  has_key key' (update_load key f ls) = has_key key' ls.
Proof.
  unfold has_key. destruct (string_dec key' key) as [->|Hne].
  - destruct (assoc key ls) as [l|] eqn:E.
    + now rewrite (assoc_update_load_same key f ls l E).
    + induction ls as [|[k x] rest IH]; simpl in *; [reflexivity|].
      destruct (String.eqb key k) eqn:Ek; [discriminate|].
      simpl. rewrite Ek. now apply IH.
  - now rewrite assoc_update_load_other.
Qed.



(** The string "false" switches the fan on. *)
Example control_string_false_turns_on :
  option_map on
    (assoc "fan"
       (loads (state (snd (post_control 1700000001000 steady
                             [("loadId", JStr "fan"); ("on", JStr "false")]
                             (boot 1700000000000)))))) = Some true.
Proof. vm_compute. reflexivity. Qed.

(** ** C1: control requests for unknown loads *)

(** A key that resolves to nothing, neither in [state.loads] nor along
    its prototype chain, is rejected and leaves the server as it was. *)
Lemma control_unresolved_key_rejected
    (now : float) (random : nat -> float) (body : list (string * JsValue))
    (srv : Server) (key : string) :
  ToPropertyKey (body_get srv body "loadId") = Normal key ->
  truthy (resolve srv key) = false ->
  post_control now random body srv = (BadRequest "Unknown loadId", srv).
Proof.
  intros Hkey Hr. unfold post_control. now rewrite Hkey, Hr.
Qed.

(** Scenario D of the specification: [heater] is rejected. *)
Example control_heater_rejected :
  post_control 1700000001000 steady [("loadId", JStr "heater"); ("on", JBool true)]
               (boot 1700000000000)
  = (BadRequest "Unknown loadId", boot 1700000000000).
Proof. reflexivity. Qed.

(** C1.  The request [{loadId: "constructor", on: true}] names no load:
    [constructor] is not a key of [state.loads].  The lookup
    [state.loads["constructor"]] still finds the function every object
    inherits, so the guard does not reject the request: the handler
    answers 200, runs a simulation cycle, and the state changes (the
    lamp's energy has grown). *)
Theorem control_inherited_key_not_rejected :
  let srv := boot 1700000000000 in
  let body := [("loadId", JStr "constructor"); ("on", JBool true)] in
  has_key "constructor" (loads (state srv)) = false /\
  exists st',
    post_control 1700000000000 steady body srv
      = (ControlOk st', {| state := st'; ObjectPrototype_on := None |}) /\
    lamp_energy (state srv) = Some (Prim2SF 12.5%float) /\
    lamp_energy st' = Some (Prim2SF 12.508333333333333%float) /\
    st' <> state srv.
Proof.
  cbv zeta. split; [reflexivity|].
  eexists. split; [vm_compute; reflexivity|].
  split; [reflexivity|]. split; [vm_compute; reflexivity|].
  intros H. apply (f_equal lamp_energy) in H. vm_compute in H. discriminate H.
Qed.

(** The same happens for [__proto__], which moreover writes
    [Object.prototype.on]: from then on a request without an [on] field
    reads [true] for it. *)
Example control_proto_pollutes :
  let srv' := snd (post_control 1700000000000 steady
                     [("loadId", JStr "__proto__"); ("on", JBool true)]
                     (boot 1700000000000)) in
  ObjectPrototype_on srv' = Some true /\
  body_get srv' [("loadId", JStr "lamp")] "on" = JBool true.
Proof. cbv zeta. split; vm_compute; reflexivity. Qed.

(** ** C2: readings after a cycle *)

Lemma cycled_readings (random : nat -> float) (l l' : Load) :
  cycled random l l' ->
  (on l' = false -> current_A l' = 0%float /\ power_W l' = 0%float) /\
  (on l' = true -> power_W l' = (voltage_V l' * current_A l')%float).
Proof.
  intros Hc. pose proof (cycled_on _ _ _ Hc) as Hon. unfold cycled in Hc.
  destruct (on l) eqn:E.
  - destruct Hc as [j ->]. split; [intros H; rewrite H in Hon; discriminate|].
    reflexivity.
  - subst l'. split; [intros _; split; reflexivity|].
    intros H. rewrite H in Hon. discriminate.
Qed.

Lemma after_cycle_loads (srv' : Server) :
  after_cycle srv' ->
  exists random ls, loads (state srv') = readings_loop random 0 ls.
Proof.
  intros (now & random & srv & [->|(body & st & H)]).
  - exists random, (loads (state srv)). unfold get_status.
    pose proof (updateFakeReadings_loads now random (state srv)) as Hl.
    destruct (updateFakeReadings now random (state srv)) as [c st'].
    cbn [snd] in Hl. now destruct c.
  - unfold post_control in H.
    destruct (ToPropertyKey _) as [key|e]; [|discriminate].
    destruct (negb _); [discriminate|].
    match type of H with context [updateFakeReadings ?n ?r ?s] =>
      pose proof (updateFakeReadings_loads n r s) as Hl;
      destruct (updateFakeReadings n r s) as [c st'] end.
    cbn [snd] in Hl. destruct c; [|discriminate].
    injection H as _ <-. cbn [state]. eauto.
Qed.

(** C2, as the code has it.  After every simulation cycle (a status poll
    or an applied control request), every load that is off has
    [current_A = 0] and [power_W = 0], and every load that is on has
    [power_W] equal to the binary64 product [voltage_V * current_A]; so
    [|power_W - voltage_V * current_A|] is zero, below every positive
    tolerance, whenever that product is finite. *)
Theorem readings_consistent_after_cycle (srv' : Server) (id : string) (l : Load) :
  after_cycle srv' ->
  In (id, l) (loads (state srv')) ->
  (on l = false -> current_A l = 0%float /\ power_W l = 0%float) /\
  (on l = true ->
   power_W l = (voltage_V l * current_A l)%float /\
   forall eps : float,
     PrimFloat.ltb 0 eps = true ->
     PrimFloat.is_finite (voltage_V l * current_A l) = true ->
     PrimFloat.ltb (PrimFloat.abs (power_W l - voltage_V l * current_A l)) eps = true).
Proof.
  intros Hafter Hin.
  destruct (after_cycle_loads _ Hafter) as (random & ls & Hls).
  rewrite Hls in Hin.
  destruct (readings_loop_In _ _ _ _ _ Hin) as (l0 & _ & Hc).
  destruct (cycled_readings _ _ _ Hc) as [Hoff Hon].
  split; [exact Hoff|].
  intros H. specialize (Hon H). split; [exact Hon|].
  intros eps Heps Hfin. rewrite Hon, (F64Facts.sub_diag _ Hfin). exact Heps.
Qed.

Lemma readings_consistent_after_cycle_witness :
  (on lamp_after_first_poll = false ->
   current_A lamp_after_first_poll = 0%float /\ power_W lamp_after_first_poll = 0%float) /\
  (on lamp_after_first_poll = true ->
   power_W lamp_after_first_poll
     = (voltage_V lamp_after_first_poll * current_A lamp_after_first_poll)%float /\
   forall eps : float,
     PrimFloat.ltb 0 eps = true ->
     PrimFloat.is_finite (voltage_V lamp_after_first_poll * current_A lamp_after_first_poll) = true ->
     PrimFloat.ltb (PrimFloat.abs (power_W lamp_after_first_poll
                                   - voltage_V lamp_after_first_poll * current_A lamp_after_first_poll)) eps
       = true).
Proof.
  apply (readings_consistent_after_cycle first_poll "lamp" lamp_after_first_poll).
  - exists 1700000001000%float, steady, (boot 1700000000000). left. reflexivity.
  - vm_compute. left. reflexivity.
Defined.

Lemma after_cycle_polled (n : nat) : after_cycle (polled (S n)).
Proof.
  exists 1700000000000%float, highest, (polled n). left. reflexivity.
Qed.

(** C2 as stated fails once a reading has overflowed.  After 29000 status
    polls in which every noise draw was the largest possible, the lamp is
    on with [current_A] and [power_W] both [Infinity]; the difference
    [power_W - voltage_V * current_A] is then [NaN], and it is below no
    tolerance. *)
Lemma readings_overflow_counterexample :
  after_cycle (polled 29000) /\
  exists l,
    assoc "lamp" (loads (state (polled 29000))) = Some l /\
    on l = true /\
    power_W l = PrimFloat.infinity /\
    forall eps : float,
      PrimFloat.ltb (PrimFloat.abs (power_W l - voltage_V l * current_A l)) eps = false.
Proof.
  split.
  - replace 29000%nat with (S 28999) by reflexivity. apply after_cycle_polled.
  - exists {| name := "Desk Lamp"; on := true; voltage_V := 120.0;
              current_A := PrimFloat.infinity; power_W := PrimFloat.infinity;
              energy_Wh := PrimFloat.infinity |}.
    split; [vm_compute; reflexivity|].
    split; [reflexivity|]. split; [reflexivity|].
    intros eps. cbn [power_W voltage_V current_A].
    replace (PrimFloat.abs (PrimFloat.infinity - 120.0 * PrimFloat.infinity))%float
      with PrimFloat.nan by (vm_compute; reflexivity).
    apply F64Facts.ltb_nan_l.
Qed.

(** ** C7: teardown of the polling effect *)

Lemma torn_down_step (p : Poller) (ev : PollEvent) :
  torn_down p ->
  torn_down (poll_step p ev) /\
  view (poll_step p ev) = view p /\
  issued (poll_step p ev) = issued p.
Proof.
  intros [Hc Hi]. unfold torn_down.
  destruct ev as [| |call ok|call|call data clock|call]; cbn [poll_step].
  - rewrite Hi. auto.
  - cbn. auto.
  - destruct (stage_of call (in_flight p)) as [[|]|]; auto.
    destruct ok; [cbn; auto|].
    unfold fetch_failed. rewrite Hc. cbn. auto.
  - destruct (stage_of call (in_flight p)) as [[|]|]; auto.
    unfold fetch_failed. rewrite Hc. cbn. auto.
  - destruct (stage_of call (in_flight p)) as [[|]|]; auto.
    unfold fetch_succeeded. rewrite Hc. cbn. auto.
  - destruct (stage_of call (in_flight p)) as [[|]|]; auto.
    unfold fetch_failed. rewrite Hc. cbn. auto.
Qed.

Lemma torn_down_run (evs : list PollEvent) :
  forall p, torn_down p ->
    torn_down (poll_run p evs) /\
    view (poll_run p evs) = view p /\
    issued (poll_run p evs) = issued p.
Proof.
  induction evs as [|ev evs IH]; intros p Hp; cbn.
  - auto.
  - destruct (torn_down_step p ev Hp) as (Hp' & Hv & Hi).
    destruct (IH _ Hp') as (Hp'' & Hv' & Hi').
    unfold poll_run in *. rewrite Hv', Hi', Hv, Hi. auto.
Qed.

(** C7.  Whatever the poller is doing when the cleanup runs, and whatever
    happens afterwards (responses of requests sent before the cleanup,
    resolved or rejected at either [await]; timer events), the view keeps
    the [status], [error], [lastUpdated] and [loading] it had, the timer
    stays cleared and no further status request is sent. *)
Theorem teardown_discards_poll_responses (p : Poller) (evs : list PollEvent) :
  let p' := poll_run (poll_step p Teardown) evs in
  view p' = view p /\
  issued p' = issued p /\
  interval p' = false /\
  cancelled p' = true.
Proof.
  cbv zeta.
  assert (Ht : torn_down (poll_step p Teardown)) by (split; reflexivity).
  destruct (torn_down_run evs _ Ht) as ((Hc & Hi) & Hv & Hn).
  rewrite Hv, Hn. auto.
Qed.

(** A response in flight at teardown: mounted, the first request has
    reached [res.json()], the cleanup runs, then the body arrives. *)
Example late_snapshot_discarded :
  view (poll_run (mount initial_view)
          [FetchResolved 0 true; Teardown;
           JsonResolved 0 (json_of_state (initial_state 1700000000000)) 1700000000500])
  = initial_view.
Proof. reflexivity. Qed.

(** Without the cleanup the same response is applied. *)
Example snapshot_applied :
  view (poll_run (mount initial_view)
          [FetchResolved 0 true;
           JsonResolved 0 (json_of_state (initial_state 1700000000000)) 1700000000500])
  = {| status := json_of_state (initial_state 1700000000000); loading := false;
       error := None; lastUpdated := Some 1700000000500%float |}.
Proof. reflexivity. Qed.

(** ** C8: control commands from the client *)

Lemma assoc_replace_prop_same (key : string) (v : JsValue) (props : list (string * JsValue)) :
  has_key key props = true -> assoc key (replace_prop key v props) = Some v.
Proof.
  unfold has_key. induction props as [|[k x] rest IH]; simpl; [discriminate|].
  destruct (String.eqb key k) eqn:E; simpl; rewrite E; [reflexivity|exact IH].
Qed.

Lemma assoc_replace_prop_other (key k' : string) (v : JsValue) (props : list (string * JsValue)) :
  k' <> key -> assoc k' (replace_prop key v props) = assoc k' props.
Proof.
  intros Hne. induction props as [|[k x] rest IH]; simpl; [reflexivity|].
  destruct (String.eqb key k) eqn:E; simpl.
  - apply String.eqb_eq in E. subst k.
    destruct (String.eqb k' key) eqn:E'; [|reflexivity].
    apply String.eqb_eq in E'. contradiction.
  - now rewrite IH.
Qed.

Lemma assoc_app_absent {A : Type} (key : string) (l1 l2 : list (string * A)) :
  assoc key l1 = None -> assoc key (l1 ++ l2)%list = assoc key l2.
Proof.
  induction l1 as [|[k x] rest IH]; simpl; [reflexivity|].
  destruct (String.eqb key k); [discriminate|exact IH].
Qed.

Lemma assoc_app_present {A : Type} (key : string) (l1 l2 : list (string * A)) (v : A) :
  assoc key l1 = Some v -> assoc key (l1 ++ l2)%list = Some v.
Proof.
  induction l1 as [|[k x] rest IH]; simpl; [discriminate|].
  destruct (String.eqb key k); [trivial|exact IH].
Qed.

Lemma assoc_insert_index_same (i : Z) (key : string) (v : JsValue) (props : list (string * JsValue)) :
  assoc key props = None -> assoc key (insert_index i key v props) = Some v.
Proof.
  induction props as [|[k x] rest IH]; simpl.
  - now rewrite String.eqb_refl.
  - destruct (String.eqb key k) eqn:E; [discriminate|]. intros Hn.
    destruct (array_index k) as [j|]; [destruct (j <? i)%Z|]; simpl.
    + rewrite E. now apply IH.
    + now rewrite String.eqb_refl.
    + now rewrite String.eqb_refl.
Qed.

Lemma assoc_insert_index_other (i : Z) (key k' : string) (v : JsValue) (props : list (string * JsValue)) :
  k' <> key -> assoc k' (insert_index i key v props) = assoc k' props.
Proof.
  intros Hne. apply String.eqb_neq in Hne.
  induction props as [|[k x] rest IH]; simpl.
  - now rewrite Hne.
  - destruct (array_index k) as [j|]; [destruct (j <? i)%Z|]; simpl.
    + now rewrite IH.
    + now rewrite Hne.
    + now rewrite Hne.
Qed.

Lemma assoc_define_prop_same (key : string) (v : JsValue) (props : list (string * JsValue)) :
  assoc key (define_prop key v props) = Some v.
Proof.
  unfold define_prop. destruct (has_key key props) eqn:E.
  - now apply assoc_replace_prop_same.
  - unfold has_key in E. destruct (assoc key props) eqn:Ea; [discriminate|].
    destruct (array_index key).
    + now apply assoc_insert_index_same.
    + rewrite (assoc_app_absent _ _ _ Ea). simpl. now rewrite String.eqb_refl.
Qed.

Lemma assoc_define_prop_other (key k' : string) (v : JsValue) (props : list (string * JsValue)) :
  k' <> key -> assoc k' (define_prop key v props) = assoc k' props.
Proof.
  intros Hne. unfold define_prop. destruct (has_key key props).
  - now apply assoc_replace_prop_other.
  - destruct (array_index key).
    + now apply assoc_insert_index_other.
    + destruct (assoc k' props) eqn:Ea.
      * now apply assoc_app_present.
      * rewrite (assoc_app_absent _ _ _ Ea). simpl.
        apply String.eqb_neq in Hne. now rewrite Hne.
Qed.

(** C8, as the code has it.  A toggle of the fan sends nothing and leaves
    the view alone.  For any other load the request carries [!currentOn];
    when it succeeds, the load's local [on] flag becomes [!currentOn] at
    once, its other fields and the other loads stay as they are, and the
    error is cleared; when it fails, the error is set to "Failed to send
    command" and the status is left exactly as it was: the flag is only
    ever written after a success, so there is nothing to roll back. *)
Theorem toggle_updates_after_success_only
    (loadId : string) (currentOn : JsValue) (v : View)
    (props ls : list (string * JsValue)) :
  status v = JObj props ->
  assoc "loads" props = Some (JObj ls) ->
  (* the fan *)
  (toggleLoad_request "fan" currentOn = None /\
   forall outcome, toggleLoad "fan" currentOn outcome v = Normal v) /\
  (loadId <> "fan" ->
   toggleLoad_request loadId currentOn
     = Some {| request_loadId := loadId; request_on := negb (ToBoolean currentOn) |} /\
   (* success *)
   (exists props' ls' load',
       toggleLoad loadId currentOn (ControlResolved true) v
         = Normal {| status := JObj props'; loading := loading v; error := None;
                     lastUpdated := lastUpdated v |} /\
       assoc "loads" props' = Some (JObj ls') /\
       (forall k, k <> "loads" -> assoc k props' = assoc k props) /\
       assoc loadId ls' = Some (JObj load') /\
       (forall k, k <> loadId -> assoc k ls' = assoc k ls) /\
       assoc "on" load' = Some (JBool (negb (ToBoolean currentOn))) /\
       (forall f, f <> "on" -> assoc f load' = assoc f (spread_at (JObj ls) loadId))) /\
   (* failure *)
   (forall outcome, outcome = ControlResolved false \/ outcome = ControlRejected ->
      toggleLoad loadId currentOn outcome v
        = Normal {| status := status v; loading := loading v;
                    error := Some "Failed to send command";
                    lastUpdated := lastUpdated v |})).
Proof.
  intros Hst Hloads. split; [split; [reflexivity|intros; reflexivity]|].
  intros Hne. apply String.eqb_neq in Hne.
  unfold toggleLoad, toggleLoad_request. rewrite Hne.
  split; [reflexivity|]. split.
  - unfold toggle_updater. rewrite Hst. cbn [ToBoolean negb Get own_props bindC].
    rewrite Hloads. cbn [bindC request_on spread own_props].
    eexists _, _, _. split; [reflexivity|].
    split; [apply assoc_define_prop_same|].
    split; [intros k Hk; now apply assoc_define_prop_other|].
    split; [apply assoc_define_prop_same|].
    split; [intros k Hk; now apply assoc_define_prop_other|].
    split; [apply assoc_define_prop_same|].
    intros f Hf. now apply assoc_define_prop_other.
  - intros outcome [-> | ->]; reflexivity.
Qed.

Lemma toggle_updates_after_success_only_witness :
  (toggleLoad_request "fan" (JBool true) = None /\
   forall outcome, toggleLoad "fan" (JBool true) outcome synced_view = Normal synced_view) /\
  ("lamp" <> "fan" ->
   toggleLoad_request "lamp" (JBool true)
     = Some {| request_loadId := "lamp"; request_on := negb (ToBoolean (JBool true)) |} /\
   (exists props' ls' load',
       toggleLoad "lamp" (JBool true) (ControlResolved true) synced_view
         = Normal {| status := JObj props'; loading := loading synced_view; error := None;
                     lastUpdated := lastUpdated synced_view |} /\
       assoc "loads" props' = Some (JObj ls') /\
       (forall k, k <> "loads" ->
          assoc k props' = assoc k (own_props (json_of_state (initial_state 1700000000000)))) /\
       assoc "lamp" ls' = Some (JObj load') /\
       (forall k, k <> "lamp" -> assoc k ls' = assoc k synced_loads) /\
       assoc "on" load' = Some (JBool (negb (ToBoolean (JBool true)))) /\
       (forall f, f <> "on" -> assoc f load' = assoc f (spread_at (JObj synced_loads) "lamp"))) /\
   (forall outcome, outcome = ControlResolved false \/ outcome = ControlRejected ->
      toggleLoad "lamp" (JBool true) outcome synced_view
        = Normal {| status := status synced_view; loading := loading synced_view;
                    error := Some "Failed to send command";
                    lastUpdated := lastUpdated synced_view |})).
Proof.
  apply (toggle_updates_after_success_only "lamp" (JBool true) synced_view
           (own_props (json_of_state (initial_state 1700000000000))) synced_loads);
    reflexivity.
Defined.

(** C8 as stated fails on a failed request: the lamp is on, the operator
    toggles it (the new value is [false]), the request fails; the view
    reports the command error, and the lamp's flag is still [true], not
    the new value. *)
Lemma toggle_failure_counterexample :
  shown_flag synced_view "lamp" = JBool true /\
  toggleLoad_request "lamp" (JBool true)
    = Some {| request_loadId := "lamp"; request_on := false |} /\
  exists v',
    toggleLoad "lamp" (JBool true) ControlRejected synced_view = Normal v' /\
    error v' = Some "Failed to send command" /\
    shown_flag v' "lamp" = JBool true /\
    shown_flag v' "lamp" <> JBool false.
Proof.
  split; [reflexivity|]. split; [reflexivity|].
  eexists. split; [reflexivity|]. split; [reflexivity|]. split; [reflexivity|].
  cbn. discriminate.
Qed.

(** On success the flag does change at once. *)
Example toggle_success_flips_flag :
  option_map (fun v' => shown_flag v' "lamp")
    (match toggleLoad "lamp" (JBool true) (ControlResolved true) synced_view with
     | Normal v' => Some v'
     | Throw _ => None
     end) = Some (JBool false).
Proof. vm_compute. reflexivity. Qed.

(** ** C4: the derived metrics *)

Lemma json_number_or_zero (acc p : float) :
  js_add (JNum acc) (js_or (json_number p) (JNum 0)) = Normal (JNum (acc + wire_number p)).
Proof.
  unfold wire_number, json_number.
  destruct (PrimFloat.is_finite p) eqn:Hfin; [|reflexivity].
  destruct (PrimFloat.is_zero p) eqn:Hz; [reflexivity|].
  unfold js_or. cbn [ToBoolean]. rewrite Hz.
  unfold PrimFloat.is_finite in Hfin.
  destruct (PrimFloat.is_nan p); [discriminate|]. reflexivity.
Qed.

Lemma filter_not_fan_json (ls : list (string * Load)) :
  filter not_fan (map (fun '(id, l) => (id, json_of_load l)) ls)
  = map (fun '(id, l) => (id, json_of_load l)) (monitored ls).
Proof.
  induction ls as [|[id l] rest IH]; simpl; [reflexivity|].
  unfold not_fan at 1. cbn [fst]. destruct (negb (String.eqb id "fan")); simpl; now rewrite IH.
Qed.

Lemma sum_over_json (ls : list (string * Load)) :
  forall acc : float,
    foldC (fun sum entry => p <- Get (snd entry) "power_W" ;; js_add sum (js_or p (JNum 0)))
          (map (fun '(id, l) => (id, json_of_load l)) ls) (JNum acc)
    = Normal (JNum (fold_left (fun s entry => (s + wire_number (power_W (snd entry)))%float) ls acc)).
Proof.
  induction ls as [|[id l] rest IH]; intros acc; [reflexivity|].
  cbn [map foldC snd]. change (Get (json_of_load l) "power_W") with (Normal (json_number (power_W l))).
  cbn [bindC]. rewrite json_number_or_zero. cbn [bindC fold_left snd]. apply IH.
Qed.

Lemma filter_on_json (ls : list (string * Load)) :
  exists kept,
    filter_on (map (fun '(id, l) => (id, json_of_load l)) ls) = Normal kept /\
    List.length kept = count_on ls.
Proof.
  unfold count_on. induction ls as [|[id l] rest IH]; [now exists []|].
  destruct IH as (kept & Hk & Hlen).
  cbn [map filter_on snd]. change (Get (json_of_load l) "on") with (Normal (JBool (on l))).
  cbn [bindC]. rewrite Hk. cbn [bindC ToBoolean filter snd].
  destruct (on l); eexists; (split; [reflexivity|]); simpl; now rewrite Hlen.
Qed.

Lemma threshold_passed_through (x : float) :
  js_nullish (json_number x) JNull = json_number x.
Proof. unfold json_number. now destruct (PrimFloat.is_finite x). Qed.


(** ** C5: energy accumulation *)

Lemma assoc_In {A : Type} (key : string) (ls : list (string * A)) (v : A) :
  assoc key ls = Some v -> In (key, v) ls.
Proof.
  induction ls as [|[k x] rest IH]; simpl; [discriminate|].
  destruct (String.eqb_spec key k) as [->|Hne].
  - intros [= ->]. now left.
  - intros H. right. now apply IH.
Qed.

Lemma plausible_off (l : Load) : plausible l -> plausible (reading_off l).
Proof.
  intros (Hf & Hv & _ & He). repeat split; try assumption; reflexivity.
Qed.

Lemma plausible_set_on (b : bool) (l : Load) : plausible l -> plausible (set_on b l).
Proof. intros H. exact H. Qed.

(** One pass over a load that is on: the readings stay plausible and the
    energy does not decrease. *)
Lemma reading_on_energy (r : float) (l : Load) :
  plausible l -> F64.unit_interval r ->
  plausible (reading_on r l) /\
  PrimFloat.leb (energy_Wh l) (energy_Wh (reading_on r l)) = true.
Proof.
  intros (Hf & Hv & Hc & He) Hr.
  destruct (F64Lit.noise_factor r Hr) as [Ft Ht].
  destruct (F64Lit.positive_finite (voltage_V l) Hf Hv) as [Hfv Hvpos].
  destruct (F64Lit.positive_finite 3600 eq_refl eq_refl) as [Hf36 Hp36].
  (* the new current *)
  assert (Hcur : F64.nonneg (current_A (reading_on r l))).
  { cbn [reading_on current_A]. apply F64Lit.Math_max_0_nonneg.
    apply (F64Facts.mul_nonneg (current_A l) _ Hc Ft). lra. }
  (* the new power, and the energy increment *)
  assert (Hpow : F64.nonneg (power_W (reading_on r l))).
  { cbn [reading_on power_W]. now apply (F64Facts.mul_nonneg _ (voltage_V l) Hcur Hfv Hvpos). }
  assert (Hinc : F64.nonneg (power_W (reading_on r l) / 3600)).
  { now apply F64Facts.div_nonneg. }
  destruct (F64Facts.add_nonneg (energy_Wh l) _ He Hinc) as (Hsum & Hmono & _).
  split; [|exact Hmono].
  repeat split; try assumption.
Qed.

Lemma cycled_plausible (random : nat -> float) (l l' : Load) :
  (forall k, F64.unit_interval (random k)) ->
  plausible l -> cycled random l l' ->
  plausible l' /\
  (on l' = true -> PrimFloat.leb (energy_Wh l) (energy_Wh l') = true) /\
  (on l' = false -> energy_Wh l' = energy_Wh l).
Proof.
  intros Hrand Hl Hc. pose proof (cycled_on _ _ _ Hc) as Hon.
  unfold cycled in Hc. destruct (on l) eqn:E.
  - destruct Hc as [j ->]. destruct (reading_on_energy (random j) l Hl (Hrand j)) as [Hp Hm].
    split; [exact Hp|]. split; [intros _; exact Hm|].
    intros H. rewrite H in Hon. discriminate.
  - subst l'. split; [now apply plausible_off|].
    split; [|reflexivity]. intros H. rewrite H in Hon. discriminate.
Qed.

Lemma update_load_In (key : string) (f : Load -> Load) (ls : list (string * Load)) :
  forall id l', In (id, l') (update_load key f ls) ->
    exists l, In (id, l) ls /\ (l' = l \/ l' = f l).
Proof.
  induction ls as [|[k x] rest IH]; intros id l'; simpl; [tauto|].
  destruct (String.eqb key k).
  - intros [H|H].
    + inversion H; subst. exists x. split; [now left|now right].
    + exists l'. split; [now right|now left].
  - intros [H|H].
    + inversion H; subst. exists l'. split; [now left|now left].
    + destruct (IH _ _ H) as (l & Hin & Hl). exists l. split; [now right|exact Hl].
Qed.

(** What a control request leaves in [state.loads]: the loads as they
    were, or the loads after the write and one cycle. *)
Lemma post_control_loads (now : float) (random : nat -> float)
    (body : list (string * JsValue)) (srv : Server) :
  snd (post_control now random body srv) = srv \/
  exists key r b,
    loads (state (snd (post_control now random body srv)))
    = readings_loop random 0 (loads (state (write_on srv key r b))).
Proof.
  unfold post_control. destruct (ToPropertyKey _) as [key|e]; [|now left].
  destruct (negb _); [now left|]. right.
  exists key, (resolve srv key), (ToBoolean (body_get srv body "on")).
  match goal with |- context [updateFakeReadings ?n ?r ?s] =>
    pose proof (updateFakeReadings_loads n r s) as Hl;
    destruct (updateFakeReadings n r s) as [c st'] end.
  cbn [snd] in Hl. now destruct c.
Qed.

Lemma write_on_loads (srv : Server) (key : string) (r : Resolved) (b : bool) :
  loads (state (write_on srv key r b)) = loads (state srv) \/
  loads (state (write_on srv key r b)) = update_load key (set_on b) (loads (state srv)).
Proof.
  destruct r as [l|k|v|]; cbn [write_on]; auto.
  destruct (String.eqb k "__proto__"); auto.
Qed.

Lemma get_status_loads (now : float) (random : nat -> float) (srv : Server) :
  loads (state (snd (get_status now random srv))) = readings_loop random 0 (loads (state srv)).
Proof.
  unfold get_status. pose proof (updateFakeReadings_loads now random (state srv)) as Hl.
  destruct (updateFakeReadings now random (state srv)) as [c st']. cbn [snd] in Hl.
  now destruct c.
Qed.

Lemma write_on_plausible (srv : Server) (key : string) (r : Resolved) (b : bool) :
  (forall id l, In (id, l) (loads (state srv)) -> plausible l) ->
  forall id l, In (id, l) (loads (state (write_on srv key r b))) -> plausible l.
Proof.
  intros H id l Hin. destruct (write_on_loads srv key r b) as [E|E]; rewrite E in Hin.
  - now apply (H id).
  - destruct (update_load_In _ _ _ _ _ Hin) as (l0 & Hin0 & [->| ->]).
    + now apply (H id).
    + apply plausible_set_on. now apply (H id).
Qed.

Lemma reachable_plausible (srv : Server) :
  reachable srv -> forall id l, In (id, l) (loads (state srv)) -> plausible l.
Proof.
  induction 1 as [now|now random srv Hreach IH Hrand|now random body srv Hreach IH Hrand];
    intros id l Hin.
  - cbn in Hin. destruct Hin as [H|[H|[H|[]]]]; inversion H; subst; repeat split.
  - rewrite get_status_loads in Hin.
    destruct (readings_loop_In _ _ _ _ _ Hin) as (l0 & Hin0 & Hc).
    now apply (cycled_plausible random l0 l Hrand (IH _ _ Hin0) Hc).
  - destruct (post_control_loads now random body srv) as [E|(key & r & b & E)].
    + rewrite E in Hin. now apply (IH id).
    + rewrite E in Hin.
      destruct (readings_loop_In _ _ _ _ _ Hin) as (l0 & Hin0 & Hc).
      apply (cycled_plausible random l0 l Hrand); [|exact Hc].
      now apply (write_on_plausible srv key r b IH id).
Qed.

(** C5.  On every server that can arise, for every status poll and every
    control request: a load that is on after the request has an
    [energy_Wh] greater than or equal to the one it had before, and a load
    that is off has the same [energy_Wh]. *)
Theorem energy_never_decreases
    (srv srv' : Server) (now : float) (random : nat -> float)
    (key : string) (l l' : Load) :
  reachable srv ->
  (forall k, F64.unit_interval (random k)) ->
  srv' = snd (get_status now random srv) \/
    (exists body, srv' = snd (post_control now random body srv)) ->
  assoc key (loads (state srv)) = Some l ->
  assoc key (loads (state srv')) = Some l' ->
  (on l' = true -> PrimFloat.leb (energy_Wh l) (energy_Wh l') = true) /\
  (on l' = false -> energy_Wh l' = energy_Wh l).
Proof.
  intros Hreach Hrand Hstep Hl Hl'.
  pose proof (reachable_plausible srv Hreach) as Hpl.
  assert (Hlp : plausible l) by (apply (Hpl key); now apply assoc_In).
  assert (Hcyc : forall ls l1,
            loads (state srv') = readings_loop random 0 ls ->
            assoc key ls = Some l1 -> plausible l1 -> energy_Wh l1 = energy_Wh l ->
            (on l' = true -> PrimFloat.leb (energy_Wh l) (energy_Wh l') = true) /\
            (on l' = false -> energy_Wh l' = energy_Wh l)).
  { intros ls l1 E H1 Hp1 He. rewrite E in Hl'.
    pose proof (readings_loop_assoc random key ls 0) as Ha. rewrite H1 in Ha.
    destruct Ha as (l'' & Ha & Hc). rewrite Ha in Hl'. injection Hl' as ->.
    destruct (cycled_plausible random l1 l' Hrand Hp1 Hc) as (_ & Hon & Hoff).
    rewrite He in Hon, Hoff. auto. }
  destruct Hstep as [->|[body ->]].
  - apply (Hcyc (loads (state srv)) l); auto. apply get_status_loads.
  - destruct (post_control_loads now random body srv) as [E|(k & r & b & E)].
    + rewrite E in Hl'. rewrite Hl in Hl'. injection Hl' as <-.
      split; [|reflexivity]. intros _. apply F64Lit.leb_refl. apply Hlp.
    + destruct (write_on_loads srv k r b) as [Ew|Ew]; rewrite Ew in E.
      * now apply (Hcyc (loads (state srv)) l).
      * destruct (string_dec key k) as [->|Hne].
        -- apply (Hcyc _ (set_on b l) E); auto.
           now apply assoc_update_load_same.
        -- apply (Hcyc _ l E); auto.
           now rewrite assoc_update_load_other.
Qed.

Lemma steady_unit_interval : forall k, F64.unit_interval (steady k).
Proof. intros k. split; reflexivity. Qed.

Lemma energy_never_decreases_witness :
  (on lamp_after_first_poll = true ->
   PrimFloat.leb (energy_Wh lamp_at_boot) (energy_Wh lamp_after_first_poll) = true) /\
  (on lamp_after_first_poll = false ->
   energy_Wh lamp_after_first_poll = energy_Wh lamp_at_boot).
Proof.
  apply (energy_never_decreases (boot 1700000000000) first_poll 1700000001000 steady "lamp"
           lamp_at_boot lamp_after_first_poll).
  - apply reach_boot.
  - exact steady_unit_interval.
  - left. reflexivity.
  - reflexivity.
  - vm_compute. reflexivity.
Defined.

(** ** C10: what the pie chart makes of each [power_W] *)

Module Pie.
Import F64 F64Facts F64Lit.
#[local] Open Scope R_scope.

Lemma Math_max_0_cases (n : float) :
  finite n ->
  (Number.Math_max 0 n = n /\ 0 < val n) \/ (Number.Math_max 0 n = 0%float /\ val n <= 0).
Proof.
  intros F. unfold Number.Math_max. rewrite (finite_not_nan n F).
  change (PrimFloat.is_nan 0) with false. cbn [orb].
  destruct (PrimFloat.ltb 0 n) eqn:E.
  - left. split; [reflexivity|]. rewrite <- val_zero. apply ltb_val; auto. exact finite_zero.
  - right. assert (Hle : val n <= 0).
    { destruct (Rle_or_lt (val n) 0) as [H|H]; [exact H|].
      rewrite <- val_zero in H. apply (ltb_val 0 n finite_zero F) in H. congruence. }
    split; [|exact Hle]. now destruct (PrimFloat.ltb n 0).
Qed.

Lemma ltb_0_truthy (n : float) :
  PrimFloat.ltb 0 n = true -> (PrimFloat.is_zero n || PrimFloat.is_nan n)%bool = false.
Proof.
  rewrite is_zero_spec, is_nan_spec, ltb_spec. change (Prim2SF 0) with (S754_zero false).
  destruct (Prim2SF n) as [s|s| |s m e]; cbn; try discriminate; reflexivity.
Qed.

Lemma contribution_plain (p : JsValue) :
  plain_power p ->
  ToNumber (js_or p (JNum 0)) = Normal
    (match js_or p (JNum 0) with JNum n => n | _ => 0%float end) /\
  Number.Math_max 0 (match js_or p (JNum 0) with JNum n => n | _ => 0%float end) = clamped p /\
  finite (clamped p) /\ nonneg (clamped p).
Proof.
  destruct p as [| | |n| | |]; cbn [plain_power]; try contradiction; intros H.
  - repeat split.
  - repeat split.
  - apply finite_is_finite in H. unfold js_or. cbn [ToBoolean clamped].
    destruct (PrimFloat.ltb 0 n) eqn:E.
    + rewrite (ltb_0_truthy n E). cbn [negb]. split; [reflexivity|].
      destruct (Math_max_0_cases n H) as [[Hm Hv]|[Hm Hv]].
      * rewrite Hm. split; [reflexivity|]. split; [exact H|].
        apply nonneg_finite_val; auto. lra.
      * exfalso. apply (ltb_val 0 n finite_zero H) in E. rewrite val_zero in E. lra.
    + destruct (negb (PrimFloat.is_zero n || PrimFloat.is_nan n)).
      * split; [reflexivity|].
        destruct (Math_max_0_cases n H) as [[Hm Hv]|[Hm Hv]].
        -- exfalso. rewrite <- val_zero in Hv. apply (ltb_val 0 n finite_zero H) in Hv. congruence.
        -- rewrite Hm. repeat split.
      * repeat split.
Qed.

Lemma pie_entry_plain (id : string) (props : list (string * JsValue)) :
  plain_power (GetOpt (JObj props) "power_W") ->
  exists e,
    pie_entry (id, JObj props) = Normal e /\
    Entry.id e = id /\
    Entry.power e = clamped (GetOpt (JObj props) "power_W").
Proof.
  intros H. destruct (contribution_plain _ H) as (Hn & Hm & _).
  unfold pie_entry. cbn [Get bindC own_props].
  change (match assoc "power_W" props with Some x => x | None => JUndefined end)
    with (GetOpt (JObj props) "power_W").
  rewrite Hn. cbn [bindC]. eexists. split; [reflexivity|]. cbn. auto.
Qed.

Lemma leb_trans_nonneg (a b c : float) :
  nonneg a -> nonneg b -> nonneg c ->
  PrimFloat.leb a b = true -> PrimFloat.leb b c = true -> PrimFloat.leb a c = true.
Proof.
  intros Ha Hb Hc Hab Hbc.
  destruct (nonneg_cases c Hc) as [[Fc _]|Hic].
  - assert (Fb : finite b).
    { destruct (nonneg_cases b Hb) as [[F _]|Hi]; [exact F|].
      rewrite leb_spec, Hi in Hbc. unfold finite in Fc.
      destruct (Prim2SF c); try contradiction; discriminate. }
    assert (Fa : finite a).
    { destruct (nonneg_cases a Ha) as [[F _]|Hi]; [exact F|].
      rewrite leb_spec, Hi in Hab. unfold finite in Fb.
      destruct (Prim2SF b); try contradiction; discriminate. }
    apply (leb_val a b Fa Fb) in Hab. apply (leb_val b c Fb Fc) in Hbc.
    apply (leb_val a c Fa Fc). lra.
  - rewrite leb_spec, Hic. apply nonneg_SF in Ha.
    destruct (Prim2SF a) as [s|s| |s m e]; try contradiction; destruct s; try contradiction;
      reflexivity.
Qed.

(** The running total never decreases and dominates every summand. *)
Lemma sum_from_bounds (es : list Entry.t) :
  forall acc, nonneg acc -> clean es ->
    nonneg (sum_from acc es) /\
    PrimFloat.leb acc (sum_from acc es) = true /\
    (forall e, In e es -> PrimFloat.leb (Entry.power e) (sum_from acc es) = true).
Proof.
  induction es as [|e0 rest IH]; intros acc Hacc Hclean; cbn [sum_from fold_left].
  - split; [exact Hacc|]. split; [now apply leb_refl|]. intros e [].
  - destruct (Hclean e0 (or_introl eq_refl)) as [F0 N0].
    destruct (add_nonneg acc (Entry.power e0) Hacc N0) as (Hs & H1 & H2).
    destruct (IH (acc + Entry.power e0)%float Hs) as (Ht & Hmono & Hall).
    { intros e He. apply Hclean. now right. }
    fold (sum_from (acc + Entry.power e0)%float rest) in *.
    split; [exact Ht|]. split.
    + now apply (leb_trans_nonneg acc (acc + Entry.power e0)%float).
    + intros e [<-|He].
      * now apply (leb_trans_nonneg (Entry.power e0) (acc + Entry.power e0)%float).
      * now apply Hall.
Qed.

(** A share of a total that is above the placeholder threshold. *)
Lemma fraction_bounds (p total : float) :
  finite p -> nonneg p -> nonneg total ->
  PrimFloat.leb p total = true ->
  PrimFloat.leb total 0.0001 = false ->
  PrimFloat.leb 0 (p / total) = true /\ PrimFloat.leb (p / total) 1 = true.
Proof.
  intros Fp Np Nt Hle Hbig.
  assert (F4 : finite 0.0001%float) by now apply finite_literal.
  destruct (nonneg_cases total Nt) as [[Ft Hvt]|Hinf].
  - assert (Hpos : 0 < val total).
    { destruct (Rle_or_lt (val total) (val 0.0001%float)) as [H|H].
      - apply (leb_val total _ Ft F4) in H. congruence.
      - destruct (positive_finite 0.0001 eq_refl eq_refl) as [_ H4]. lra. }
    apply (leb_val p total Fp Ft) in Hle.
    apply (nonneg_finite_val p Fp) in Np.
    pose proof (div_rounds p total Fp Ft ltac:(lra)) as Hr.
    assert (Hq : 0 <= val p / val total <= 1).
    { split.
      - apply Rmult_le_pos; [exact Np|]. apply Rlt_le, Rinv_0_lt_compat, Hpos.
      - apply (Rmult_le_reg_r (val total)); [exact Hpos|]. unfold Rdiv.
        rewrite Rmult_assoc, Rinv_l by lra. lra. }
    split.
    + apply (rounds_ge _ _ 0%float Hr finite_zero). rewrite val_zero. lra.
    + apply (rounds_le _ _ 1%float Hr); [now apply finite_literal|]. rewrite val_one. lra.
  - rewrite !leb_spec, div_spec, Hinf. unfold finite in Fp. unfold SF64div.
    change (Prim2SF 0) with (S754_zero false).
    change (Prim2SF 1) with (S754_finite false 4503599627370496 (-52)).
    destruct (Prim2SF p) as [s|s| |s m e]; try contradiction; cbn; destruct s; auto.
Qed.

Lemma slices_from_In (total : float) (es : list Entry.t) :
  forall start s, In s (slices_from total start es) ->
    exists e, In e es /\
      Slice.fraction s = (Entry.power e / total)%float /\
      Slice.value s = Entry.power e /\ Slice.key s = Entry.id e.
Proof.
  induction es as [|e0 rest IH]; intros start s; cbn [slices_from]; [intros []|].
  intros [<-|H].
  - exists e0. split; [now left|]. auto.
  - destruct (IH _ _ H) as (e & He & Hf). exists e. split; [now right|exact Hf].
Qed.

Lemma mapC_plain (entries : list (string * JsValue)) :
  (forall id l, In (id, l) entries ->
      exists props, l = JObj props /\ plain_power (GetOpt l "power_W")) ->
  exists es,
    mapC pie_entry entries = Normal es /\
    List.length es = List.length entries /\
    clean es /\
    (forall e, In e es ->
       exists id l, In (id, l) entries /\ Entry.id e = id /\
                    Entry.power e = clamped (GetOpt l "power_W")).
Proof.
  induction entries as [|[id l] rest IH]; intros H.
  - exists []. split; [reflexivity|]. split; [reflexivity|]. split; intros e [].
  - destruct (H id l (or_introl eq_refl)) as (props & -> & Hp).
    destruct (pie_entry_plain id props Hp) as (e0 & He0 & Hid & Hpow).
    destruct IH as (es & Hes & Hlen & Hclean & Hsrc).
    { intros id' l' Hin. apply (H id' l'). now right. }
    exists (e0 :: es). cbn [mapC]. rewrite He0. cbn [bindC]. rewrite Hes. cbn [bindC].
    split; [reflexivity|]. split; [cbn; now rewrite Hlen|]. split.
    + intros e [<-|He]; [|now apply Hclean].
      rewrite Hpow. now destruct (contribution_plain _ Hp) as (_ & _ & Hf & Hn).
    + intros e [<-|He].
      * exists id, (JObj props). split; [now left|]. auto.
      * destruct (Hsrc e He) as (id' & l' & Hin & Hrest).
        exists id', l'. split; [now right|exact Hrest].
Qed.

End Pie.

(** C10, as the code has it.  For a loads object whose monitored loads are
    objects with a [power_W] that is absent, [null] or a finite number:
    a load contributes its [power_W] when that is positive and 0
    otherwise, and every slice produced has a fraction in [[0, 1]]. *)
Theorem pie_fractions_in_unit_interval (entries : list (string * JsValue)) :
  (forall id l, In (id, l) entries -> id <> "fan" ->
      exists props, l = JObj props /\ plain_power (GetOpt l "power_W")) ->
  exists es,
    mapC pie_entry (filter not_fan entries) = Normal es /\
    (forall e, In e es ->
       exists id l, In (id, l) entries /\ id <> "fan" /\ Entry.id e = id /\
                    Entry.power e = clamped (GetOpt l "power_W")) /\
    PowerPieChart (JObj entries)
      = Normal (if PrimFloat.leb (pie_total es) 0.0001 then Placeholder
                else Chart (pie_total es) (slices_from (pie_total es) top_angle es)) /\
    (forall total slices s,
       PowerPieChart (JObj entries) = Normal (Chart total slices) ->
       In s slices ->
       PrimFloat.leb 0 (Slice.fraction s) = true /\
       PrimFloat.leb (Slice.fraction s) 1 = true).
Proof.
  intros Hplain.
  destruct (Pie.mapC_plain (filter not_fan entries)) as (es & Hes & Hlen & Hclean & Hsrc).
  { intros id l Hin. apply filter_In in Hin. destruct Hin as [Hin Hnf].
    apply (Hplain id l Hin). unfold not_fan in Hnf. cbn [fst] in Hnf.
    intros ->. discriminate. }
  assert (Hchart : PowerPieChart (JObj entries)
      = Normal (if PrimFloat.leb (pie_total es) 0.0001 then Placeholder
                else Chart (pie_total es) (slices_from (pie_total es) top_angle es))).
  { unfold PowerPieChart. cbn [ToBoolean negb Object_entries own_props bindC].
    rewrite Hes. cbn [bindC]. now destruct (PrimFloat.leb (pie_total es) 0.0001). }
  exists es. split; [exact Hes|]. split; [|split; [exact Hchart|]].
  - intros e He. destruct (Hsrc e He) as (id & l & Hin & Hid & Hpow).
    apply filter_In in Hin. destruct Hin as [Hin Hnf].
    exists id, l. split; [exact Hin|]. split; [|auto].
    unfold not_fan in Hnf. cbn [fst] in Hnf. intros ->. discriminate.
  - intros total slices s Heq Hs. rewrite Hchart in Heq.
    destruct (PrimFloat.leb (pie_total es) 0.0001) eqn:Eth; [discriminate|].
    injection Heq as <- <-.
    destruct (Pie.slices_from_In _ _ _ _ Hs) as (e & He & Hf & _).
    rewrite Hf. destruct (Hclean e He) as [Fe Ne].
    destruct (Pie.sum_from_bounds es 0%float eq_refl Hclean) as (Nt & _ & Hall).
    apply Pie.fraction_bounds; auto.
Qed.

(** ** C6: the slices partition the circle *)

Module PieSum.
Import F64 F64Facts F64Lit Pie.
#[local] Open Scope R_scope.






Lemma Rabs_le_inv (a b : R) : Rabs a <= b -> - b <= a <= b.
Proof. unfold Rabs. destruct (Rcase_abs a); intros; lra. Qed.


Lemma nonneg_le_finite (a t : float) :
  nonneg a -> PrimFloat.leb a t = true -> finite t -> finite a.
Proof.
  intros Ha Hle Ft. destruct (nonneg_cases a Ha) as [[F _]|Hi]; [exact F|].
  rewrite leb_spec, Hi in Hle. unfold finite in Ft.
  destruct (Prim2SF t); try contradiction; discriminate.
Qed.









End PieSum.


(** The loads of the seed snapshot: lamp 30 W, charger 6 W, fan off. *)
Lemma synced_loads_plain :
  forall id l, In (id, l) synced_loads -> id <> "fan" ->
    exists props, l = JObj props /\ plain_power (GetOpt l "power_W").
Proof.
  intros id l Hin _. cbn in Hin.
  destruct Hin as [H|[H|[H|[]]]]; inversion H; subst; eexists; (split; [reflexivity|]);
    reflexivity.
Qed.


(** The chart of the seed snapshot: 36 W in two slices of 5/6 and 1/6. *)
Example seed_chart :
  option_map (fun v =>
                match v with
                | Chart total slices => (total, map Slice.fraction slices)
                | _ => (0%float, [])
                end)
    (match PowerPieChart (JObj synced_loads) with Normal v => Some v | Throw _ => None end)
  = Some (36%float, [0.83333333333333337%float; 0.16666666666666666%float]).
Proof. vm_compute. reflexivity. Qed.


Lemma pie_fractions_in_unit_interval_witness :
  exists es,
    mapC pie_entry (filter not_fan synced_loads) = Normal es /\
    (forall e, In e es ->
       exists id l, In (id, l) synced_loads /\ id <> "fan" /\ Entry.id e = id /\
                    Entry.power e = clamped (GetOpt l "power_W")) /\
    PowerPieChart (JObj synced_loads)
      = Normal (if PrimFloat.leb (pie_total es) 0.0001 then Placeholder
                else Chart (pie_total es) (slices_from (pie_total es) top_angle es)) /\
    (forall total slices s,
       PowerPieChart (JObj synced_loads) = Normal (Chart total slices) ->
       In s slices ->
       PrimFloat.leb 0 (Slice.fraction s) = true /\
       PrimFloat.leb (Slice.fraction s) 1 = true).
Proof.
  apply (pie_fractions_in_unit_interval synced_loads). exact synced_loads_plain.
Defined.

(** C10 as stated fails for a [power_W] that is not a number: the string
    "abc" is truthy, so [|| 0] keeps it and [Math.max] turns it into
    [NaN]; the load contributes [NaN], not 0, the chart is drawn, and
    the slice's fraction is [NaN], outside [[0, 1]]. *)
Lemma pie_non_numeric_counterexample :
  exists total s,
    PowerPieChart (JObj garbled_loads) = Normal (Chart total [s]) /\
    PrimFloat.is_nan (Slice.value s) = true /\
    PrimFloat.is_nan (Slice.fraction s) = true /\
    PrimFloat.leb 0 (Slice.fraction s) = false /\
    PrimFloat.leb (Slice.fraction s) 1 = false.
Proof.
  eexists. eexists. split; [vm_compute; reflexivity|]. repeat split.
Qed.

(** A boolean [power_W] counts as 1 W. *)
Example pie_boolean_power :
  option_map Entry.power
    (match pie_entry ("lamp", JObj [("power_W", JBool true)]) with
     | Normal e => Some e
     | Throw _ => None
     end) = Some 1%float.
Proof. reflexivity. Qed.

(** * Further properties of the code *)

(** ** The server: what no request changes *)

Lemma cycled_configuration (random : nat -> float) (l l' : Load) :
  cycled random l l' ->
  name l' = name l /\ on l' = on l /\ voltage_V l' = voltage_V l.
Proof.
  unfold cycled. destruct (on l) eqn:E.
  - intros [j ->]. cbn. auto.
  - intros ->. cbn. auto.
Qed.

Lemma readings_loop_Forall2 (random : nat -> float) (ls : list (string * Load)) :
  forall k,
    Forall2 (fun e e' => fst e' = fst e /\ cycled random (snd e) (snd e'))
            ls (readings_loop random k ls).
Proof.
  induction ls as [|[id l] rest IH]; intros k; cbn [readings_loop]; [constructor|].
  destruct (on l) eqn:E; cbn [negb]; constructor; try apply IH;
    (split; [reflexivity|]); unfold cycled; cbn [snd]; rewrite E.
  - now exists k.
  - reflexivity.
Qed.

Lemma update_load_Forall2 (key : string) (b : bool) (ls : list (string * Load)) :
  Forall2 (fun e e' => fst e' = fst e /\
                       (snd e' = snd e \/ fst e = key /\ snd e' = set_on b (snd e)))
          ls (update_load key (set_on b) ls).
Proof.
  induction ls as [|[k l] rest IH]; cbn [update_load]; [constructor|].
  destruct (String.eqb_spec key k) as [->|Hne].
  - constructor; [cbn; auto|].
    clear IH. induction rest as [|e rest IH]; constructor; auto.
  - constructor; [cbn; auto|exact IH].
Qed.

Lemma Forall2_compose {A : Type} (P Q R : A -> A -> Prop) (l1 l2 l3 : list A) :
  (forall a b c, P a b -> Q b c -> R a c) ->
  Forall2 P l1 l2 -> Forall2 Q l2 l3 -> Forall2 R l1 l3.
Proof.
  intros H H12. revert l3. induction H12 as [|a b l1 l2 Hab _ IH]; intros l3 H23.
  - inversion H23. constructor.
  - inversion H23 as [|b' c l2' l3' Hbc Hrest]; subst. constructor; eauto.
Qed.

Lemma Forall2_refl_on {A : Type} (R : A -> A -> Prop) (l : list A) :
  (forall a, R a a) -> Forall2 R l l.
Proof. intros H. induction l; constructor; auto. Qed.

Lemma updateFakeReadings_thresholds (now : float) (random : nat -> float) (st : DeviceState) :
  thresholds (snd (updateFakeReadings now random st)) = thresholds st.
Proof.
  unfold updateFakeReadings. cbn [loads thresholds].
  destruct (assoc "fan" _) as [fan|]; [|reflexivity].
  now destruct (_ && _)%bool.
Qed.

Lemma write_on_thresholds (srv : Server) (key : string) (r : Resolved) (b : bool) :
  thresholds (state (write_on srv key r b)) = thresholds (state srv).
Proof.
  destruct r as [l|k|v|]; cbn [write_on]; try reflexivity.
  now destruct (String.eqb k "__proto__").
Qed.

(** X1.  A status poll changes readings only: the loads are the same ones
    in the same order, each with the name, the [on] flag and the voltage
    it had; the threshold and [Object.prototype] are as they were. *)
Theorem poll_keeps_configuration (now : float) (random : nat -> float) (srv : Server) :
  let srv' := snd (get_status now random srv) in
  ObjectPrototype_on srv' = ObjectPrototype_on srv /\
  thresholds (state srv') = thresholds (state srv) /\
  Forall2 (fun e e' => fst e' = fst e /\ name (snd e') = name (snd e) /\
                       on (snd e') = on (snd e) /\
                       voltage_V (snd e') = voltage_V (snd e))
          (loads (state srv)) (loads (state srv')).
Proof.
  cbv zeta. split; [|split].
  - unfold get_status. destruct (updateFakeReadings _ _ _) as [c st']. now destruct c.
  - unfold get_status.
    pose proof (updateFakeReadings_thresholds now random (state srv)) as H.
    destruct (updateFakeReadings _ _ _) as [c st']. cbn [snd] in H. now destruct c.
  - rewrite get_status_loads.
    eapply Forall2_impl; [|apply readings_loop_Forall2].
    intros e e' [Hk Hc]. split; [exact Hk|]. now apply (cycled_configuration random).
Qed.

(** X2.  A control request changes at most one [on] flag, that of the load
    its [loadId] names: the loads are the same ones in the same order,
    each with its name and its voltage, and every load whose key is not
    the requested one keeps its flag; the threshold is as it was. *)
Theorem control_changes_one_flag
    (now : float) (random : nat -> float) (body : list (string * JsValue)) (srv : Server) :
  let srv' := snd (post_control now random body srv) in
  thresholds (state srv') = thresholds (state srv) /\
  Forall2 (fun e e' => fst e' = fst e /\ name (snd e') = name (snd e) /\
                       voltage_V (snd e') = voltage_V (snd e) /\
                       (ToPropertyKey (body_get srv body "loadId") <> Normal (fst e) ->
                        on (snd e') = on (snd e)))
          (loads (state srv)) (loads (state srv')).
Proof.
  cbv zeta. unfold post_control.
  destruct (ToPropertyKey (body_get srv body "loadId")) as [key|err] eqn:Ekey.
  2:{ cbn [snd]. split; [reflexivity|]. apply Forall2_refl_on. auto. }
  destruct (negb (truthy (resolve srv key))).
  { cbn [snd]. split; [reflexivity|]. apply Forall2_refl_on. auto. }
  set (srv1 := write_on srv key (resolve srv key) (ToBoolean (body_get srv body "on"))).
  pose proof (updateFakeReadings_thresholds now random (state srv1)) as Ht.
  pose proof (updateFakeReadings_loads now random (state srv1)) as Hl.
  destruct (updateFakeReadings now random (state srv1)) as [c st']. cbn [snd] in Ht, Hl.
  assert (Hgoal : thresholds st' = thresholds (state srv) /\
                  Forall2 (fun e e' => fst e' = fst e /\ name (snd e') = name (snd e) /\
                             voltage_V (snd e') = voltage_V (snd e) /\
                             (Normal key <> Normal (fst e) :> Completion string ->
                              on (snd e') = on (snd e)))
                          (loads (state srv)) (loads st')).
  { split.
    - rewrite Ht. apply write_on_thresholds.
    - rewrite Hl.
      apply (Forall2_compose
               (fun e e' => fst e' = fst e /\
                            (snd e' = snd e \/
                             fst e = key /\
                             snd e' = set_on (ToBoolean (body_get srv body "on")) (snd e)))
               (fun e e' => fst e' = fst e /\ cycled random (snd e) (snd e'))
               _ _ (loads (state srv1))).
      + intros a b c0 [Hk1 Hw] [Hk2 Hc].
        destruct (cycled_configuration random _ _ Hc) as (Hn & Ho & Hv).
        split; [congruence|].
        destruct Hw as [E|[Hkey E]]; rewrite E in Hn, Ho, Hv.
        * auto.
        * cbn [set_on name voltage_V] in Hn, Hv. repeat split; auto.
          intros Hne. exfalso. apply Hne. now rewrite Hkey.
      + destruct (write_on_loads srv key (resolve srv key)
                    (ToBoolean (body_get srv body "on"))) as [E|E];
          fold srv1 in E; rewrite E.
        * apply Forall2_refl_on. auto.
        * apply update_load_Forall2.
      + apply readings_loop_Forall2. }
  destruct c; exact Hgoal.
Qed.

(** ** The server: rejected and accepted keys *)

(** X3.  A control request is rejected when its [loadId] names neither a
    load nor anything [state.loads] inherits: the answer is 400 "Unknown
    loadId" and the server is left exactly as it was, its timestamp
    included (no cycle runs).  A body without [loadId] is such a request. *)
Theorem control_unknown_id_rejected
    (now : float) (random : nat -> float) (body : list (string * JsValue))
    (srv : Server) (key : string) :
  ToPropertyKey (body_get srv body "loadId") = Normal key ->
  has_key key (loads (state srv)) = false ->
  is_inherited key = false ->
  key <> "on" \/ ObjectPrototype_on srv <> Some true ->
  post_control now random body srv = (BadRequest "Unknown loadId", srv).
Proof.
  intros Hkey Hown Hinh Hon. unfold post_control. rewrite Hkey.
  unfold resolve. unfold has_key in Hown.
  destruct (assoc key (loads (state srv))); [discriminate|]. rewrite Hinh.
  destruct (String.eqb_spec key "on") as [->|Hne]; [|reflexivity].
  destruct Hon as [Hon|Hon]; [now contradiction Hon|].
  destruct (ObjectPrototype_on srv) as [[|]|]; try reflexivity. now contradiction Hon.
Qed.

Lemma control_unknown_id_rejected_witness :
  post_control 1700000001000 steady [("on", JBool true)] (boot 1700000000000)
  = (BadRequest "Unknown loadId", boot 1700000000000).
Proof.
  apply (control_unknown_id_rejected _ _ _ _ "undefined").
  - reflexivity.
  - reflexivity.
  - reflexivity.
  - left. discriminate.
Defined.

(** X4.  The one request that reaches [Object.prototype]: with the key
    [__proto__] the handler answers 200 and stores the truthiness of [on]
    as [Object.prototype.on]; from then on a request body without an [on]
    field reads that value.  A request with another key leaves
    [Object.prototype] as it is. *)
Theorem control_proto_key_sets_prototype
    (now : float) (random : nat -> float) (body : list (string * JsValue)) (srv : Server) :
  has_key "__proto__" (loads (state srv)) = false ->
  has_key "fan" (loads (state srv)) = true ->
  (ToPropertyKey (body_get srv body "loadId") = Normal "__proto__" ->
   exists st',
     post_control now random body srv
       = (ControlOk st', {| state := st';
                            ObjectPrototype_on := Some (ToBoolean (body_get srv body "on")) |}) /\
     forall later : list (string * JsValue),
       assoc "on" later = None ->
       body_get (snd (post_control now random body srv)) later "on"
         = JBool (ToBoolean (body_get srv body "on"))) /\
  (ToPropertyKey (body_get srv body "loadId") <> Normal "__proto__" ->
   ObjectPrototype_on (snd (post_control now random body srv)) = ObjectPrototype_on srv).
Proof.
  intros Hown Hfan. split.
  - intros Hkey. unfold post_control. rewrite Hkey.
    unfold resolve. unfold has_key in Hown.
    destruct (assoc "__proto__" (loads (state srv))); [discriminate|].
    cbn [is_inherited ObjectPrototype_names existsb String.eqb Ascii.eqb Bool.eqb orb
         truthy negb write_on state].
    change (is_inherited "__proto__") with true. cbn [truthy negb write_on].
    change ("__proto__" =? "__proto__") with true. cbn [state ObjectPrototype_on].
    pose proof (updateFakeReadings_normal now random (state srv) Hfan) as Hn.
    destruct (updateFakeReadings now random (state srv)) as [c st']. cbn [fst] in Hn. subst c.
    exists st'. split; [reflexivity|].
    intros later Hl. cbn [snd]. unfold body_get at 1. rewrite Hl. reflexivity.
  - intros Hkey. unfold post_control.
    destruct (ToPropertyKey (body_get srv body "loadId")) as [key|err]; [|reflexivity].
    destruct (negb (truthy (resolve srv key))); [reflexivity|].
    assert (Hw : ObjectPrototype_on
                   (write_on srv key (resolve srv key) (ToBoolean (body_get srv body "on")))
                 = ObjectPrototype_on srv).
    { unfold resolve. destruct (assoc key (loads (state srv))); [reflexivity|].
      destruct (is_inherited key).
      - cbn [write_on]. destruct (String.eqb_spec key "__proto__") as [->|Hne]; [|reflexivity].
        now contradiction Hkey.
      - destruct (String.eqb key "on"); [|reflexivity].
        destruct (ObjectPrototype_on srv) eqn:E; cbn [write_on]; exact E. }
    destruct (updateFakeReadings _ _ _) as [c st']. destruct c; exact Hw.
Qed.

Lemma control_proto_key_sets_prototype_witness :
  (ToPropertyKey (body_get (boot 1700000000000) proto_request "loadId") = Normal "__proto__" ->
   exists st',
     post_control 1700000001000 steady proto_request (boot 1700000000000)
       = (ControlOk st',
          {| state := st';
             ObjectPrototype_on :=
               Some (ToBoolean (body_get (boot 1700000000000) proto_request "on")) |}) /\
     forall later : list (string * JsValue),
       assoc "on" later = None ->
       body_get (snd (post_control 1700000001000 steady proto_request (boot 1700000000000)))
                later "on"
         = JBool (ToBoolean (body_get (boot 1700000000000) proto_request "on"))) /\
  (ToPropertyKey (body_get (boot 1700000000000) proto_request "loadId") <> Normal "__proto__" ->
   ObjectPrototype_on (snd (post_control 1700000001000 steady proto_request (boot 1700000000000)))
   = ObjectPrototype_on (boot 1700000000000)).
Proof.
  apply (control_proto_key_sets_prototype 1700000001000 steady proto_request
           (boot 1700000000000)).
  - reflexivity.
  - reflexivity.
Defined.

(** ** The server: what holds in every state it can reach *)

Lemma mul_zero_l (c f : float) :
  PrimFloat.is_zero c = true -> F64.finite f -> PrimFloat.is_zero (c * f) = true.
Proof.
  rewrite !F64Facts.is_zero_spec, mul_spec. unfold F64.finite.
  destruct (Prim2SF c) as [s| | |]; try discriminate.
  destruct (Prim2SF f) as [s'| | |s' m e]; cbn; try contradiction; reflexivity.
Qed.

Lemma mul_zero_r (v c : float) :
  F64.finite v -> PrimFloat.is_zero c = true -> PrimFloat.is_zero (v * c) = true.
Proof.
  rewrite !F64Facts.is_zero_spec, mul_spec. unfold F64.finite.
  destruct (Prim2SF c) as [s| | |]; try discriminate.
  destruct (Prim2SF v) as [s'| | |s' m e]; cbn; try contradiction; reflexivity.
Qed.

Lemma Math_max_0_zero (y : float) :
  PrimFloat.is_zero y = true -> Number.Math_max 0 y = 0%float.
Proof.
  intros Hz. unfold Number.Math_max.
  assert (Hn : PrimFloat.is_nan y = false).
  { rewrite F64Facts.is_nan_spec. rewrite F64Facts.is_zero_spec in Hz.
    now destruct (Prim2SF y). }
  assert (H1 : PrimFloat.ltb 0 y = false).
  { rewrite ltb_spec. rewrite F64Facts.is_zero_spec in Hz.
    destruct (Prim2SF y) as [s| | |]; try discriminate. now destruct s. }
  assert (H2 : PrimFloat.ltb y 0 = false).
  { rewrite ltb_spec. rewrite F64Facts.is_zero_spec in Hz.
    destruct (Prim2SF y) as [s| | |]; try discriminate. now destruct s. }
  rewrite Hn, H1, H2. reflexivity.
Qed.

Lemma zero_not_above_50 (x : float) :
  PrimFloat.is_zero x = true -> PrimFloat.ltb 50 x = false.
Proof.
  rewrite F64Facts.is_zero_spec, ltb_spec.
  destruct (Prim2SF x) as [s| | |]; try discriminate. intros _. now destruct s.
Qed.

(** One pass of the simulator over a load whose current is zero. *)
Lemma cycled_zero_current (random : nat -> float) (l l' : Load) :
  (forall k, F64.unit_interval (random k)) ->
  plausible l -> cycled random l l' ->
  PrimFloat.is_zero (current_A l) = true ->
  current_A l' = 0%float /\ PrimFloat.is_zero (power_W l') = true.
Proof.
  intros Hrand (Hf & Hv & _) Hc Hz. unfold cycled in Hc. destruct (on l).
  - destruct Hc as [j ->]. cbn [reading_on current_A power_W voltage_V].
    destruct (F64Lit.noise_factor (random j) (Hrand j)) as [Ft _].
    rewrite (Math_max_0_zero _ (mul_zero_l _ _ Hz Ft)).
    split; [reflexivity|]. apply mul_zero_r; [|reflexivity].
    now apply F64Facts.finite_is_finite.
  - subst l'. cbn. split; reflexivity.
Qed.

(** One pass of the simulator: the power it leaves is zero when the
    current is, and is never negative. *)
Lemma cycled_power (random : nat -> float) (l l' : Load) :
  (forall k, F64.unit_interval (random k)) ->
  plausible l -> cycled random l l' ->
  F64.nonneg (power_W l') /\
  (PrimFloat.is_zero (current_A l') = true -> PrimFloat.is_zero (power_W l') = true).
Proof.
  intros Hrand Hl Hc.
  destruct (cycled_plausible random l l' Hrand Hl Hc) as [(Hf' & Hv' & Hc' & _) _].
  destruct (cycled_readings random l l' Hc) as [Hoff Hon].
  destruct (F64Lit.positive_finite (voltage_V l') Hf' Hv') as [Hfv Hvpos].
  destruct (on l').
  - rewrite (Hon eq_refl). split.
    + now apply (F64Facts.mul_nonneg (current_A l') (voltage_V l') Hc' Hfv Hvpos).
    + intros Hz. now apply mul_zero_r.
  - destruct (Hoff eq_refl) as [_ ->]. split; [reflexivity|]. intros _. reflexivity.
Qed.

Lemma readings_loop_keys (random : nat -> float) (ls : list (string * Load)) :
  forall k, map fst (readings_loop random k ls) = map fst ls.
Proof.
  induction ls as [|[id l] rest IH]; intros k; cbn [readings_loop]; [reflexivity|].
  destruct (negb (on l)); cbn [map fst]; now rewrite IH.
Qed.

Lemma update_load_keys (key : string) (f : Load -> Load) (ls : list (string * Load)) :
  map fst (update_load key f ls) = map fst ls.
Proof.
  induction ls as [|[k l] rest IH]; cbn [update_load]; [reflexivity|].
  destruct (String.eqb key k); cbn [map fst]; [reflexivity|now rewrite IH].
Qed.

Lemma post_control_thresholds (now : float) (random : nat -> float)
    (body : list (string * JsValue)) (srv : Server) :
  thresholds (state (snd (post_control now random body srv))) = thresholds (state srv).
Proof.
  unfold post_control. destruct (ToPropertyKey _) as [key|e]; [|reflexivity].
  destruct (negb _); [reflexivity|].
  match goal with |- context [updateFakeReadings ?n ?r ?s] =>
    pose proof (updateFakeReadings_thresholds n r s) as Ht;
    destruct (updateFakeReadings n r s) as [c st'] end.
  cbn [snd] in Ht. rewrite write_on_thresholds in Ht. now destruct c.
Qed.

Lemma get_status_thresholds (now : float) (random : nat -> float) (srv : Server) :
  thresholds (state (snd (get_status now random srv))) = thresholds (state srv).
Proof.
  unfold get_status.
  pose proof (updateFakeReadings_thresholds now random (state srv)) as Ht.
  destruct (updateFakeReadings _ _ _) as [c st']. cbn [snd] in Ht. now destruct c.
Qed.

(** The server keeps the three loads and the threshold it starts with. *)
Lemma reachable_keys (srv : Server) :
  reachable srv ->
  map fst (loads (state srv)) = ["lamp"; "charger"; "fan"] /\
  highUsage_W (thresholds (state srv)) = 50%float.
Proof.
  induction 1 as [now|now random srv Hreach [IHk IHt] Hrand
                 |now random body srv Hreach [IHk IHt] Hrand].
  - split; reflexivity.
  - rewrite get_status_loads, readings_loop_keys, get_status_thresholds. now split.
  - rewrite post_control_thresholds. split; [|exact IHt].
    destruct (post_control_loads now random body srv) as [E|(key & r & b & E)];
      rewrite E; [exact IHk|].
    rewrite readings_loop_keys.
    destruct (write_on_loads srv key r b) as [Ew|Ew]; rewrite Ew; [exact IHk|].
    now rewrite update_load_keys.
Qed.

(** An invariant of the loads, by the steps that can change a load. *)
Lemma reachable_loads_invariant (P : string -> Load -> Prop) :
  (forall now id l, In (id, l) (loads (initial_state now)) -> P id l) ->
  (forall id b l, P id l -> P id (set_on b l)) ->
  (forall random id l l',
      (forall k, F64.unit_interval (random k)) ->
      plausible l -> P id l -> cycled random l l' -> P id l') ->
  forall srv, reachable srv ->
  forall id l, In (id, l) (loads (state srv)) -> P id l.
Proof.
  intros Hboot Hset Hcyc srv Hreach.
  induction Hreach as [now|now random srv Hreach IH Hrand|now random body srv Hreach IH Hrand];
    intros id l Hin.
  - now apply (Hboot now).
  - rewrite get_status_loads in Hin.
    destruct (readings_loop_In _ _ _ _ _ Hin) as (l0 & Hin0 & Hc).
    apply (Hcyc random id l0 l Hrand); auto.
    now apply (reachable_plausible srv Hreach id).
  - destruct (post_control_loads now random body srv) as [E|(key & r & b & E)].
    + rewrite E in Hin. now apply IH.
    + rewrite E in Hin.
      destruct (readings_loop_In _ _ _ _ _ Hin) as (l0 & Hin0 & Hc).
      apply (Hcyc random id l0 l Hrand); [| |exact Hc].
      * apply (write_on_plausible srv key r b (reachable_plausible srv Hreach) id l0 Hin0).
      * destruct (write_on_loads srv key r b) as [Ew|Ew]; rewrite Ew in Hin0.
        -- now apply IH.
        -- destruct (update_load_In _ _ _ _ _ Hin0) as (l1 & Hin1 & [->| ->]).
           ++ now apply IH.
           ++ apply Hset. now apply IH.
Qed.

(** In every state the server can reach: the power of a load is not
    negative, it is zero when the current is, and the fan's current is
    zero. *)
Lemma reachable_readings (srv : Server) :
  reachable srv ->
  forall id l, In (id, l) (loads (state srv)) ->
    F64.nonneg (power_W l) /\
    (PrimFloat.is_zero (current_A l) = true -> PrimFloat.is_zero (power_W l) = true) /\
    (id = "fan" -> PrimFloat.is_zero (current_A l) = true).
Proof.
  apply (reachable_loads_invariant
           (fun id l =>
              F64.nonneg (power_W l) /\
              (PrimFloat.is_zero (current_A l) = true -> PrimFloat.is_zero (power_W l) = true) /\
              (id = "fan" -> PrimFloat.is_zero (current_A l) = true))).
  - intros now id l Hin. cbn in Hin.
    destruct Hin as [H|[H|[H|[]]]]; inversion H; subst; cbn;
      repeat split; try reflexivity; try discriminate.
  - intros id b l H. exact H.
  - intros random id l l' Hrand Hpl (Hp & Hz & Hfan) Hc.
    destruct (cycled_power random l l' Hrand Hpl Hc) as [Hp' Hz'].
    split; [exact Hp'|]. split; [exact Hz'|].
    intros Hid. rewrite (proj1 (cycled_zero_current random l l' Hrand Hpl Hc (Hfan Hid))).
    reflexivity.
Qed.

(** What [updateFakeReadings] leaves in [state.alerts]: nothing, unless
    the fan it has just updated is on and above the threshold. *)
Lemma updateFakeReadings_alerts (now : float) (random : nat -> float) (st : DeviceState) :
  let st' := snd (updateFakeReadings now random st) in
  alerts st' = [] \/
  exists fan, assoc "fan" (loads st') = Some fan /\
              PrimFloat.ltb (highUsage_W (thresholds st')) (power_W fan) = true.
Proof.
  cbv zeta. unfold updateFakeReadings. cbn [loads thresholds].
  destruct (assoc "fan" (readings_loop random 0 (loads st))) as [fan|] eqn:E;
    [|now left].
  destruct (on fan); cbn [andb]; [|now left].
  destruct (PrimFloat.ltb _ _) eqn:El; [|now left].
  right. exists fan. cbn [snd loads thresholds]. now split.
Qed.

(** In a reachable state the fan cannot be above the threshold. *)
Lemma reachable_quiet (srv : Server) :
  reachable srv ->
  (alerts (state srv) = [] \/
   exists fan, assoc "fan" (loads (state srv)) = Some fan /\
               PrimFloat.ltb (highUsage_W (thresholds (state srv))) (power_W fan) = true) ->
  alerts (state srv) = [].
Proof.
  intros Hreach [H|(fan & Hfan & Hlt)]; [exact H|].
  destruct (reachable_keys srv Hreach) as [_ Ht]. rewrite Ht in Hlt.
  destruct (reachable_readings srv Hreach "fan" fan (assoc_In _ _ _ Hfan)) as (_ & Hz & Hc).
  rewrite (zero_not_above_50 _ (Hz (Hc eq_refl))) in Hlt. discriminate.
Qed.

(** X5.  The alert is never raised.  In every state the server can reach
    from start-up, by any sequence of polls and control requests, the
    alert list is empty: the fan starts at 0 A, the simulator multiplies
    the current by the noise factor, and 0 A times any factor is 0 A, so
    the fan's power never exceeds the threshold, switched on or not. *)
Theorem alerts_never_raised (srv : Server) :
  reachable srv -> alerts (state srv) = [].
Proof.
  induction 1 as [now|now random srv Hreach IH Hrand|now random body srv Hreach IH Hrand].
  - reflexivity.
  - apply reachable_quiet; [now apply reach_status|].
    pose proof (updateFakeReadings_alerts now random (state srv)) as Ha. cbv zeta in Ha.
    unfold get_status. destruct (updateFakeReadings now random (state srv)) as [c st'].
    cbn [snd] in Ha. now destruct c.
  - apply reachable_quiet; [now apply reach_control|].
    unfold post_control.
    destruct (ToPropertyKey _) as [key|e]; [|left; exact IH].
    destruct (negb _); [left; exact IH|].
    match goal with |- context [updateFakeReadings ?n ?r ?s] =>
      pose proof (updateFakeReadings_alerts n r s) as Ha; cbv zeta in Ha;
      destruct (updateFakeReadings n r s) as [c st'] end.
    cbn [snd] in Ha. now destruct c.
Qed.

Lemma alerts_never_raised_witness : alerts (state fan_switched_on) = [].
Proof.
  apply (alerts_never_raised fan_switched_on).
  unfold fan_switched_on. apply reach_status; [|exact steady_unit_interval].
  apply reach_control; [|exact steady_unit_interval].
  apply reach_boot.
Defined.

(** X6.  A load whose current is 0 A stays there.  From any state the
    server can reach, after one more poll or control request a load that
    read 0 A reads 0 A and 0 W, whether it is switched on or off: a load
    that has been off for a cycle never draws current again. *)
Theorem zero_current_is_absorbing
    (srv srv' : Server) (now : float) (random : nat -> float) (key : string) (l : Load) :
  reachable srv ->
  (forall k, F64.unit_interval (random k)) ->
  srv' = snd (get_status now random srv) \/
    (exists body, srv' = snd (post_control now random body srv)) ->
  assoc key (loads (state srv)) = Some l ->
  PrimFloat.is_zero (current_A l) = true ->
  exists l',
    assoc key (loads (state srv')) = Some l' /\
    PrimFloat.is_zero (current_A l') = true /\
    PrimFloat.is_zero (power_W l') = true.
Proof.
  intros Hreach Hrand Hstep Hl Hz.
  pose proof (reachable_plausible srv Hreach) as Hpl.
  assert (Hlp : plausible l) by (apply (Hpl key); now apply assoc_In).
  assert (Hcyc : forall ls l1,
            loads (state srv') = readings_loop random 0 ls ->
            assoc key ls = Some l1 -> plausible l1 -> current_A l1 = current_A l ->
            exists l',
              assoc key (loads (state srv')) = Some l' /\
              PrimFloat.is_zero (current_A l') = true /\
              PrimFloat.is_zero (power_W l') = true).
  { intros ls l1 E H1 Hp1 Hc1. rewrite E.
    pose proof (readings_loop_assoc random key ls 0) as Ha. rewrite H1 in Ha.
    destruct Ha as (l' & Ha & Hc). exists l'. split; [exact Ha|].
    rewrite <- Hc1 in Hz.
    destruct (cycled_zero_current random l1 l' Hrand Hp1 Hc Hz) as [-> Hp].
    split; [reflexivity|exact Hp]. }
  destruct Hstep as [->|[body ->]].
  - apply (Hcyc (loads (state srv)) l); auto. apply get_status_loads.
  - destruct (post_control_loads now random body srv) as [E|(k & r & b & E)].
    + rewrite E. exists l. split; [exact Hl|]. split; [exact Hz|].
      destruct (reachable_readings srv Hreach key l (assoc_In _ _ _ Hl)) as (_ & Hzp & _).
      now apply Hzp.
    + destruct (write_on_loads srv k r b) as [Ew|Ew]; rewrite Ew in E.
      * now apply (Hcyc (loads (state srv)) l).
      * destruct (string_dec key k) as [->|Hne].
        -- apply (Hcyc _ (set_on b l) E); auto.
           now apply assoc_update_load_same.
        -- apply (Hcyc _ l E); auto.
           now rewrite assoc_update_load_other.
Qed.

Lemma zero_current_is_absorbing_witness :
  exists l',
    assoc "fan" (loads (state fan_switched_on)) = Some l' /\
    PrimFloat.is_zero (current_A l') = true /\
    PrimFloat.is_zero (power_W l') = true.
Proof.
  apply (zero_current_is_absorbing
           (snd (post_control 1700000001000 steady fan_on_request (boot 1700000000000)))
           fan_switched_on 1700000002000 steady "fan"
           {| name := "Desk Fan"; on := true; voltage_V := 120.0;
              current_A := 0; power_W := 0; energy_Wh := 20.1 |}).
  - apply reach_control; [|exact steady_unit_interval]. apply reach_boot.
  - exact steady_unit_interval.
  - left. reflexivity.
  - vm_compute. reflexivity.
  - reflexivity.
Defined.

(** X7.  No reading is ever negative or NaN.  In every state the server
    can reach, every load has a finite positive voltage, and a current, a
    power and an energy that are each [>= 0] (zero, positive or
    [Infinity]). *)
Theorem readings_never_negative (srv : Server) (id : string) (l : Load) :
  reachable srv ->
  In (id, l) (loads (state srv)) ->
  PrimFloat.is_finite (voltage_V l) = true /\
  PrimFloat.ltb 0 (voltage_V l) = true /\
  PrimFloat.leb 0 (current_A l) = true /\
  PrimFloat.leb 0 (power_W l) = true /\
  PrimFloat.leb 0 (energy_Wh l) = true.
Proof.
  intros Hreach Hin.
  destruct (reachable_plausible srv Hreach id l Hin) as (Hf & Hv & Hc & He).
  destruct (reachable_readings srv Hreach id l Hin) as (Hp & _).
  repeat split; assumption.
Qed.

Lemma readings_never_negative_witness :
  PrimFloat.is_finite (voltage_V lamp_after_first_poll) = true /\
  PrimFloat.ltb 0 (voltage_V lamp_after_first_poll) = true /\
  PrimFloat.leb 0 (current_A lamp_after_first_poll) = true /\
  PrimFloat.leb 0 (power_W lamp_after_first_poll) = true /\
  PrimFloat.leb 0 (energy_Wh lamp_after_first_poll) = true.
Proof.
  apply (readings_never_negative first_poll "lamp" lamp_after_first_poll).
  - apply reach_status; [|exact steady_unit_interval]. apply reach_boot.
  - vm_compute. left. reflexivity.
Defined.

(** ** The client: polling while mounted *)

Lemma stage_of_drop_other (a b : nat) (l : list (nat * Stage)) :
  a <> b -> stage_of a (drop_call b l) = stage_of a l.
Proof.
  intros Hne. induction l as [|[c s] rest IH]; cbn [drop_call stage_of]; [reflexivity|].
  destruct (Nat.eqb_spec b c) as [->|Hbc].
  - destruct (Nat.eqb_spec a c) as [->|_]; [now contradiction Hne|reflexivity].
  - cbn [stage_of]. now rewrite IH.
Qed.

(** X8.  A poll that fails keeps the last snapshot.  While the client is
    mounted, a rejected [fetch], a response that is not [ok] and a body
    that does not parse all end the same way: [error] becomes "Lost
    connection to device" and [loading] false, while [status] and
    [lastUpdated] keep the values of the last successful poll; no request
    is sent in its place. *)
Theorem failed_poll_keeps_snapshot (p : Poller) (call : nat) (ev : PollEvent) :
  cancelled p = false ->
  stage_of call (in_flight p) = Some Fetching /\
    (ev = FetchRejected call \/ ev = FetchResolved call false) \/
  stage_of call (in_flight p) = Some Parsing /\ ev = JsonRejected call ->
  view (poll_step p ev)
    = {| status := status (view p); loading := false;
         error := Some "Lost connection to device";
         lastUpdated := lastUpdated (view p) |} /\
  issued (poll_step p ev) = issued p /\
  in_flight (poll_step p ev) = drop_call call (in_flight p).
Proof.
  intros Hlive [[Hs [->| ->]]|[Hs ->]]; cbn [poll_step]; rewrite Hs;
    unfold fetch_failed; rewrite Hlive; cbn; auto.
Qed.

Lemma failed_poll_keeps_snapshot_witness :
  view (poll_step (poll_run (mount synced_view) [Tick]) (FetchResolved 1 false))
    = {| status := status (view (poll_run (mount synced_view) [Tick]));
         loading := false;
         error := Some "Lost connection to device";
         lastUpdated := lastUpdated (view (poll_run (mount synced_view) [Tick])) |} /\
  issued (poll_step (poll_run (mount synced_view) [Tick]) (FetchResolved 1 false))
    = issued (poll_run (mount synced_view) [Tick]) /\
  in_flight (poll_step (poll_run (mount synced_view) [Tick]) (FetchResolved 1 false))
    = drop_call 1 (in_flight (poll_run (mount synced_view) [Tick])).
Proof.
  apply (failed_poll_keeps_snapshot (poll_run (mount synced_view) [Tick]) 1
           (FetchResolved 1 false)).
  - reflexivity.
  - left. split; [reflexivity|]. right. reflexivity.
Defined.

(** X9.  Snapshots are applied in the order their bodies arrive, not in
    the order the requests were sent.  With two polls in flight on a
    mounted client, the body that arrives last sets [status] and
    [lastUpdated], whichever request was sent first: an older snapshot
    that is slow to arrive replaces a newer one. *)
Theorem last_arrival_wins
    (p : Poller) (a b : nat) (da db : JsValue) (ta tb : float) :
  cancelled p = false ->
  a <> b ->
  stage_of a (in_flight p) = Some Parsing ->
  stage_of b (in_flight p) = Some Parsing ->
  view (poll_run p [JsonResolved b db tb; JsonResolved a da ta])
    = {| status := da; loading := false; error := None; lastUpdated := Some ta |}.
Proof.
  intros Hlive Hne Ha Hb.
  assert (H1 : poll_step p (JsonResolved b db tb)
               = finish b {| status := db; loading := false; error := None;
                             lastUpdated := Some tb |} p).
  { cbn [poll_step]. rewrite Hb. unfold fetch_succeeded. now rewrite Hlive. }
  unfold poll_run. cbn [fold_left]. rewrite H1. cbn [poll_step finish in_flight].
  rewrite (stage_of_drop_other a b _ Hne), Ha.
  unfold fetch_succeeded. cbn [finish cancelled view]. rewrite Hlive. reflexivity.
Qed.

Lemma last_arrival_wins_witness :
  view (poll_run two_polls_parsing
          [JsonResolved 1 (json_of_state (state fan_switched_on)) 1700000002500;
           JsonResolved 0 (json_of_state (initial_state 1700000000000)) 1700000003000])
    = {| status := json_of_state (initial_state 1700000000000); loading := false;
         error := None; lastUpdated := Some 1700000003000%float |}.
Proof.
  apply (last_arrival_wins two_polls_parsing 0 1).
  - reflexivity.
  - discriminate.
  - reflexivity.
  - reflexivity.
Defined.

Lemma ticks_in_flight (n : nat) :
  forall p, interval p = true ->
    let p' := poll_run p (repeat Tick n) in
    issued p' = (issued p + n)%nat /\
    in_flight p' = (in_flight p ++ map (fun k => (k, Fetching)) (seq (issued p) n))%list /\
    view p' = view p /\ interval p' = true /\ cancelled p' = cancelled p.
Proof.
  induction n as [|n IH]; intros p Hi; cbv zeta.
  - cbn. rewrite Nat.add_0_r, app_nil_r. auto.
  - cbn [repeat poll_run fold_left]. cbn [poll_step]. rewrite Hi.
    specialize (IH (fetchStatus p) Hi). cbv zeta in IH. unfold poll_run in IH.
    destruct IH as (H1 & H2 & H3 & H4 & H5).
    rewrite H1, H2, H3, H4, H5. cbn [fetchStatus issued in_flight view cancelled seq map].
    rewrite <- app_assoc. cbn [app]. repeat split; auto; lia.
Qed.

(** X10.  Requests are not serialised.  The client sends one status
    request when it mounts and one at every tick of the timer, whether or
    not the earlier ones have been answered: after [n] ticks without any
    response, [n + 1] requests are in flight and the view is untouched. *)
Theorem ticks_pile_up (v : View) (n : nat) :
  let p := poll_run (mount v) (repeat Tick n) in
  issued p = S n /\
  in_flight p = map (fun k => (k, Fetching)) (seq 0 (S n)) /\
  view p = v.
Proof.
  cbv zeta. destruct (ticks_in_flight n (mount v) eq_refl) as (H1 & H2 & H3 & _).
  cbv zeta in H1, H2, H3. rewrite H1, H2, H3. cbn [mount fetchStatus issued in_flight view].
  repeat split; reflexivity.
Qed.

Lemma poll_step_loading (p : Poller) (ev : PollEvent) :
  loading (view p) = false -> loading (view (poll_step p ev)) = false.
Proof.
  intros H. destruct ev as [| |call ok|call|call data clock|call]; cbn [poll_step].
  - now destruct (interval p).
  - exact H.
  - destruct (stage_of call (in_flight p)) as [[|]|]; auto.
    destruct ok; auto. unfold fetch_failed. now destruct (negb (cancelled p)).
  - destruct (stage_of call (in_flight p)) as [[|]|]; auto.
    unfold fetch_failed. now destruct (negb (cancelled p)).
  - destruct (stage_of call (in_flight p)) as [[|]|]; auto.
    unfold fetch_succeeded. now destruct (cancelled p).
  - destruct (stage_of call (in_flight p)) as [[|]|]; auto.
    unfold fetch_failed. now destruct (negb (cancelled p)).
Qed.

(** X11.  [loading] never comes back.  Once a poll has completed, with a
    snapshot or with an error, [loading] is false, and no later event of
    the polling effect sets it again: the client shows "Connecting to
    device..." only before its first poll has ended. *)
Theorem loading_never_returns (p : Poller) (evs : list PollEvent) :
  loading (view p) = false ->
  loading (view (poll_run p evs)) = false.
Proof.
  revert p. induction evs as [|ev evs IH]; intros p H; [exact H|].
  cbn [poll_run fold_left]. apply IH. now apply poll_step_loading.
Qed.

Lemma loading_never_returns_witness :
  loading (view (poll_run (poll_step (mount initial_view) (FetchRejected 0))
                   [Tick; FetchResolved 1 true; JsonRejected 1; Tick; Teardown])) = false.
Proof.
  apply (loading_never_returns (poll_step (mount initial_view) (FetchRejected 0))).
  reflexivity.
Defined.

(** ** The client: control commands *)

Lemma replace_prop_keys (key : string) (v : JsValue) (props : list (string * JsValue)) :
  map fst (replace_prop key v props) = map fst props.
Proof.
  induction props as [|[k x] rest IH]; cbn [replace_prop]; [reflexivity|].
  destruct (String.eqb key k); cbn [map fst]; [reflexivity|now rewrite IH].
Qed.

Lemma define_prop_keys_present (key : string) (v : JsValue) (props : list (string * JsValue)) :
  has_key key props = true -> map fst (define_prop key v props) = map fst props.
Proof. intros H. unfold define_prop. rewrite H. apply replace_prop_keys. Qed.

Lemma has_key_assoc {A : Type} (key : string) (l : list (string * A)) (x : A) :
  assoc key l = Some x -> has_key key l = true.
Proof. intros H. unfold has_key. now rewrite H. Qed.

(** X12.  After a successful toggle the client shows what the server
    stored.  For a load other than the fan that the server has: the
    request the client sends is accepted with 200, the server stores
    [!currentOn] as the load's flag, and the client, on that answer, sets
    the flag it shows for the load to the same value. *)
Theorem toggle_agrees_with_server
    (now : float) (random : nat -> float) (srv : Server) (key : string) (l : Load)
    (currentOn : JsValue) (v : View) (props ls : list (string * JsValue)) :
  key <> "fan" ->
  assoc key (loads (state srv)) = Some l ->
  has_key "fan" (loads (state srv)) = true ->
  status v = JObj props ->
  assoc "loads" props = Some (JObj ls) ->
  exists req st' srv' l' v',
    toggleLoad_request key currentOn = Some req /\
    post_control now random (request_body req) srv = (ControlOk st', srv') /\
    assoc key (loads (state srv')) = Some l' /\
    toggleLoad key currentOn (ControlResolved (response_ok (ControlOk st'))) v = Normal v' /\
    on l' = negb (ToBoolean currentOn) /\
    shown_flag v' key = JBool (on l').
Proof.
  intros Hne Hl Hfan Hst Hloads. apply String.eqb_neq in Hne.
  set (b := negb (ToBoolean currentOn)).
  exists {| request_loadId := key; request_on := b |}.
  unfold toggleLoad, toggleLoad_request. rewrite Hne.
  (* the server *)
  unfold post_control, request_body.
  cbn [request_loadId request_on body_get assoc String.eqb Ascii.eqb Bool.eqb
       ToPropertyKey ToString ToBoolean].
  change (("loadId" =? "loadId")%string) with true.
  change (("on" =? "loadId")%string) with false.
  change (("on" =? "on")%string) with true.
  cbn [ToPropertyKey ToString ToBoolean].
  unfold resolve. rewrite Hl. cbn [truthy negb write_on state ObjectPrototype_on].
  set (st1 := with_loads (state srv) (update_load key (set_on b) (loads (state srv)))).
  pose proof (updateFakeReadings_normal now random st1) as Hn.
  pose proof (updateFakeReadings_loads now random st1) as Hls.
  destruct (updateFakeReadings now random st1) as [c st'] eqn:Eu.
  cbn [fst snd] in Hn, Hls.
  rewrite Hn by (subst st1; cbn [loads with_loads]; now rewrite has_key_update_load).
  pose proof (readings_loop_assoc random key (loads st1) 0) as Ha.
  subst st1. cbn [loads with_loads] in Ha, Hls.
  rewrite (assoc_update_load_same key (set_on b) _ l Hl) in Ha.
  destruct Ha as (l' & Ha & Hc).
  assert (Hon : on l' = b) by now rewrite (cycled_on _ _ _ Hc).
  (* the client *)
  cbn [response_ok]. unfold toggle_updater. rewrite Hst.
  cbn [ToBoolean negb Get own_props bindC]. rewrite Hloads.
  cbn [bindC request_on spread own_props].
  eexists st', _, l', _.
  split; [reflexivity|]. split; [reflexivity|].
  split; [cbn [state]; now rewrite Hls|].
  split; [reflexivity|]. split; [exact Hon|].
  unfold shown_flag. cbn [status GetOpt own_props].
  rewrite assoc_define_prop_same. cbn [GetOpt own_props].
  rewrite assoc_define_prop_same. cbn [GetOpt own_props].
  rewrite assoc_define_prop_same. now rewrite Hon.
Qed.

Lemma toggle_agrees_with_server_witness :
  exists req st' srv' l' v',
    toggleLoad_request "lamp" (JBool true) = Some req /\
    post_control 1700000001000 steady (request_body req) (boot 1700000000000)
      = (ControlOk st', srv') /\
    assoc "lamp" (loads (state srv')) = Some l' /\
    toggleLoad "lamp" (JBool true) (ControlResolved (response_ok (ControlOk st'))) synced_view
      = Normal v' /\
    on l' = negb (ToBoolean (JBool true)) /\
    shown_flag v' "lamp" = JBool (on l').
Proof.
  apply (toggle_agrees_with_server 1700000001000 steady (boot 1700000000000) "lamp"
           lamp_at_boot (JBool true) synced_view
           (own_props (json_of_state (initial_state 1700000000000))) synced_loads).
  - discriminate.
  - reflexivity.
  - reflexivity.
  - reflexivity.
  - reflexivity.
Defined.

(** X13.  A toggle does not reorder anything.  After a successful toggle
    of a load the snapshot has, the snapshot's properties, the loads and
    (when the load already had an [on] field) the load's own fields are
    enumerated in the order they had before: the cards stay where they
    are. *)
Theorem toggle_keeps_order
    (loadId : string) (currentOn : JsValue) (v : View)
    (props ls load : list (string * JsValue)) :
  loadId <> "fan" ->
  status v = JObj props ->
  assoc "loads" props = Some (JObj ls) ->
  assoc loadId ls = Some (JObj load) ->
  has_key "on" load = true ->
  exists props' ls' load',
    toggleLoad loadId currentOn (ControlResolved true) v
      = Normal {| status := JObj props'; loading := loading v; error := None;
                  lastUpdated := lastUpdated v |} /\
    map fst props' = map fst props /\
    assoc "loads" props' = Some (JObj ls') /\
    map fst ls' = map fst ls /\
    assoc loadId ls' = Some (JObj load') /\
    map fst load' = map fst load.
Proof.
  intros Hne Hst Hloads Hload Hon. apply String.eqb_neq in Hne.
  unfold toggleLoad, toggleLoad_request. rewrite Hne.
  unfold toggle_updater. rewrite Hst. cbn [ToBoolean negb Get own_props bindC].
  rewrite Hloads. cbn [bindC request_on spread own_props].
  unfold spread_at. cbn [own_props]. rewrite Hload. cbn [spread own_props].
  eexists _, _, _. split; [reflexivity|].
  split; [apply define_prop_keys_present; now apply (has_key_assoc _ _ (JObj ls))|].
  split; [apply assoc_define_prop_same|].
  split; [apply define_prop_keys_present; now apply (has_key_assoc _ _ (JObj load))|].
  split; [apply assoc_define_prop_same|].
  now apply define_prop_keys_present.
Qed.

Lemma toggle_keeps_order_witness :
  exists props' ls' load',
    toggleLoad "charger" (JBool true) (ControlResolved true) synced_view
      = Normal {| status := JObj props'; loading := loading synced_view; error := None;
                  lastUpdated := lastUpdated synced_view |} /\
    map fst props' = map fst (own_props (json_of_state (initial_state 1700000000000))) /\
    assoc "loads" props' = Some (JObj ls') /\
    map fst ls' = map fst synced_loads /\
    assoc "charger" ls' = Some (JObj load') /\
    map fst load' = map fst (own_props (json_of_load charger_at_boot)).
Proof.
  apply (toggle_keeps_order "charger" (JBool true) synced_view
           (own_props (json_of_state (initial_state 1700000000000))) synced_loads
           (own_props (json_of_load charger_at_boot))).
  - discriminate.
  - reflexivity.
  - reflexivity.
  - reflexivity.
  - reflexivity.
Defined.

(** X14.  A successful toggle on a snapshot that is not the expected
    shape.  While there is no snapshot ([status] is [null]) the updater
    returns it unchanged and only the error is cleared.  On a snapshot
    without [loads] the updater throws a [TypeError].  For a load the
    snapshot does not have (and whose id is not an array index) it adds,
    after the loads that are there, a load that has an [on] field and
    nothing else. *)
Theorem toggle_on_incomplete_snapshot
    (loadId : string) (currentOn : JsValue) (v : View) :
  loadId <> "fan" ->
  (ToBoolean (status v) = false ->
   toggleLoad loadId currentOn (ControlResolved true) v
     = Normal {| status := status v; loading := loading v; error := None;
                 lastUpdated := lastUpdated v |}) /\
  (ToBoolean (status v) = true ->
   GetOpt (status v) "loads" = JUndefined \/ GetOpt (status v) "loads" = JNull ->
   toggleLoad loadId currentOn (ControlResolved true) v = Throw TypeError) /\
  (forall props ls,
     status v = JObj props ->
     assoc "loads" props = Some (JObj ls) ->
     assoc loadId ls = None ->
     array_index loadId = None ->
     exists props',
       toggleLoad loadId currentOn (ControlResolved true) v
         = Normal {| status := JObj props'; loading := loading v; error := None;
                     lastUpdated := lastUpdated v |} /\
       assoc "loads" props'
         = Some (JObj (ls ++ [(loadId, JObj [("on", JBool (negb (ToBoolean currentOn)))])])%list)).
Proof.
  intros Hne. apply String.eqb_neq in Hne.
  unfold toggleLoad, toggleLoad_request. rewrite Hne. cbn [request_on].
  split; [|split].
  - intros Hfalsy. unfold toggle_updater. rewrite Hfalsy. reflexivity.
  - intros Htruthy Hnone. unfold toggle_updater. rewrite Htruthy. cbn [negb].
    destruct (status v) as [| |b|n|s|elems|props]; try discriminate;
      cbn [Get GetOpt bindC] in *; destruct Hnone as [-> | ->]; reflexivity.
  - intros props ls Hst Hloads Hmissing Hidx.
    unfold toggle_updater. rewrite Hst. cbn [ToBoolean negb Get own_props bindC].
    rewrite Hloads. cbn [bindC spread own_props].
    unfold spread_at. cbn [own_props]. rewrite Hmissing.
    eexists. split; [reflexivity|].
    rewrite assoc_define_prop_same. do 2 f_equal.
    unfold define_prop at 1. unfold has_key. rewrite Hmissing, Hidx.
    reflexivity.
Qed.

Lemma toggle_on_incomplete_snapshot_witness :
  (ToBoolean (status initial_view) = false ->
   toggleLoad "lamp" (JBool true) (ControlResolved true) initial_view
     = Normal {| status := status initial_view; loading := loading initial_view;
                 error := None; lastUpdated := lastUpdated initial_view |}) /\
  (ToBoolean (status initial_view) = true ->
   GetOpt (status initial_view) "loads" = JUndefined \/
   GetOpt (status initial_view) "loads" = JNull ->
   toggleLoad "lamp" (JBool true) (ControlResolved true) initial_view = Throw TypeError) /\
  (forall props ls,
     status initial_view = JObj props ->
     assoc "loads" props = Some (JObj ls) ->
     assoc "lamp" ls = None ->
     array_index "lamp" = None ->
     exists props',
       toggleLoad "lamp" (JBool true) (ControlResolved true) initial_view
         = Normal {| status := JObj props'; loading := loading initial_view; error := None;
                     lastUpdated := lastUpdated initial_view |} /\
       assoc "loads" props'
         = Some (JObj (ls ++ [("lamp", JObj [("on", JBool (negb (ToBoolean (JBool true))))])])%list)).
Proof.
  apply (toggle_on_incomplete_snapshot "lamp" (JBool true) initial_view).
  discriminate.
Defined.

(** ** The client: the summary and the chart of one snapshot *)

Lemma plain_json_number (x : float) : plain_power (json_number x).
Proof.
  unfold json_number. destruct (PrimFloat.is_finite x) eqn:E; cbn [plain_power]; [|exact I].
  destruct (PrimFloat.is_zero x); [reflexivity|exact E].
Qed.

(** A reading that is not negative contributes the same number to the
    summary and to the chart. *)
Lemma clamped_wire_number (x : float) :
  F64.nonneg x -> clamped (json_number x) = wire_number x.
Proof.
  intros Hx. unfold wire_number, json_number.
  destruct (PrimFloat.is_finite x) eqn:Ef; cbn [clamped]; [|reflexivity].
  destruct (PrimFloat.is_zero x) eqn:Ez; [reflexivity|].
  assert (Hpos : PrimFloat.ltb 0 x = true).
  { apply F64Facts.nonneg_SF in Hx.
    rewrite F64Facts.is_zero_spec in Ez. rewrite ltb_spec.
    change (Prim2SF 0) with (S754_zero false).
    destruct (Prim2SF x) as [s|s| |s m e]; try contradiction; try discriminate.
    - now destruct s.
    - destruct s; [contradiction|reflexivity]. }
  now rewrite Hpos.
Qed.

(** The chart's entries for the loads of a server state, in order. *)
Lemma pie_entries_of_loads (ls : list (string * Load)) :
  exists es,
    mapC pie_entry (map (fun '(id, l) => (id, json_of_load l)) ls) = Normal es /\
    map Entry.id es = map fst ls /\
    map Entry.power es = map (fun e => clamped (json_number (power_W (snd e)))) ls.
Proof.
  induction ls as [|[id l] rest (es & Hes & Hid & Hpow)]; [now exists []|].
  cbn [map mapC].
  destruct (Pie.pie_entry_plain id
              [("name", JStr (name l)); ("on", JBool (on l));
               ("voltage_V", json_number (voltage_V l));
               ("current_A", json_number (current_A l));
               ("power_W", json_number (power_W l));
               ("energy_Wh", json_number (energy_Wh l))]
              (plain_json_number (power_W l))) as (e & He & Heid & Hep).
  unfold json_of_load at 1. rewrite He. cbn [bindC]. rewrite Hes. cbn [bindC].
  eexists. split; [reflexivity|]. cbn [map fst snd]. rewrite Heid, Hep, Hid, Hpow.
  split; reflexivity.
Qed.

Lemma pie_total_powers (es : list Entry.t) :
  forall acc,
    fold_left (fun s e => (s + Entry.power e)%float) es acc
    = fold_left PrimFloat.add (map Entry.power es) acc.
Proof. induction es as [|e rest IH]; intros acc; cbn; [reflexivity|apply IH]. Qed.

Lemma sum_power_wire (ls : list (string * Load)) :
  forall acc,
    fold_left (fun s entry => (s + wire_number (power_W (snd entry)))%float) ls acc
    = fold_left PrimFloat.add (map (fun e => wire_number (power_W (snd e))) ls) acc.
Proof. induction ls as [|e rest IH]; intros acc; cbn; [reflexivity|apply IH]. Qed.

(** What the summary computes from the snapshot of a server state. *)
Lemma summary_of_state (st : DeviceState) :
  summary (json_of_state st)
  = Normal {| totalPower := JNum (sum_power (monitored (loads st)));
              devicesOn := count_on (loads st);
              totalDevices := List.length (loads st);
              thresholdW := json_number (highUsage_W (thresholds st)) |}.
Proof.
  unfold summary.
  replace (GetOpt (GetOpt (json_of_state st) "thresholds") "highUsage_W")
    with (json_number (highUsage_W (thresholds st))) by reflexivity.
  replace (GetOpt (json_of_state st) "loads") with (json_of_loads (loads st)) by reflexivity.
  replace (Get (json_of_state st) "loads")
    with (Normal (json_of_loads (loads st))) by reflexivity.
  rewrite threshold_passed_through.
  cbn [json_of_loads ToBoolean negb bindC Object_entries own_props].
  rewrite filter_not_fan_json.
  destruct (filter_on_json (loads st)) as (kept & Hk & Hlen).
  rewrite length_map.
  assert (Hsum := sum_over_json (monitored (loads st)) 0%float).
  fold (sum_power (monitored (loads st))) in Hsum.
  replace (GetOpt (json_of_state st) "totalPower_W") with JUndefined by reflexivity.
  cbn [is_number]. rewrite Hsum. cbn [bindC]. rewrite Hk. cbn [bindC]. now rewrite Hlen.
Qed.

(** X15.  The summary and the chart show the same total.  For the
    snapshot of every state the server can reach, "Total Monitored Power"
    in the summary is the number at the centre of the pie chart: both add
    the power of the loads other than the fan, in the same order, and no
    reading of a reachable state is negative, so the chart's clamping
    changes nothing. *)
Theorem summary_total_is_chart_total (srv : Server) :
  reachable srv ->
  exists es s,
    mapC pie_entry (filter not_fan (own_props (json_of_loads (loads (state srv))))) = Normal es /\
    summary (json_of_state (state srv)) = Normal s /\
    totalPower s = JNum (pie_total es) /\
    PowerPieChart (GetOpt (json_of_state (state srv)) "loads")
      = Normal (if PrimFloat.leb (pie_total es) 0.0001 then Placeholder
                else Chart (pie_total es) (slices_from (pie_total es) top_angle es)).
Proof.
  intros Hreach. set (st := state srv).
  destruct (pie_entries_of_loads (monitored (loads st))) as (es & Hes & _ & Hpow).
  exists es. eexists. cbn [json_of_loads own_props].
  rewrite filter_not_fan_json.
  split; [exact Hes|]. split; [apply summary_of_state|].
  assert (Htot : sum_power (monitored (loads st)) = pie_total es).
  { unfold sum_power, pie_total. rewrite pie_total_powers, sum_power_wire, Hpow.
    f_equal. apply map_ext_in. intros [id l] Hin. cbn [snd].
    symmetry. apply clamped_wire_number.
    unfold monitored in Hin. apply filter_In in Hin. destruct Hin as [Hin _].
    now destruct (reachable_readings srv Hreach id l Hin) as (Hp & _). }
  split; [cbn [totalPower]; now rewrite Htot|].
  replace (GetOpt (json_of_state st) "loads") with (json_of_loads (loads st)) by reflexivity.
  unfold PowerPieChart, json_of_loads.
  cbn [ToBoolean negb Object_entries own_props bindC].
  rewrite filter_not_fan_json, Hes. cbn [bindC].
  now destruct (PrimFloat.leb (pie_total es) 0.0001).
Qed.

Lemma summary_total_is_chart_total_witness :
  exists es s,
    mapC pie_entry (filter not_fan (own_props (json_of_loads (loads (state first_poll)))))
      = Normal es /\
    summary (json_of_state (state first_poll)) = Normal s /\
    totalPower s = JNum (pie_total es) /\
    PowerPieChart (GetOpt (json_of_state (state first_poll)) "loads")
      = Normal (if PrimFloat.leb (pie_total es) 0.0001 then Placeholder
                else Chart (pie_total es) (slices_from (pie_total es) top_angle es)).
Proof.
  apply (summary_total_is_chart_total first_poll).
  unfold first_poll. apply reach_status; [|exact steady_unit_interval]. apply reach_boot.
Defined.

Lemma pie_total_of_zeros (es : list Entry.t) :
  (forall e, In e es -> Entry.power e = 0%float) -> pie_total es = 0%float.
Proof.
  unfold pie_total. induction es as [|e rest IH]; intros H; [reflexivity|].
  cbn [fold_left]. rewrite (H e (or_introl eq_refl)).
  change (0 + 0)%float with 0%float. apply IH. intros e' He'. apply H. now right.
Qed.

Lemma above_threshold (p total : float) :
  F64.finite p -> F64.nonneg total ->
  PrimFloat.ltb 0.0001 p = true -> PrimFloat.leb p total = true ->
  PrimFloat.leb total 0.0001 = false.
Proof.
  intros Fp Ht Hp Hle.
  assert (F4 : F64.finite 0.0001%float) by now apply (F64Lit.finite_literal 0.0001 eq_refl).
  destruct (F64Facts.nonneg_cases total Ht) as [[Ft _]|Hinf].
  - apply (F64Facts.ltb_val _ _ F4 Fp) in Hp. apply (F64Facts.leb_val _ _ Fp Ft) in Hle.
    destruct (PrimFloat.leb total 0.0001) eqn:E; [|reflexivity].
    apply (F64Facts.leb_val _ _ Ft F4) in E. lra.
  - rewrite leb_spec, Hinf. reflexivity.
Qed.

(** Every plain entry has its chart entry. *)
Lemma mapC_plain_covers (entries : list (string * JsValue)) :
  (forall id l, In (id, l) entries ->
      exists props, l = JObj props /\ plain_power (GetOpt l "power_W")) ->
  forall es, mapC pie_entry entries = Normal es ->
  forall id l, In (id, l) entries ->
    exists e, In e es /\ Entry.id e = id /\ Entry.power e = clamped (GetOpt l "power_W").
Proof.
  induction entries as [|[k x] rest IH]; intros Hplain es Hes id l Hin; [contradiction|].
  destruct (Hplain k x (or_introl eq_refl)) as (props & -> & Hp).
  destruct (Pie.pie_entry_plain k props Hp) as (e0 & He0 & Hid0 & Hp0).
  cbn [mapC] in Hes. rewrite He0 in Hes. cbn [bindC] in Hes.
  destruct (mapC pie_entry rest) as [es0|err] eqn:Er; [|discriminate].
  cbn [bindC] in Hes. injection Hes as <-.
  destruct Hin as [[= <- <-]|Hin].
  - exists e0. split; [now left|]. now split.
  - destruct (IH (fun id0 l0 H => Hplain id0 l0 (or_intror H)) es0 eq_refl id l Hin)
      as (e & He & Hid & Hpe).
    exists e. split; [now right|]. now split.
Qed.

(** X16.  When the chart is drawn.  For loads whose [power_W] is absent,
    [null] or a finite number: if no load other than the fan draws power
    (every [power_W] is absent, [null], zero or negative) the placeholder
    is shown, whatever the fan reads; if some load other than the fan
    reads more than 0.0001 W the chart is drawn. *)
Theorem chart_drawn_when_a_load_draws (entries : list (string * JsValue)) :
  (forall id l, In (id, l) entries -> id <> "fan" ->
      exists props, l = JObj props /\ plain_power (GetOpt l "power_W")) ->
  ((forall id l, In (id, l) entries -> id <> "fan" ->
      clamped (GetOpt l "power_W") = 0%float) ->
   PowerPieChart (JObj entries) = Normal Placeholder) /\
  (forall id l, In (id, l) entries -> id <> "fan" ->
     PrimFloat.ltb 0.0001 (clamped (GetOpt l "power_W")) = true ->
     exists total slices, PowerPieChart (JObj entries) = Normal (Chart total slices)).
Proof.
  intros Hplain.
  assert (Hmon : forall id l, In (id, l) (filter not_fan entries) ->
                   In (id, l) entries /\ id <> "fan").
  { intros id l Hin. apply filter_In in Hin. destruct Hin as [Hin Hnf]. split; [exact Hin|].
    unfold not_fan in Hnf. cbn [fst] in Hnf. apply negb_true_iff in Hnf.
    now apply String.eqb_neq. }
  destruct (Pie.mapC_plain (filter not_fan entries)) as (es & Hes & Hlen & Hclean & Hsrc).
  { intros id l Hin. destruct (Hmon id l Hin) as [Hin' Hne]. now apply (Hplain id). }
  assert (Hchart : PowerPieChart (JObj entries)
                   = Normal (if PrimFloat.leb (pie_total es) 0.0001 then Placeholder
                             else Chart (pie_total es)
                                    (slices_from (pie_total es) top_angle es))).
  { unfold PowerPieChart. cbn [ToBoolean negb Object_entries own_props bindC].
    rewrite Hes. cbn [bindC]. now destruct (PrimFloat.leb (pie_total es) 0.0001). }
  split.
  - intros Hzero. rewrite Hchart, pie_total_of_zeros; [reflexivity|].
    intros e He. destruct (Hsrc e He) as (id & l & Hin & _ & ->).
    destruct (Hmon id l Hin) as [Hin' Hne]. now apply (Hzero id).
  - intros id l Hin Hne Habove. rewrite Hchart.
    assert (Hin' : In (id, l) (filter not_fan entries)).
    { apply filter_In. split; [exact Hin|]. unfold not_fan. cbn [fst].
      apply negb_true_iff. now apply String.eqb_neq. }
    destruct (mapC_plain_covers (filter not_fan entries)) with (es := es) (id := id) (l := l)
      as (e & He & _ & Hp); auto.
    { intros id0 l0 Hin0. destruct (Hmon id0 l0 Hin0) as [Hin1 Hne1]. now apply (Hplain id0). }
    destruct (Pie.sum_from_bounds es 0%float eq_refl Hclean) as (Nt & _ & Hall).
    destruct (Hclean e He) as [Fe _].
    rewrite (above_threshold (Entry.power e) (pie_total es) Fe Nt).
    + eexists _, _. reflexivity.
    + now rewrite Hp.
    + now apply Hall.
Qed.

Lemma chart_drawn_when_a_load_draws_witness :
  ((forall id l, In (id, l) synced_loads -> id <> "fan" ->
      clamped (GetOpt l "power_W") = 0%float) ->
   PowerPieChart (JObj synced_loads) = Normal Placeholder) /\
  (forall id l, In (id, l) synced_loads -> id <> "fan" ->
     PrimFloat.ltb 0.0001 (clamped (GetOpt l "power_W")) = true ->
     exists total slices, PowerPieChart (JObj synced_loads) = Normal (Chart total slices)).
Proof.
  apply (chart_drawn_when_a_load_draws synced_loads). exact synced_loads_plain.
Defined.

Lemma mapC_pie_entry_ids (entries : list (string * JsValue)) :
  forall es, mapC pie_entry entries = Normal es ->
    map Entry.id es = map fst entries /\
    map Entry.name es
      = map (fun entry => js_or (GetOpt (snd entry) "name") (JStr (fst entry))) entries.
Proof.
  induction entries as [|[k x] rest IH]; intros es Hes.
  - injection Hes as <-. split; reflexivity.
  - cbn [mapC] in Hes. destruct (pie_entry (k, x)) as [e0|err] eqn:E0; [|discriminate].
    cbn [bindC] in Hes. destruct (mapC pie_entry rest) as [es0|err]; [|discriminate].
    cbn [bindC] in Hes. injection Hes as <-. destruct (IH es0 eq_refl) as [Hid Hnm].
    unfold pie_entry in E0.
    assert (Hget : Get x "name" = Normal (GetOpt x "name") /\
                   Get x "power_W" = Normal (GetOpt x "power_W")).
    { destruct x; try discriminate; split; reflexivity. }
    destruct Hget as [Hg1 Hg2]. rewrite Hg1, Hg2 in E0. cbn [bindC] in E0.
    destruct (ToNumber _) as [n|err]; [|discriminate]. cbn [bindC] in E0.
    injection E0 as <-. cbn [map fst snd Entry.id Entry.name]. rewrite Hid, Hnm.
    split; reflexivity.
Qed.

Lemma slices_from_keys (total : float) (es : list Entry.t) :
  forall start,
    map Slice.key (slices_from total start es) = map Entry.id es /\
    map Slice.label (slices_from total start es) = map Entry.name es /\
    map Slice.value (slices_from total start es) = map Entry.power es.
Proof.
  induction es as [|e rest IH]; intros start; cbn [slices_from map]; [auto|].
  destruct (IH (start + Entry.power e / total * Number.Math_PI * 2)%float) as (H1 & H2 & H3).
  cbn [Slice.key Slice.label Slice.value]. rewrite H1, H2, H3. auto.
Qed.

Lemma filter_keys_NoDup {A : Type} (f : string * A -> bool) (l : list (string * A)) :
  NoDup (map fst l) -> NoDup (map fst (filter f l)).
Proof.
  induction l as [|[k x] rest IH]; cbn [map filter fst]; intros H; [constructor|].
  inversion H as [|? ? Hnin Hrest]; subst.
  destruct (f (k, x)); [|now apply IH].
  cbn [map fst]. constructor; [|now apply IH].
  intros Hin. apply Hnin. apply in_map_iff in Hin. destruct Hin as ([k' x'] & Hk & Hin).
  cbn [fst] in Hk. subst k'. apply filter_In in Hin. destruct Hin as [Hin _].
  apply in_map_iff. now exists (k, x').
Qed.

(** X17.  The slices follow the loads.  Whenever the chart is drawn, its
    slices are keyed by the ids of the loads other than the fan, one
    slice per load and in the order the snapshot enumerates them; each is
    labelled with the load's name, or with its id when the name is
    missing or empty; and the keys React is given are distinct whenever
    the ids are, as the keys of a parsed JSON object are. *)
Theorem slices_follow_loads
    (entries : list (string * JsValue)) (total : float) (slices : list Slice.t) :
  PowerPieChart (JObj entries) = Normal (Chart total slices) ->
  map Slice.key slices = map fst (filter not_fan entries) /\
  map Slice.label slices
    = map (fun entry => js_or (GetOpt (snd entry) "name") (JStr (fst entry)))
          (filter not_fan entries) /\
  ~ In "fan" (map Slice.key slices) /\
  (NoDup (map fst entries) -> NoDup (map Slice.key slices)).
Proof.
  unfold PowerPieChart. cbn [ToBoolean negb Object_entries own_props bindC].
  destruct (mapC pie_entry (filter not_fan entries)) as [es|err] eqn:Hes; [|discriminate].
  cbn [bindC]. destruct (PrimFloat.leb (pie_total es) 0.0001); [discriminate|].
  intros [= <- <-].
  destruct (slices_from_keys (pie_total es) es top_angle) as (Hk & Hl & _).
  destruct (mapC_pie_entry_ids _ es Hes) as [Hid Hnm].
  assert (Hkeys : map Slice.key (slices_from (pie_total es) top_angle es)
                  = map fst (filter not_fan entries)) by now rewrite Hk.
  split; [exact Hkeys|]. split; [now rewrite Hl|]. split.
  - rewrite Hkeys. intros Hin. apply in_map_iff in Hin. destruct Hin as ([k x] & Hk' & Hin).
    cbn [fst] in Hk'. subst k. apply filter_In in Hin. destruct Hin as [_ Hnf].
    discriminate.
  - intros Hnd. rewrite Hkeys. now apply filter_keys_NoDup.
Qed.

Lemma slices_follow_loads_witness :
  map Slice.key (slices_from 36 top_angle seed_entries)
    = map fst (filter not_fan synced_loads) /\
  map Slice.label (slices_from 36 top_angle seed_entries)
    = map (fun entry => js_or (GetOpt (snd entry) "name") (JStr (fst entry)))
          (filter not_fan synced_loads) /\
  ~ In "fan" (map Slice.key (slices_from 36 top_angle seed_entries)) /\
  (NoDup (map fst synced_loads) ->
   NoDup (map Slice.key (slices_from 36 top_angle seed_entries))).
Proof.
  apply (slices_follow_loads synced_loads 36 (slices_from 36 top_angle seed_entries)).
  vm_compute. reflexivity.
Defined.

(** ** The simulator: how far a cycle moves a current *)

Module Drift.
Import F64 F64Facts F64Lit.
#[local] Open Scope R_scope.

Lemma val_0_025 : val 0.025%float = 7205759403792794 / 288230376151711744.
Proof.
  rewrite (val_literal 0.025 false 7205759403792794 58) by (reflexivity || lia).
  cbn [cond_Zopp Z.opp]. change (2 ^ 58)%Z with 288230376151711744%Z. reflexivity.
Qed.

Lemma val_minus_0_025 : val (-0.025)%float = - (7205759403792794 / 288230376151711744).
Proof.
  rewrite (val_literal (-0.025) true 7205759403792794 58) by (reflexivity || lia).
  cbn [cond_Zopp Z.opp]. change (2 ^ 58)%Z with 288230376151711744%Z. lra.
Qed.

Lemma val_0_05_exact : val 0.05%float = 7205759403792794 / 144115188075855872.
Proof.
  rewrite (val_literal 0.05 false 7205759403792794 57) by (reflexivity || lia).
  cbn [cond_Zopp Z.opp]. change (2 ^ 57)%Z with 144115188075855872%Z. reflexivity.
Qed.

Lemma val_0_975 : val 0.975%float = 8782019273372467 / 9007199254740992.
Proof.
  rewrite (val_literal 0.975 false 8782019273372467 53) by (reflexivity || lia).
  cbn [cond_Zopp Z.opp]. change (2 ^ 53)%Z with 9007199254740992%Z. reflexivity.
Qed.

Lemma val_above_1_025 :
  val 0x1.0666666666667p+0%float = 4616189618054759 / 4503599627370496.
Proof.
  rewrite (val_literal 0x1.0666666666667p+0 false 4616189618054759 52)
    by (reflexivity || lia).
  cbn [cond_Zopp Z.opp]. change (2 ^ 52)%Z with 4503599627370496%Z. reflexivity.
Qed.

(** The factor [1 + noise] lies within 2.5 % of 1, up to the last bit. *)
Lemma factor_bounds (r : float) :
  unit_interval r ->
  let factor := (1 + (r - 0.5) * 0.05)%float in
  finite factor /\
  8782019273372467 / 9007199254740992 <= val factor <= 4616189618054759 / 4503599627370496.
Proof.
  intros Hr. cbv zeta. destruct (unit_interval_val r Hr) as [Fr Hv].
  assert (Fh : finite 0.5%float) by now apply finite_literal.
  destruct (rounds_between _ (r - 0.5)%float (-0.5)%float 0.5%float
              (sub_rounds r 0.5 Fr Fh))
    as [Fz Hz]; try now apply finite_literal.
  { rewrite val_minus_half, val_half. lra. }
  rewrite val_minus_half, val_half in Hz.
  assert (F5 : finite 0.05%float) by now apply finite_literal.
  destruct (rounds_between _ ((r - 0.5) * 0.05)%float (-0.025)%float 0.025%float
              (mul_rounds _ 0.05 Fz F5))
    as [Fw Hw]; try now apply finite_literal.
  { rewrite val_minus_0_025, val_0_025, val_0_05_exact. split; nra. }
  rewrite val_minus_0_025, val_0_025 in Hw.
  assert (F1 : finite 1%float) by now apply finite_literal.
  destruct (rounds_between _ (1 + (r - 0.5) * 0.05)%float 0.975%float
              0x1.0666666666667p+0%float (add_rounds 1 _ F1 Fw))
    as [Ft Ht]; try now apply finite_literal.
  { rewrite val_one, val_0_975, val_above_1_025. lra. }
  rewrite val_0_975, val_above_1_025 in Ht. split; [exact Ft|exact Ht].
Qed.

Lemma pow2_m50 : pow2 (-50) = / 1125899906842624.
Proof.
  unfold pow2. change (-50)%Z with (Z.opp 50).
  rewrite powerRZ_neg'. fold (pow2 50). rewrite pow2_IZR by lia. reflexivity.
Qed.

Lemma pow2_m53 : pow2 (-53) = / 9007199254740992.
Proof.
  unfold pow2. change (-53)%Z with (Z.opp 53).
  rewrite powerRZ_neg'. fold (pow2 53). rewrite pow2_IZR by lia. reflexivity.
Qed.

(** The value [Math.max(0, y)] takes for a [y] that is not negative. *)
Lemma Math_max_0_val (y : float) :
  nonneg y -> finite (Number.Math_max 0 y) ->
  finite y /\ val (Number.Math_max 0 y) = val y.
Proof.
  intros Hy Hf. destruct (nonneg_cases y Hy) as [[Fy Hv]|Hinf].
  - split; [exact Fy|].
    destruct (Pie.Math_max_0_cases y Fy) as [[-> _]|[-> Hle]]; [reflexivity|].
    rewrite val_zero. lra.
  - exfalso. unfold Number.Math_max in Hf.
    rewrite (nonneg_not_nan y Hy) in Hf. change (PrimFloat.is_nan 0) with false in Hf.
    cbn [orb] in Hf.
    assert (Hlt : PrimFloat.ltb 0 y = true) by (rewrite ltb_spec, Hinf; reflexivity).
    rewrite Hlt in Hf. unfold finite in Hf. now rewrite Hinf in Hf.
Qed.

(** One pass over a load that is on. *)
Lemma reading_on_drift (r : float) (l : Load) :
  unit_interval r ->
  nonneg (current_A l) -> finite (current_A l) ->
  finite (current_A (reading_on r l)) ->
  Rabs (val (current_A (reading_on r l)) - val (current_A l))
    <= (/ 40 + pow2 (-50)) * val (current_A l) + pow2 (-1075).
Proof.
  intros Hr Hc Fc Fc'. cbn [reading_on current_A] in *.
  destruct (factor_bounds r Hr) as [Ff Hf]. cbv zeta in Ff, Hf.
  set (f := (1 + (r - 0.5) * 0.05)%float) in *.
  set (c := current_A l) in *.
  assert (Hc0 : 0 <= val c) by now apply nonneg_finite_val.
  assert (Hy : nonneg (c * f)%float).
  { apply (mul_nonneg c f Hc Ff). lra. }
  destruct (Math_max_0_val (c * f)%float Hy Fc') as [Fy ->].
  pose proof (rounds_error _ _ (mul_rounds c f Fc Ff) Fy) as He.
  pose proof (pow2_pos (-1075)) as Heta.
  rewrite pow2_m53 in He. rewrite pow2_m50.
  assert (Hp0 : 0 <= val c * val f) by nra.
  rewrite (Rabs_pos_eq _ Hp0) in He.
  assert (Herr : Rabs (val (c * f) - val c * val f)
                 <= val c * val f * / 9007199254740992 + pow2 (-1075)).
  { eapply Rle_trans; [exact He|]. apply Rmax_lub; nra. }
  apply Rabs_le. apply PieSum.Rabs_le_inv in Herr. destruct Herr as [E1 E2].
  split; nra.
Qed.

End Drift.

(** X18.  A cycle moves the current of a load that is on by at most 2.5 %,
    up to rounding.  For a load that is on, with a finite current that is
    not negative, and draws of [Math.random()] in [[0, 1)]: if the new
    current is finite, it differs from the old one by at most
    [(0.025 + 2^-50)] times the old one, plus [2^-1075] (half the smallest
    positive number). *)
Theorem cycle_drift_bounded
    (now : float) (random : nat -> float) (st : DeviceState) (key : string) (l : Load) :
  (forall k, F64.unit_interval (random k)) ->
  assoc key (loads st) = Some l ->
  on l = true ->
  PrimFloat.leb 0 (current_A l) = true ->
  PrimFloat.is_finite (current_A l) = true ->
  exists l',
    assoc key (loads (snd (updateFakeReadings now random st))) = Some l' /\
    (PrimFloat.is_finite (current_A l') = true ->
     (Rabs (F64.val (current_A l') - F64.val (current_A l))
      <= (/ 40 + F64.pow2 (-50)) * F64.val (current_A l) + F64.pow2 (-1075))%R).
Proof.
  intros Hrand Hl Hon Hc Hf.
  rewrite updateFakeReadings_loads.
  pose proof (readings_loop_assoc random key (loads st) 0) as Ha. rewrite Hl in Ha.
  destruct Ha as (l' & Ha & Hcyc). exists l'. split; [exact Ha|].
  intros Hf'. unfold cycled in Hcyc. rewrite Hon in Hcyc. destruct Hcyc as [j ->].
  apply Drift.reading_on_drift; auto.
  - now apply F64Facts.finite_is_finite.
  - now apply F64Facts.finite_is_finite.
Qed.

Lemma cycle_drift_bounded_witness :
  exists l',
    assoc "lamp" (loads (snd (updateFakeReadings 1700000001000 highest
                                (initial_state 1700000000000)))) = Some l' /\
    (PrimFloat.is_finite (current_A l') = true ->
     (Rabs (F64.val (current_A l') - F64.val (current_A lamp_at_boot))
      <= (/ 40 + F64.pow2 (-50)) * F64.val (current_A lamp_at_boot) + F64.pow2 (-1075))%R).
Proof.
  apply (cycle_drift_bounded 1700000001000 highest (initial_state 1700000000000) "lamp"
           lamp_at_boot).
  - intros k. split; reflexivity.
  - reflexivity.
  - reflexivity.
  - reflexivity.
  - reflexivity.
Defined.

(** ** The client: the load cards and the summary row *)

Lemma toFixed_zero_sign (f : Z) (x : float) :
  toFixed f (if PrimFloat.is_zero x then PrimFloat.zero else x) = toFixed f x.
Proof.
  destruct (PrimFloat.is_zero x) eqn:E; [|reflexivity].
  rewrite F64Facts.is_zero_spec in E. unfold toFixed.
  change (Prim2SF PrimFloat.zero) with (S754_zero false).
  now destruct (Prim2SF x).
Qed.

Lemma opt_toFixed_json (f : Z) (x : float) :
  opt_toFixed (json_number x) f
  = Normal (if PrimFloat.is_finite x then JStr (toFixed f x) else JUndefined).
Proof.
  unfold json_number. destruct (PrimFloat.is_finite x); [|reflexivity].
  cbn [opt_toFixed call_toFixed bindC]. now rewrite toFixed_zero_sign.
Qed.

Lemma leb_zero_sign (a b : float) :
  PrimFloat.leb (if PrimFloat.is_zero a then PrimFloat.zero else a)
                (if PrimFloat.is_zero b then PrimFloat.zero else b)
  = PrimFloat.leb a b.
Proof.
  rewrite !leb_spec.
  assert (H : forall x, Prim2SF (if PrimFloat.is_zero x then PrimFloat.zero else x)
                        = match Prim2SF x with S754_zero _ => S754_zero false | y => y end).
  { intros x. rewrite F64Facts.is_zero_spec.
    destruct (Prim2SF x) eqn:E; try (now rewrite E); reflexivity. }
  rewrite !H.
  destruct (Prim2SF a) as [sa|sa| |sa ma ea], (Prim2SF b) as [sb|sb| |sb mb eb]; reflexivity.
Qed.

(** The card of a load as the server sends it, for a load other than the
    fan. *)
Lemma card_of_server_load (thr : float) (id : string) (l : Load) :
  (id =? "fan")%string = false ->
  renderLoadCard (json_number thr) id (json_of_load l)
  = Normal
      (let high := (PrimFloat.is_finite thr && PrimFloat.is_finite (power_W l)
                    && PrimFloat.leb thr (power_W l))%bool in
       let shown := fun f x => if PrimFloat.is_finite x then toFixed f x else "" in
       {| card_key := id; card_title := JStr (name l); card_lit := on l;
          card_badge := if on l then "ON" else "OFF";
          card_body := Readings ("Voltage: " ++ shown 2%Z (voltage_V l) ++ " V")
                                ("Current: " ++ shown 3%Z (current_A l) ++ " A")
                                ("Power: " ++ shown 1%Z (power_W l) ++ " W "
                                   ++ (if high then warning_sign else ""))
                                ("Energy: " ++ shown 2%Z (energy_Wh l) ++ " Wh")
                                high;
          card_note := if high then Some ("Above " ++ toFixed 1 thr ++ " W threshold")
                       else None;
          card_button := Some {| button_label := if on l then "Turn OFF" else "Turn ON";
                                 click_loadId := id; click_currentOn := JBool (on l) |} |}).
Proof.
  intros Hid. unfold renderLoadCard. rewrite Hid.
  change (Get (json_of_load l) "power_W") with (Normal (json_number (power_W l))).
  change (Get (json_of_load l) "name") with (Normal (JStr (name l))).
  change (Get (json_of_load l) "on") with (Normal (JBool (on l))).
  change (Get (json_of_load l) "voltage_V") with (Normal (json_number (voltage_V l))).
  change (Get (json_of_load l) "current_A") with (Normal (json_number (current_A l))).
  change (Get (json_of_load l) "energy_Wh") with (Normal (json_number (energy_Wh l))).
  cbn [bindC ToBoolean negb andb]. rewrite !opt_toFixed_json. cbn [bindC].
  assert (Hhigh :
    match json_number thr with
    | JUndefined | JNull => Normal false
    | _ => match json_number (power_W l) with
           | JNum n => number_ge n (json_number thr)
           | _ => Normal false
           end
    end = Normal (PrimFloat.is_finite thr && PrimFloat.is_finite (power_W l)
                  && PrimFloat.leb thr (power_W l))%bool).
  { unfold json_number. destruct (PrimFloat.is_finite thr); [|reflexivity].
    destruct (PrimFloat.is_finite (power_W l)); [|reflexivity].
    unfold number_ge. cbn [ToNumber ToPrimitive bindC andb]. now rewrite leb_zero_sign. }
  rewrite Hhigh. cbn [bindC]. cbv zeta.
  set (high := (PrimFloat.is_finite thr && PrimFloat.is_finite (power_W l)
                && PrimFloat.leb thr (power_W l))%bool).
  assert (Hnote : (if high then t <- call_toFixed (json_number thr) 1 ;;
                                Normal (Some ("Above " ++ t ++ " W threshold"))
                   else Normal None)
                  = Normal (if high then Some ("Above " ++ toFixed 1 thr ++ " W threshold")
                            else None)).
  { destruct high eqn:E; [|reflexivity]. subst high.
    apply andb_true_iff in E. destruct E as [E _]. apply andb_true_iff in E.
    destruct E as [E _]. unfold json_number. rewrite E.
    cbn [call_toFixed bindC]. now rewrite toFixed_zero_sign. }
  rewrite Hnote. cbn [bindC].
  destruct (PrimFloat.is_finite (voltage_V l)), (PrimFloat.is_finite (current_A l)),
    (PrimFloat.is_finite (power_W l)), (PrimFloat.is_finite (energy_Wh l));
    reflexivity.
Qed.

Lemma card_of_server_fan (thr : float) (l : Load) :
  renderLoadCard (json_number thr) "fan" (json_of_load l)
  = Normal {| card_key := "fan"; card_title := JStr (name l); card_lit := on l;
              card_badge := if on l then "AUTO " ++ bullet ++ " ON"
                            else "AUTO " ++ bullet ++ " OFF";
              card_body := FanDescription; card_note := None; card_button := None |}.
Proof. reflexivity. Qed.

Lemma cards_of_server_loads (thr : float) (ls : list (string * Load)) :
  exists cards,
    mapC (fun entry => renderLoadCard (json_number thr) (fst entry) (snd entry))
         (map (fun '(id, l) => (id, json_of_load l)) ls) = Normal cards /\
    Forall2 (fun entry c =>
               renderLoadCard (json_number thr) (fst entry) (json_of_load (snd entry))
               = Normal c) ls cards.
Proof.
  induction ls as [|[id l] rest (cards & Hc & Hall)]; [exists []; split; [reflexivity|constructor]|].
  cbn [map mapC fst snd].
  assert (Hcard : exists c, renderLoadCard (json_number thr) id (json_of_load l) = Normal c).
  { destruct (id =? "fan")%string eqn:E.
    - apply String.eqb_eq in E. subst id. eexists. apply card_of_server_fan.
    - eexists. now apply card_of_server_load. }
  destruct Hcard as [c Hcard]. rewrite Hcard. cbn [bindC]. rewrite Hc. cbn [bindC].
  exists (c :: cards). split; [reflexivity|]. constructor; [exact Hcard|exact Hall].
Qed.

Lemma renderLoadCard_key (thresholdW : JsValue) (loadId : string) (load : JsValue) (c : Card) :
  renderLoadCard thresholdW loadId load = Normal c -> card_key c = loadId.
Proof.
  unfold renderLoadCard. intros H.
  repeat match type of H with
         | bindC ?x _ = Normal _ => destruct x; cbn [bindC] in H; [|discriminate]
         end.
  now injection H as <-.
Qed.

(** X19.  A snapshot the server sent is always rendered.  For the
    snapshot of every server state the summary, the three values of the
    summary row and the load cards are computed without a [TypeError];
    there is one card per load, the fan included, in the order of
    [state.loads], keyed by the load's id; and the summary row shows the
    total with one decimal, "on / all", and the threshold with one decimal
    ("Not set" when the threshold is not a finite number). *)
Theorem server_snapshot_renders (st : DeviceState) :
  exists s items cards,
    summary (json_of_state st) = Normal s /\
    summary_items s = Normal items /\
    items = (toFixed 1 (sum_power (monitored (loads st))) ++ " W",
             Number.digits (Z.of_nat (count_on (loads st))) ++ " / "
               ++ Number.digits (Z.of_nat (List.length (loads st))),
             if PrimFloat.is_finite (highUsage_W (thresholds st))
             then toFixed 1 (highUsage_W (thresholds st)) ++ " W" else "Not set") /\
    load_cards (thresholdW s) (json_of_state st) = Normal cards /\
    map card_key cards = map fst (loads st).
Proof.
  destruct (cards_of_server_loads (highUsage_W (thresholds st)) (loads st))
    as (cards & Hc & Hall).
  eexists _, _, cards. split; [apply summary_of_state|].
  split; [|split; [reflexivity|split]].
  - unfold summary_items. cbn [totalPower thresholdW devicesOn totalDevices call_toFixed bindC].
    unfold json_number. destruct (PrimFloat.is_finite (highUsage_W (thresholds st))).
    + cbn [call_toFixed bindC]. now rewrite toFixed_zero_sign.
    + reflexivity.
  - cbn [thresholdW]. unfold load_cards.
    replace (Get (json_of_state st) "loads")
      with (Normal (json_of_loads (loads st))) by reflexivity.
    cbn [json_of_state ToBoolean negb bindC json_of_loads Object_entries own_props].
    exact Hc.
  - clear Hc. induction Hall as [|[id l] c ls cs H _ IH]; [reflexivity|].
    cbn [map fst]. cbn [fst snd] in H. rewrite (renderLoadCard_key _ _ _ _ H). now rewrite IH.
Qed.

(** X20.  When a card is flagged.  For a load other than the fan, as the
    server sends it: the card carries the high-usage note and the warning
    sign exactly when the threshold and the load's power are finite
    numbers and the power is greater than or equal to the threshold
    (equality included), and the note reads "Above T W threshold" with
    the threshold to one decimal.  The fan's card is never flagged. *)
Theorem card_flagged_at_threshold (thr : float) (id : string) (l : Load) :
  exists c,
    renderLoadCard (json_number thr) id (json_of_load l) = Normal c /\
    (card_note c <> None <->
     id <> "fan" /\ PrimFloat.is_finite thr = true /\
     PrimFloat.is_finite (power_W l) = true /\
     PrimFloat.leb thr (power_W l) = true) /\
    (card_note c <> None ->
     card_note c = Some ("Above " ++ toFixed 1 thr ++ " W threshold") /\
     exists v k p e, card_body c = Readings v k p e true).
Proof.
  destruct (id =? "fan")%string eqn:E.
  - apply String.eqb_eq in E. subst id. eexists. split; [apply card_of_server_fan|].
    cbn [card_note]. split; [split|]; intros H.
    + now contradiction H.
    + destruct H as [H _]. now contradiction H.
    + now contradiction H.
  - eexists. split; [now apply card_of_server_load|]. cbv zeta. cbn [card_note card_body].
    apply String.eqb_neq in E.
    destruct (PrimFloat.is_finite thr), (PrimFloat.is_finite (power_W l)),
      (PrimFloat.leb thr (power_W l)); cbn [andb];
      (split; [split; [intros H; try (now contradiction H); auto
                      |intros (_ & H1 & H2 & H3); try discriminate]
              |intros H; try (now contradiction H)]).
    split; [reflexivity|]. eexists _, _, _, _. reflexivity.
Qed.

(** X21.  The button asks for the opposite of what the card shows.  On
    every card that is rendered for a load other than the fan, the badge
    reads "ON" and the button "Turn OFF" exactly when [load.on] is
    truthy, and the request a click sends carries this load's id and the
    negation of that truthiness.  The fan's card has no button. *)
Theorem card_button_requests_opposite
    (thresholdW : JsValue) (loadId : string) (load : JsValue) (c : Card) :
  renderLoadCard thresholdW loadId load = Normal c ->
  card_lit c = ToBoolean (GetOpt load "on") /\
  (loadId = "fan" -> card_button c = None) /\
  (loadId <> "fan" ->
   exists b,
     card_button c = Some b /\
     toggleLoad_request (click_loadId b) (click_currentOn b)
       = Some {| request_loadId := loadId;
                 request_on := negb (ToBoolean (GetOpt load "on")) |} /\
     card_badge c = (if ToBoolean (GetOpt load "on") then "ON" else "OFF") /\
     button_label b = (if ToBoolean (GetOpt load "on") then "Turn OFF" else "Turn ON")).
Proof.
  unfold renderLoadCard. intros H.
  destruct (if (loadId =? "fan")%string then Normal false else _) as [isHigh|];
    cbn [bindC] in H; [|discriminate].
  destruct (Get load "name") as [nm|]; cbn [bindC] in H; [|discriminate].
  assert (Hflag : Get load "on" = Normal (GetOpt load "on") \/ exists e, Get load "on" = Throw e).
  { destruct load; cbn [Get GetOpt]; eauto. }
  destruct Hflag as [Hflag|[e Hflag]]; rewrite Hflag in H; cbn [bindC] in H; [|discriminate].
  repeat match type of H with
         | bindC ?x _ = Normal _ => destruct x; cbn [bindC] in H; [|discriminate]
         end.
  injection H as <-. cbn [card_button card_lit card_badge].
  split; [reflexivity|]. split.
  - intros ->. reflexivity.
  - intros Hne. apply String.eqb_neq in Hne. rewrite Hne.
    eexists. split; [reflexivity|]. cbn [click_loadId click_currentOn button_label].
    unfold toggleLoad_request. rewrite Hne. repeat split.
Qed.

Lemma card_button_requests_opposite_witness :
  card_lit lamp_card = ToBoolean (GetOpt (json_of_load lamp_at_boot) "on") /\
  ("lamp" = "fan" -> card_button lamp_card = None) /\
  ("lamp" <> "fan" ->
   exists b,
     card_button lamp_card = Some b /\
     toggleLoad_request (click_loadId b) (click_currentOn b)
       = Some {| request_loadId := "lamp";
                 request_on := negb (ToBoolean (GetOpt (json_of_load lamp_at_boot) "on")) |} /\
     card_badge lamp_card
       = (if ToBoolean (GetOpt (json_of_load lamp_at_boot) "on") then "ON" else "OFF") /\
     button_label b
       = (if ToBoolean (GetOpt (json_of_load lamp_at_boot) "on")
          then "Turn OFF" else "Turn ON")).
Proof.
  apply (card_button_requests_opposite (JNum 50) "lamp" (json_of_load lamp_at_boot) lamp_card).
  reflexivity.
Defined.

(** X22.  A reading of the wrong type breaks the card.  For a load other
    than the fan whose [power_W] is neither a number nor [null] nor
    absent (a string, a boolean, an array, an object), rendering the card
    throws a [TypeError]: [?.] guards against a missing reading only, and
    only a Number has [toFixed]. *)
Theorem card_of_malformed_reading_throws
    (thresholdW : JsValue) (loadId : string) (props : list (string * JsValue)) (p : JsValue) :
  loadId <> "fan" ->
  assoc "power_W" props = Some p ->
  match p with JUndefined | JNull | JNum _ => False | _ => True end ->
  renderLoadCard thresholdW loadId (JObj props) = Throw TypeError.
Proof.
  intros Hne Hp Hbad. apply String.eqb_neq in Hne. unfold renderLoadCard. rewrite Hne.
  cbn [Get own_props]. rewrite Hp.
  assert (Hhigh : exists b,
            match thresholdW with
            | JUndefined | JNull => Normal false
            | _ => p0 <- Normal p ;;
                   match p0 with JNum n => number_ge n thresholdW | _ => Normal false end
            end = Normal b).
  { exists false. destruct thresholdW; cbn [bindC]; try reflexivity;
      destruct p; try contradiction; reflexivity. }
  destruct Hhigh as [b ->]. cbn [bindC].
  destruct (opt_toFixed _ 2) as [vs|e1] eqn:E1; cbn [bindC].
  2:{ unfold opt_toFixed, call_toFixed in E1.
      destruct (match assoc "voltage_V" props with Some x => x | None => JUndefined end);
        cbn [bindC] in E1; congruence. }
  destruct (opt_toFixed _ 3) as [cs|e2] eqn:E2; cbn [bindC].
  2:{ unfold opt_toFixed, call_toFixed in E2.
      destruct (match assoc "current_A" props with Some x => x | None => JUndefined end);
        cbn [bindC] in E2; congruence. }
  destruct p; try contradiction; reflexivity.
Qed.

Lemma card_of_malformed_reading_throws_witness :
  renderLoadCard (JNum 50) "lamp"
    (JObj [("name", JStr "Desk Lamp"); ("on", JBool true); ("power_W", JStr "abc")])
  = Throw TypeError.
Proof.
  apply (card_of_malformed_reading_throws (JNum 50) "lamp" _ (JStr "abc")).
  - discriminate.
  - reflexivity.
  - exact I.
Defined.

Lemma alert_items_of_alerts (l : list Alert.t) :
  forall idx,
    exists items,
      alert_items idx (map json_of_alert l) = Normal items /\
      map item_key items = seq idx (List.length l) /\
      Forall2 (fun a it =>
                 item_loadId it = JStr (Alert.loadId a) /\
                 item_message it = JStr (Alert.message a) /\
                 item_time it = (wire_number (Alert.timestamp a) * 1000)%float)
              l items.
Proof.
  induction l as [|a rest IH]; intros idx.
  - exists []. repeat split. constructor.
  - destruct (IH (S idx)) as (items & Hi & Hk & Hall).
    cbn [map alert_items].
    change (Get (json_of_alert a) "loadId") with (Normal (JStr (Alert.loadId a))).
    change (Get (json_of_alert a) "message") with (Normal (JStr (Alert.message a))).
    change (Get (json_of_alert a) "timestamp")
      with (Normal (json_number (Alert.timestamp a))).
    cbn [bindC].
    assert (Hn : ToNumber (json_number (Alert.timestamp a))
                 = Normal (wire_number (Alert.timestamp a))).
    { unfold wire_number, json_number.
      now destruct (PrimFloat.is_finite (Alert.timestamp a)). }
    rewrite Hn. cbn [bindC]. rewrite Hi. cbn [bindC].
    eexists. split; [reflexivity|]. cbn [map item_key List.length seq]. rewrite Hk.
    split; [reflexivity|]. constructor; [|exact Hall]. cbn. auto.
Qed.

(** X24.  The alerts panel of a snapshot.  For the snapshot of every
    server state the panel is computed without a [TypeError]: it reads
    "No active alerts" exactly when [state.alerts] is empty, and otherwise
    lists the alerts in order, keyed by their index, each with its
    [loadId], its message and the time [timestamp * 1000].  When [alerts]
    is missing the panel also reads "No active alerts"; when it is a
    non-empty string the panel throws a [TypeError]. *)
Theorem alerts_panel_of_snapshot (st : DeviceState) :
  (exists panel,
     alerts_panel (json_of_state st) = Normal panel /\
     (alerts st = [] <-> panel = NoActiveAlerts) /\
     (alerts st <> [] ->
      exists items,
        panel = AlertList items /\
        map item_key items = seq 0 (List.length (alerts st)) /\
        Forall2 (fun a it =>
                   item_loadId it = JStr (Alert.loadId a) /\
                   item_message it = JStr (Alert.message a) /\
                   item_time it = (wire_number (Alert.timestamp a) * 1000)%float)
                (alerts st) items)) /\
  (forall status, GetOpt status "alerts" = JUndefined ->
     alerts_panel status = Normal NoActiveAlerts) /\
  (forall status s, GetOpt status "alerts" = JStr s -> s <> "" ->
     alerts_panel status = Throw TypeError).
Proof.
  split; [|split].
  - unfold alerts_panel.
    replace (GetOpt (json_of_state st) "alerts")
      with (JArr (map json_of_alert (alerts st))) by reflexivity.
    cbn [truthy_length]. rewrite length_map.
    destruct (alerts st) as [|a rest] eqn:E.
    + exists NoActiveAlerts. cbn. repeat split; auto. intros H. now contradiction H.
    + destruct (alert_items_of_alerts (a :: rest) 0) as (items & Hi & Hk & Hall).
      cbn [List.length Nat.eqb negb]. rewrite Hi. cbn [bindC].
      exists (AlertList items). split; [reflexivity|]. split.
      * split; discriminate.
      * intros _. exists items. repeat split; auto.
  - intros status H. unfold alerts_panel. rewrite H. reflexivity.
  - intros status s H Hs. unfold alerts_panel. rewrite H. cbn [truthy_length].
    apply String.eqb_neq in Hs. rewrite Hs. reflexivity.
Qed.

(** ** The chart: the large-arc flag *)

Module Arc.
Import F64 F64Facts F64Lit.
#[local] Open Scope R_scope.

Lemma val_PI : val Number.Math_PI = 7074237752028440 / 2251799813685248.
Proof.
  rewrite (val_literal Number.Math_PI false 7074237752028440 51) by (reflexivity || lia).
  cbn [cond_Zopp Z.opp]. change (2 ^ 51)%Z with 2251799813685248%Z. reflexivity.
Qed.

Lemma val_half_PI : val 0x1.921fb54442d18p+0%float = 7074237752028440 / 4503599627370496.
Proof.
  rewrite (val_literal 0x1.921fb54442d18p+0 false 7074237752028440 52)
    by (reflexivity || lia).
  cbn [cond_Zopp Z.opp]. change (2 ^ 52)%Z with 4503599627370496%Z. reflexivity.
Qed.

(** A share of at most one half is not drawn with the large arc. *)
Lemma half_is_small_arc (f : float) :
  finite f -> 0 <= val f <= / 2 ->
  PrimFloat.ltb Number.Math_PI (f * Number.Math_PI * 2) = false.
Proof.
  intros Ff Hf.
  assert (FP : finite Number.Math_PI) by now apply finite_literal.
  assert (FH : finite 0x1.921fb54442d18p+0%float) by now apply finite_literal.
  assert (F2 : finite 2%float) by now apply finite_literal.
  destruct (rounds_between _ (f * Number.Math_PI)%float 0%float 0x1.921fb54442d18p+0%float
              (mul_rounds f Number.Math_PI Ff FP) finite_zero FH) as [Fa Ha].
  { rewrite val_zero, val_half_PI, val_PI. split; nra. }
  destruct (rounds_between _ (f * Number.Math_PI * 2)%float 0%float Number.Math_PI
              (mul_rounds _ 2 Fa F2) finite_zero FP) as [Fb Hb].
  { rewrite val_zero, val_two in *. rewrite val_half_PI in Ha. rewrite val_PI. split; nra. }
  destruct (PrimFloat.ltb Number.Math_PI (f * Number.Math_PI * 2)) eqn:E; [|reflexivity].
  apply (ltb_val _ _ FP Fb) in E. lra.
Qed.

(** A quotient of at most one half rounds to at most one half. *)
Lemma share_above_half (p total : float) :
  finite p -> finite total -> 0 < val total -> finite (p / total) ->
  / 2 < val (p / total) -> val total < 2 * val p.
Proof.
  intros Fp Ft Ht Ff Hf.
  destruct (Rlt_or_le (val total) (2 * val p)) as [H|H]; [exact H|]. exfalso.
  assert (Hq : val p / val total <= / 2).
  { apply (Rmult_le_reg_r (val total)); [exact Ht|]. unfold Rdiv.
    rewrite Rmult_assoc, Rinv_l by lra. lra. }
  assert (Hh : finite 0.5%float) by now apply finite_literal.
  pose proof (rounds_le _ (p / total)%float 0.5%float
                (div_rounds p total Fp Ft (Rgt_not_eq _ _ Ht)) Hh) as Hle.
  rewrite val_half in Hle. specialize (Hle Hq).
  apply (leb_val _ _ Ff Hh) in Hle. rewrite val_half in Hle. lra.
Qed.

(** Twice a float below [2^1023] is a float. *)
Lemma twice_representable (m : float) :
  finite m -> 0 <= val m -> val m < pow2 1023 ->
  exists B : float, finite B /\ val B = 2 * val m.
Proof.
  intros Fm H0 Hlt. pose proof (Prim2SF_valid m) as Hv.
  assert (Hval : val m = SFR (Prim2SF m)) by reflexivity. rewrite Hval in *. clear Hval.
  unfold finite in Fm. destruct (Prim2SF m) as [s|s| |s mm e] eqn:E;
    try contradiction.
  - exists 0%float. split; [exact finite_zero|]. rewrite val_zero. cbn [SFR]. lra.
  - destruct (valid_finite s mm e Hv) as [Hc He].
    assert (Hs : s = false).
    { destruct s; [|reflexivity]. cbn [SFR] in H0.
      pose proof (F2R_pos_pos mm e). lra. }
    subst s. cbn [SFR] in H0, Hlt.
    rewrite fexp64_eq in Hc.
    destruct (Z_lt_le_dec (Z.pos (digits2_pos mm)) 53) as [Hd|Hd].
    + (* subnormal: the mantissa doubles *)
      assert (He' : e = (-1074)%Z) by lia.
      assert (Hvalid : SpecFloat.valid_binary prec emax (S754_finite false mm~0 e) = true).
      { cbn [valid_binary]. unfold bounded, canonical_mantissa.
        apply andb_true_intro. split; [apply Z.eqb_eq|apply Z.leb_le].
        - change (fexp prec emax) with (fun x => Z.max (x - 53) (-1074)%Z). cbn beta.
          cbn [digits2_pos]. rewrite Pos2Z.inj_succ. subst e. lia.
        - subst e. unfold emax, prec. lia. }
      exists (SF2Prim (S754_finite false mm~0 e)).
      unfold finite, val. rewrite (Prim2SF_SF2Prim _ Hvalid). split; [exact I|].
      cbn [SFR]. unfold F2R. rewrite IZR_xO. ring.
    + (* normal: the exponent goes up by one *)
      assert (Hdig : Z.pos (digits2_pos mm) = 53%Z).
      { destruct (digits2_bounds_R mm e) as [_ Hhi].
        destruct (Z_lt_le_dec 53 (Z.pos (digits2_pos mm))) as [Hgt|Hle]; [|lia]. lia. }
      assert (He1 : (e <= 970)%Z).
      { destruct (digits2_bounds_R mm e) as [Hlo _]. rewrite Hdig in Hlo.
        assert (Hp : pow2 (53 + e - 1) < pow2 1023) by lra.
        apply pow2_lt_inv in Hp. lia. }
      assert (Hvalid : SpecFloat.valid_binary prec emax (S754_finite false mm (e + 1)) = true).
      { cbn [valid_binary]. unfold bounded, canonical_mantissa.
        apply andb_true_intro. split; [apply Z.eqb_eq|apply Z.leb_le].
        - change (fexp prec emax) with (fun x => Z.max (x - 53) (-1074)%Z). cbn beta.
          rewrite Hdig. lia.
        - unfold emax, prec. lia. }
      exists (SF2Prim (S754_finite false mm (e + 1))).
      unfold finite, val. rewrite (Prim2SF_SF2Prim _ Hvalid). split; [exact I|].
      cbn [SFR]. unfold F2R. rewrite pow2_succ. ring.
Qed.

Lemma sum_from_app (a b : list Entry.t) (acc : float) :
  sum_from acc (a ++ b) = sum_from (sum_from acc a) b.
Proof. unfold sum_from. apply fold_left_app. Qed.

Lemma clean_app (a b : list Entry.t) : clean (a ++ b) -> clean a /\ clean b.
Proof.
  intros H. split; intros e He; apply H; apply in_or_app; auto.
Qed.

(** No two entries are each more than half of the total. *)
Lemma two_halves (a b c : list Entry.t) (e1 e2 : Entry.t) :
  let es := (a ++ e1 :: b ++ e2 :: c)%list in
  clean es ->
  finite (pie_total es) -> val (pie_total es) < pow2 1023 ->
  val (pie_total es) < 2 * val (Entry.power e1) ->
  val (pie_total es) < 2 * val (Entry.power e2) ->
  False.
Proof.
  cbv zeta. intros Hclean Ft Hbig H1 H2.
  set (es := (a ++ e1 :: b ++ e2 :: c)%list) in *.
  change (pie_total es) with (sum_from 0 es) in *.
  assert (Hes : sum_from 0 es
                = sum_from (sum_from (sum_from 0 a + Entry.power e1) b + Entry.power e2) c).
  { unfold es. rewrite sum_from_app. cbn [sum_from fold_left].
    fold (sum_from (sum_from 0 a + Entry.power e1)%float (b ++ e2 :: c)).
    rewrite sum_from_app. reflexivity. }
  destruct (clean_app a _ Hclean) as [Ca Crest].
  assert (C1 : finite (Entry.power e1) /\ nonneg (Entry.power e1))
    by (apply Crest; now left).
  destruct (clean_app (e1 :: b) (e2 :: c)) as [_ Crest2].
  { intros e He. apply Crest. exact He. }
  destruct (clean_app b _ (fun e He => Crest e (or_intror He))) as [Cb _].
  assert (C2 : finite (Entry.power e2) /\ nonneg (Entry.power e2))
    by (apply Crest2; now left).
  assert (Cc : clean c) by (intros e He; apply Crest2; now right).
  destruct C1 as [F1 N1], C2 as [F2 N2].
  (* the running totals *)
  destruct (Pie.sum_from_bounds a 0%float eq_refl Ca) as (Na & _ & _).
  set (s0 := sum_from 0 a) in *.
  destruct (add_nonneg s0 (Entry.power e1) Na N1) as (Ns1 & _ & Hp1).
  set (s1 := (s0 + Entry.power e1)%float) in *.
  destruct (Pie.sum_from_bounds b s1 Ns1 Cb) as (Ns2' & Hm2 & _).
  set (s2' := sum_from s1 b) in *.
  destruct (add_nonneg s2' (Entry.power e2) Ns2' N2) as (Ns2 & Hs2' & _).
  set (s2 := (s2' + Entry.power e2)%float) in *.
  destruct (Pie.sum_from_bounds c s2 Ns2 Cc) as (Nt & Hm3 & _).
  rewrite Hes in Ft, Hbig, H1, H2. set (t := sum_from s2 c) in *.
  assert (Fs2 : finite s2) by exact (PieSum.nonneg_le_finite s2 t Ns2 Hm3 Ft).
  assert (Fs2' : finite s2') by exact (PieSum.nonneg_le_finite s2' s2 Ns2' Hs2' Fs2).
  assert (Fs1 : finite s1) by exact (PieSum.nonneg_le_finite s1 s2' Ns1 Hm2 Fs2').
  apply (leb_val _ _ F1 Fs1) in Hp1. apply (leb_val _ _ Fs1 Fs2') in Hm2.
  apply (leb_val _ _ Fs2 Ft) in Hm3. apply (leb_val _ _ Fs2' Fs2) in Hs2'.
  (* twice the smaller of the two is a float between the total and s2 *)
  assert (Hmin : exists m : float,
             finite m /\ 0 <= val m /\ val t < 2 * val m /\
             val m <= val (Entry.power e1) /\ val m <= val (Entry.power e2)).
  { destruct (Rle_or_lt (val (Entry.power e1)) (val (Entry.power e2))) as [H|H].
    - exists (Entry.power e1). repeat split; auto; try lra; now apply nonneg_finite_val.
    - exists (Entry.power e2). repeat split; auto; try lra; now apply nonneg_finite_val. }
  destruct Hmin as (m & Fm & Hm0 & Hmt & Hm1 & Hm2').
  destruct (twice_representable m Fm Hm0) as (B & FB & HB).
  { assert (val m <= val t) by lra. lra. }
  pose proof (rounds_ge _ s2 B (add_rounds s2' (Entry.power e2) Fs2' F2) FB) as Hge.
  assert (Hx : val B <= val s2' + val (Entry.power e2)) by lra.
  specialize (Hge Hx). apply (leb_val _ _ FB Fs2) in Hge. lra.
Qed.

(** An entry that is drawn with the large arc is more than half of the
    total. *)
Lemma large_arc_share (p total : float) :
  finite p -> nonneg p -> finite total -> nonneg total ->
  PrimFloat.leb p total = true ->
  PrimFloat.leb total 0.0001 = false ->
  PrimFloat.ltb Number.Math_PI (p / total * Number.Math_PI * 2) = true ->
  PrimFloat.ltb 0.5 (p / total) = true /\ val total < 2 * val p.
Proof.
  intros Fp Np Ft Nt Hle Hbig Harc.
  destruct (Pie.fraction_bounds p total Fp Np Nt Hle Hbig) as [H0 H1].
  assert (F1 : finite 1%float) by now apply finite_literal.
  assert (Fh : finite 0.5%float) by now apply finite_literal.
  assert (Ff : finite (p / total)) by exact (PieSum.nonneg_le_finite _ 1%float H0 H1 F1).
  assert (Hf0 : 0 <= val (p / total)) by now apply nonneg_finite_val.
  assert (Hhalf : / 2 < val (p / total)).
  { destruct (Rlt_or_le (/ 2) (val (p / total))) as [H|H]; [exact H|]. exfalso.
    rewrite (half_is_small_arc (p / total) Ff (conj Hf0 H)) in Harc. discriminate. }
  assert (Htpos : 0 < val total).
  { assert (F4 : finite 0.0001%float) by now apply (finite_literal 0.0001 eq_refl).
    destruct (Rlt_or_le 0 (val total)) as [H|H]; [exact H|]. exfalso.
    assert (Hle4 : val total <= val 0.0001%float).
    { rewrite (val_literal 0.0001 false 7378697629483821 66) by (reflexivity || lia).
      cbn [cond_Zopp Z.opp]. change (2 ^ 66)%Z with 73786976294838206464%Z. lra. }
    apply (leb_val _ _ Ft F4) in Hle4. congruence. }
  split.
  - apply (ltb_val _ _ Fh Ff). rewrite val_half. exact Hhalf.
  - now apply share_above_half.
Qed.

Lemma one_large (total : float) (es : list Entry.t) :
  forall start,
    (1 <= List.length (filter Slice.largeArc (slices_from total start es)))%nat ->
    exists a e c,
      es = (a ++ e :: c)%list /\
      PrimFloat.ltb Number.Math_PI (Entry.power e / total * Number.Math_PI * 2) = true.
Proof.
  induction es as [|e0 rest IH]; intros start H; cbn [slices_from filter] in H.
  - cbn in H. lia.
  - cbn [Slice.largeArc] in H.
    destruct (PrimFloat.ltb Number.Math_PI (Entry.power e0 / total * Number.Math_PI * 2)) eqn:E.
    + exists [], e0, rest. split; [reflexivity|exact E].
    + destruct (IH _ H) as (a & e & c & -> & He).
      exists (e0 :: a), e, c. split; [reflexivity|exact He].
Qed.

Lemma two_large (total : float) (es : list Entry.t) :
  forall start,
    (2 <= List.length (filter Slice.largeArc (slices_from total start es)))%nat ->
    exists a e1 b e2 c,
      es = (a ++ e1 :: b ++ e2 :: c)%list /\
      PrimFloat.ltb Number.Math_PI (Entry.power e1 / total * Number.Math_PI * 2) = true /\
      PrimFloat.ltb Number.Math_PI (Entry.power e2 / total * Number.Math_PI * 2) = true.
Proof.
  induction es as [|e0 rest IH]; intros start H; cbn [slices_from filter] in H.
  - cbn in H. lia.
  - cbn [Slice.largeArc] in H.
    destruct (PrimFloat.ltb Number.Math_PI (Entry.power e0 / total * Number.Math_PI * 2)) eqn:E.
    + cbn [List.length] in H. apply le_S_n in H.
      destruct (one_large total rest _ H) as (b & e2 & c & -> & He2).
      exists [], e0, b, e2, c. split; [reflexivity|]. now split.
    + destruct (IH _ H) as (a & e1 & b & e2 & c & -> & He1 & He2).
      exists (e0 :: a), e1, b, e2, c. split; [reflexivity|]. now split.
Qed.

Lemma slice_largeArc (total : float) (es : list Entry.t) :
  forall start s, In s (slices_from total start es) ->
    Slice.largeArc s = PrimFloat.ltb Number.Math_PI (Slice.fraction s * Number.Math_PI * 2).
Proof.
  induction es as [|e0 rest IH]; intros start s Hin; [contradiction|].
  cbn [slices_from] in Hin. destruct Hin as [<-|Hin]; [reflexivity|].
  now apply (IH _ _ Hin).
Qed.

Lemma val_1e300_small : val 1e300%float < pow2 1023.
Proof.
  assert (F : finite 1e300%float) by now apply finite_literal.
  unfold val. change (Prim2SF 1e300) with (S754_finite false 6724873095247260 944).
  cbn [SFR]. destruct (canonical_bounds 6724873095247260 944 eq_refl) as [Hhi _].
  eapply Rlt_le_trans; [exact Hhi|]. apply pow2_le. lia.
Qed.

End Arc.

(** X23.  At most one slice is drawn with the large arc.  For loads whose
    [power_W] is absent, [null] or a finite number, and a monitored total
    below 1e300 W: a slice has the large-arc flag only if its share is
    more than one half, and the chart has at most one such slice. *)
Theorem at_most_one_large_arc
    (entries : list (string * JsValue)) (total : float) (slices : list Slice.t) :
  (forall id l, In (id, l) entries -> id <> "fan" ->
      exists props, l = JObj props /\ plain_power (GetOpt l "power_W")) ->
  PowerPieChart (JObj entries) = Normal (Chart total slices) ->
  PrimFloat.ltb total 1e300 = true ->
  (List.length (filter Slice.largeArc slices) <= 1)%nat /\
  (forall s, In s slices -> Slice.largeArc s = true ->
     PrimFloat.ltb 0.5 (Slice.fraction s) = true).
Proof.
  intros Hplain Hchart Hsmall.
  destruct (Pie.mapC_plain (filter not_fan entries)) as (es & Hes & _ & Hclean & _).
  { intros id l Hin. apply filter_In in Hin. destruct Hin as [Hin Hnf].
    apply (Hplain id); [exact Hin|]. unfold not_fan in Hnf. cbn [fst] in Hnf.
    apply negb_true_iff in Hnf. now apply String.eqb_neq. }
  unfold PowerPieChart in Hchart.
  cbn [ToBoolean negb Object_entries own_props bindC] in Hchart.
  rewrite Hes in Hchart. cbn [bindC] in Hchart.
  destruct (PrimFloat.leb (pie_total es) 0.0001) eqn:Hbig; [discriminate|].
  injection Hchart as <- <-.
  destruct (Pie.sum_from_bounds es 0%float eq_refl Hclean) as (Nt & _ & Hall).
  change (sum_from 0 es) with (pie_total es) in Nt, Hall.
  assert (F3 : F64.finite 1e300%float) by now apply F64Lit.finite_literal.
  assert (Ft : F64.finite (pie_total es)).
  { destruct (F64Facts.nonneg_cases _ Nt) as [[F _]|Hinf]; [exact F|].
    rewrite ltb_spec, Hinf in Hsmall. discriminate. }
  apply (F64Facts.ltb_val _ _ Ft F3) in Hsmall.
  pose proof Arc.val_1e300_small as H300.
  split.
  - destruct (le_lt_dec (List.length (filter Slice.largeArc
                                        (slices_from (pie_total es) top_angle es))) 1)
      as [H|H]; [exact H|]. exfalso.
    destruct (Arc.two_large (pie_total es) es top_angle H)
      as (a & e1 & b & e2 & c & Heq & He1 & He2).
    assert (Hin1 : In e1 es) by (rewrite Heq; apply in_or_app; right; now left).
    assert (Hin2 : In e2 es).
    { rewrite Heq. apply in_or_app. right. right. apply in_or_app. right. now left. }
    destruct (Hclean e1 Hin1) as [F1 N1]. destruct (Hclean e2 Hin2) as [F2 N2].
    destruct (Arc.large_arc_share _ _ F1 N1 Ft Nt (Hall e1 Hin1) Hbig He1) as [_ H1].
    destruct (Arc.large_arc_share _ _ F2 N2 Ft Nt (Hall e2 Hin2) Hbig He2) as [_ H2].
    apply (Arc.two_halves a b c e1 e2); rewrite <- Heq; auto. lra.
  - intros s Hin Harc.
    destruct (Pie.slices_from_In _ _ _ _ Hin) as (e & He & Hf & _).
    assert (Hlarge : PrimFloat.ltb Number.Math_PI
                       (Entry.power e / pie_total es * Number.Math_PI * 2) = true).
    { rewrite <- Hf, <- (Arc.slice_largeArc _ _ _ _ Hin). exact Harc. }
    destruct (Hclean e He) as [Fe Ne].
    rewrite Hf.
    now destruct (Arc.large_arc_share _ _ Fe Ne Ft Nt (Hall e He) Hbig Hlarge) as [H _].
Qed.

Lemma at_most_one_large_arc_witness :
  (List.length (filter Slice.largeArc (slices_from 36 top_angle seed_entries)) <= 1)%nat /\
  (forall s, In s (slices_from 36 top_angle seed_entries) -> Slice.largeArc s = true ->
     PrimFloat.ltb 0.5 (Slice.fraction s) = true).
Proof.
  apply (at_most_one_large_arc synced_loads 36 (slices_from 36 top_angle seed_entries)).
  - exact synced_loads_plain.
  - vm_compute. reflexivity.
  - reflexivity.
Defined.
